(** * KeyBlob: the versioned key-blob codec of keymaster (key_blob.cpp)

    A shallow embedding of [KeyBlob::SerializedSize], [KeyBlob::Serialize],
    [KeyBlob::Deserialize], [KeyBlob::DeserializeUnversionedBlob],
    [KeyBlob::SetEncryptedKey] and [KeyBlob::ExtractKeyCharacteristics].

    Memory is a map from addresses to bytes; a caller's buffer is a pair of
    addresses [buf], [end].  Every byte read through the read cursor and
    every byte written to the output buffer is recorded, so that statements
    about the range [[buf, end)] can be made about the code as written. *)

From Stdlib Require Import Arith NArith List Bool Lia.
From Stdlib Require Import Strings.Byte.
Import ListNotations.
Open Scope N_scope.

(** ** Bytes and 32-bit length fields *)

Definition byte_of_N (n : N) : byte :=
  match Byte.of_N (n mod 256) with
  | Some b => b
  | None => x00
  end.

(** Modelled from the spec: the width and byte order of a length field are
    fixed by the buffer-copy collaborator (append_uint32_to_buf and
    copy_uint32_from_buf, declared in google_keymaster_utils.h, which is not
    part of the sources).  The spec fixes four bytes; the value is stored
    low byte first, and a larger value is cut to its low 32 bits, as a
    conversion to uint32_t does. *)
Definition encode_u32 (n : N) : list byte :=
  [byte_of_N n; byte_of_N (n / 256); byte_of_N (n / 65536); byte_of_N (n / 16777216)].

Fixpoint decode_le (l : list byte) : N :=
  match l with
  | [] => 0
  | b :: l' => Byte.to_N b + 256 * decode_le l'
  end.

Definition decode_u32 (l : list byte) : N := decode_le (firstn 4 l).

Definition UINT32_LIMIT : N := 4294967296.

(** ** Memory *)

Definition memory := N -> byte.

Definition addresses (p n : N) : list N :=
  map (fun i => p + N.of_nat i) (seq 0 (N.to_nat n)).

Definition read_bytes (m : memory) (p n : N) : list byte :=
  map m (addresses p n).

Definition store (m : memory) (a : N) (b : byte) : memory :=
  fun x => if x =? a then b else m x.

Fixpoint write_bytes (m : memory) (p : N) (l : list byte) : memory :=
  match l with
  | [] => m
  | b :: l' => write_bytes (store m p b) (p + 1) l'
  end.

Definition len (l : list byte) : N := N.of_nat (length l).

(** [fetch data n] is what a copy of [n] bytes out of the buffer [data]
    obtains.  A buffer shorter than [n] (a null pointer has no bytes at all)
    is read past its end, which C++ leaves undefined: the read of a null
    pointer crashes, and behind a short buffer lies whatever the heap holds.
    No bytes are obtained then. *)
Definition fetch (data : list byte) (n : N) : option (list byte) :=
  if n <=? len data then Some (firstn (N.to_nat n) data) else None.

(** size_t is taken to have 64 bits: sums of sizes wrap at [SIZE_LIMIT]. *)
Definition SIZE_LIMIT : N := 18446744073709551616.

(** ** Error codes and tags (keymaster_defs.h) *)

Inductive keymaster_error_t : Type :=
| KM_ERROR_OK
| KM_ERROR_UNSUPPORTED_ALGORITHM
| KM_ERROR_UNSUPPORTED_KEY_SIZE
| KM_ERROR_INVALID_KEY_BLOB
| KM_ERROR_MEMORY_ALLOCATION_FAILED.

Inductive keymaster_tag_t : Type :=
| TAG_ALGORITHM
| TAG_KEY_SIZE.

(** ** The policy-set collaborator *)

(** Modelled from the spec: AuthorizationSet (authorization_set.cpp is not
    part of the sources).  The spec gives its contract only: it reports its
    serialized size, serializes itself into a buffer, deserializes itself
    from a cursor, and looks a tag up.  [AS_bytes s] is the byte sequence
    its Serialize writes; [AS_Deserialize input] is handed the bytes between
    the cursor and [end] and answers the set that was read together with the
    number of bytes consumed. *)
Class AuthorizationSetOps (AuthorizationSet : Type) : Type := {
  AS_empty : AuthorizationSet;
  AS_SerializedSize : AuthorizationSet -> N;
  AS_bytes : AuthorizationSet -> list byte;
  AS_Deserialize : list byte -> option (AuthorizationSet * N);
  AS_GetTagValue : AuthorizationSet -> keymaster_tag_t -> option N
}.

(** ** Buffer writes *)

Record out_buffer : Type := mkOut {
  omem : memory;
  owrites : list N;  (* addresses written, oldest first *)
  ofault : bool      (* a copy has read past the end of its source *)
}.

Definition put (o : out_buffer) (p : N) (l : list byte) : out_buffer :=
  {| omem := write_bytes (omem o) p l;
     owrites := owrites o ++ addresses p (len l);
     ofault := ofault o |}.

(** A copy of [n] bytes to [p] out of a source that does not hold them.
    The behaviour of the code is undefined from here on (a crash, when the
    source is a null pointer): the fault is recorded, together with the
    addresses the copy was to write; what they hold afterwards is not known
    and the memory is left as it was. *)
Definition undefined_copy (o : out_buffer) (p n : N) : out_buffer :=
  {| omem := omem o;
     owrites := owrites o ++ addresses p n;
     ofault := true |}.

(** Modelled from the spec: the length-prefixed buffer-copy utility
    (google_keymaster_utils.h and serializable.cpp are not part of the
    sources).  A write that would pass [end] is refused and nothing is
    stored or read; the position still moves on by the length, which is what
    lets Serialize assert its size whatever the capacity.  A write that fits
    copies [data_len] bytes out of [data]. *)
Definition append_to_buf (o : out_buffer) (buf end_ : N) (data : list byte) (data_len : N)
  : out_buffer * N :=
  if buf + data_len <=? end_
  then match fetch data data_len with
       | Some bytes => (put o buf bytes, buf + data_len)
       | None => (undefined_copy o buf data_len, buf + data_len)
       end
  else (o, buf + data_len).

Definition append_uint32_to_buf (o : out_buffer) (buf end_ : N) (value : N)
  : out_buffer * N :=
  append_to_buf o buf end_ (encode_u32 value) 4.

Definition append_size_and_data_to_buf (o : out_buffer) (buf end_ : N)
           (data : list byte) (data_len : N) : out_buffer * N :=
  let '(o1, buf1) := append_uint32_to_buf o buf end_ data_len in
  append_to_buf o1 buf1 end_ data data_len.

(** ** The read cursor *)

(** What a call does to its surroundings: a byte of the input read by
    KeyBlob or by the buffer-copy utility (what the policy sets read is
    their own business and is not recorded), or DeserializeUnversionedBlob
    entered with the cursor at an address. *)
Inductive event : Type :=
| EvRead (a : N)
| EvLegacy (cursor : N).

Definition BLOB_VERSION : byte := x00.

(** Modelled from the spec: KeyBlob::NONCE_LENGTH and KeyBlob::TAG_LENGTH
    are declared in key_blob.h, which is not part of the sources.  The
    source comment in Deserialize says that the nonce is the first 12 bytes
    of an unversioned blob, and the spec's scenario uses a 16-byte tag. *)
Definition NONCE_LENGTH : N := 12.
Definition TAG_LENGTH : N := 16.

Section KeyBlobCodec.

Context {AuthorizationSet : Type} `{AuthorizationSetOps AuthorizationSet}.

(** The members of KeyBlob that key_blob.cpp reads and writes.  A
    [UniquePtr<uint8_t[]>] is [None] when null and otherwise holds the
    bytes of the buffer it owns. *)
Record KeyBlob : Type := mkKeyBlob {
  error_ : keymaster_error_t;
  nonce_ : option (list byte);
  encrypted_key_material_ : option (list byte);
  tag_ : option (list byte);
  key_material_length_ : N;
  enforced_ : AuthorizationSet;
  unenforced_ : AuthorizationSet;
  algorithm_ : N;
  key_size_bits_ : N
}.

Definition set_error (e : keymaster_error_t) (kb : KeyBlob) : KeyBlob :=
  mkKeyBlob e (nonce_ kb) (encrypted_key_material_ kb) (tag_ kb)
            (key_material_length_ kb) (enforced_ kb) (unenforced_ kb)
            (algorithm_ kb) (key_size_bits_ kb).

Definition set_nonce (p : option (list byte)) (kb : KeyBlob) : KeyBlob :=
  mkKeyBlob (error_ kb) p (encrypted_key_material_ kb) (tag_ kb)
            (key_material_length_ kb) (enforced_ kb) (unenforced_ kb)
            (algorithm_ kb) (key_size_bits_ kb).

Definition set_encrypted_key_material (p : option (list byte)) (kb : KeyBlob) : KeyBlob :=
  mkKeyBlob (error_ kb) (nonce_ kb) p (tag_ kb)
            (key_material_length_ kb) (enforced_ kb) (unenforced_ kb)
            (algorithm_ kb) (key_size_bits_ kb).

Definition set_tag (p : option (list byte)) (kb : KeyBlob) : KeyBlob :=
  mkKeyBlob (error_ kb) (nonce_ kb) (encrypted_key_material_ kb) p
            (key_material_length_ kb) (enforced_ kb) (unenforced_ kb)
            (algorithm_ kb) (key_size_bits_ kb).

Definition set_key_material_length (n : N) (kb : KeyBlob) : KeyBlob :=
  mkKeyBlob (error_ kb) (nonce_ kb) (encrypted_key_material_ kb) (tag_ kb)
            n (enforced_ kb) (unenforced_ kb)
            (algorithm_ kb) (key_size_bits_ kb).

Definition set_enforced (s : AuthorizationSet) (kb : KeyBlob) : KeyBlob :=
  mkKeyBlob (error_ kb) (nonce_ kb) (encrypted_key_material_ kb) (tag_ kb)
            (key_material_length_ kb) s (unenforced_ kb)
            (algorithm_ kb) (key_size_bits_ kb).

Definition set_unenforced (s : AuthorizationSet) (kb : KeyBlob) : KeyBlob :=
  mkKeyBlob (error_ kb) (nonce_ kb) (encrypted_key_material_ kb) (tag_ kb)
            (key_material_length_ kb) (enforced_ kb) s
            (algorithm_ kb) (key_size_bits_ kb).

Definition set_algorithm (v : N) (kb : KeyBlob) : KeyBlob :=
  mkKeyBlob (error_ kb) (nonce_ kb) (encrypted_key_material_ kb) (tag_ kb)
            (key_material_length_ kb) (enforced_ kb) (unenforced_ kb)
            v (key_size_bits_ kb).

Definition set_key_size_bits (v : N) (kb : KeyBlob) : KeyBlob :=
  mkKeyBlob (error_ kb) (nonce_ kb) (encrypted_key_material_ kb) (tag_ kb)
            (key_material_length_ kb) (enforced_ kb) (unenforced_ kb)
            (algorithm_ kb) v.

(** [get()] of a UniquePtr: the bytes behind the pointer, none behind a
    null pointer, so that a copy of any out of it is a fault (see [fetch]). *)
Definition get (p : option (list byte)) : list byte :=
  match p with
  | Some l => l
  | None => []
  end.

Definition nonce (kb : KeyBlob) : list byte := get (nonce_ kb).
Definition encrypted_key_material (kb : KeyBlob) : list byte := get (encrypted_key_material_ kb).
Definition tag (kb : KeyBlob) : list byte := get (tag_ kb).
Definition key_material_length (kb : KeyBlob) : N := key_material_length_ kb.

(** KeyBlob(enforced, unenforced).  The three buffers are null pointers;
    the scalar members, which the constructor does not initialise, are
    taken to be zero. *)
Definition KeyBlob_of_sets (enforced unenforced : AuthorizationSet) : KeyBlob :=
  mkKeyBlob KM_ERROR_OK None None None 0 enforced unenforced 0 0.

(** Modelled from the spec: ClearKeyData is defined in key_blob.h, which is
    not part of the sources; the spec says that previously owned buffers
    are released first. *)
Definition ClearKeyData (kb : KeyBlob) : KeyBlob :=
  set_tag None (set_nonce None (set_encrypted_key_material None kb)).

Definition SetEncryptedKey (encrypted_key_material : list byte)
           (encrypted_key_material_length : N)
           (nonce tag : list byte) (kb : KeyBlob) : KeyBlob :=
  let kb := ClearKeyData kb in
  let kb := set_encrypted_key_material (Some encrypted_key_material) kb in
  let kb := set_key_material_length encrypted_key_material_length kb in
  let kb := set_nonce (Some nonce) kb in
  set_tag (Some tag) kb.

(** *** Serialization *)

(** The sum is computed in size_t (lines 37-39). *)
Definition SerializedSize (kb : KeyBlob) : N :=
  (1 + 4 + NONCE_LENGTH + 4 + key_material_length kb + 4 + TAG_LENGTH
   + AS_SerializedSize (enforced_ kb) + AS_SerializedSize (unenforced_ kb))
  mod SIZE_LIMIT.

(** Modelled from the spec: AuthorizationSet::Serialize(buf, end) writes
    the set's bytes through the bounds-checked utility and answers the new
    position. *)
Definition AS_Serialize (s : AuthorizationSet) (o : out_buffer) (buf end_ : N)
  : out_buffer * N :=
  append_to_buf o buf end_ (AS_bytes s) (len (AS_bytes s)).

Definition Serialize (kb : KeyBlob) (o : out_buffer) (buf end_ : N) : out_buffer * N :=
  let o := put o buf [BLOB_VERSION] in
  let buf := buf + 1 in
  let '(o, buf) := append_size_and_data_to_buf o buf end_ (nonce kb) NONCE_LENGTH in
  let '(o, buf) := append_size_and_data_to_buf o buf end_ (encrypted_key_material kb)
                                               (key_material_length kb) in
  let '(o, buf) := append_size_and_data_to_buf o buf end_ (tag kb) TAG_LENGTH in
  let '(o, buf) := AS_Serialize (enforced_ kb) o buf end_ in
  let '(o, buf) := AS_Serialize (unenforced_ kb) o buf end_ in
  (o, buf).

(** The bytes of the canonical layout of [kb], in order, the buffers
    holding what the object declares. *)
Definition blob_header (kb : KeyBlob) : list byte :=
  BLOB_VERSION
    :: encode_u32 NONCE_LENGTH ++ nonce kb
    ++ encode_u32 (key_material_length kb)
    ++ encrypted_key_material kb
    ++ encode_u32 TAG_LENGTH ++ tag kb.

Definition blob_bytes (kb : KeyBlob) : list byte :=
  blob_header kb ++ AS_bytes (enforced_ kb) ++ AS_bytes (unenforced_ kb).

(** *** The state a parse runs in *)

Record world : Type := mkWorld {
  this : KeyBlob;
  buf_ptr : N;           (* the read cursor *)
  heap : list bool;      (* outcomes of the coming allocations; none listed: success *)
  trace : list event     (* oldest first *)
}.

Definition M (A : Type) : Type := world -> A * world.

Definition ret {A} (a : A) : M A := fun w => (a, w).

Definition bind {A B} (c : M A) (k : A -> M B) : M B :=
  fun w => let '(a, w') := c w in k a w'.

Notation "x <- c ;; k" := (bind c (fun x => k))
  (at level 61, c at next level, right associativity).
Notation "c ;;; k" := (bind c (fun _ => k))
  (at level 61, right associativity).

Definition get_ptr : M N := fun w => (buf_ptr w, w).

Definition set_ptr (p : N) : M unit :=
  fun w => (tt, mkWorld (this w) p (heap w) (trace w)).

Definition emit (evs : list event) : M unit :=
  fun w => (tt, mkWorld (this w) (buf_ptr w) (heap w) (trace w ++ evs)).

Definition modify (f : KeyBlob -> KeyBlob) : M unit :=
  fun w => (tt, mkWorld (f (this w)) (buf_ptr w) (heap w) (trace w)).

Definition lift {A} (f : KeyBlob -> A * KeyBlob) : M A :=
  fun w => let '(a, kb) := f (this w) in
           (a, mkWorld kb (buf_ptr w) (heap w) (trace w)).

(** [new uint8_t[n]]: the next outcome of the heap decides; a fresh buffer
    holds unspecified bytes, taken to be zero. *)
Definition new_array (n : N) : M (option (list byte)) :=
  fun w =>
    let w' := mkWorld (this w) (buf_ptr w) (tl (heap w)) (trace w) in
    if hd true (heap w) then (Some (repeat x00 (N.to_nat n)), w') else (None, w').

(** The unchecked read of one byte at the cursor, which then moves on by
    one (line 58). *)
Definition read_u8 (m : memory) : M byte :=
  p <- get_ptr ;;
  emit [EvRead p] ;;;
  set_ptr (p + 1) ;;;
  ret (m p).

(** Modelled from the spec: copy_from_buf reads exactly [size] raw bytes
    when they lie before [end], and otherwise fails without advancing. *)
Definition copy_from_buf (m : memory) (end_ : N) (size : N) : M (option (list byte)) :=
  p <- get_ptr ;;
  if p + size <=? end_ then
    emit (map EvRead (addresses p size)) ;;;
    set_ptr (p + size) ;;;
    ret (Some (read_bytes m p size))
  else ret None.

(** Modelled from the spec: copy_size_and_data_from_buf reads a 4-byte
    length, allocates a buffer of that many bytes, copies that many bytes
    into it and advances; on a bound or allocation failure it answers false
    without advancing, and its outputs are left as they were. *)
Definition copy_size_and_data_from_buf (m : memory) (end_ : N)
  : M (option (N * list byte)) :=
  p <- get_ptr ;;
  if p + 4 <=? end_ then
    emit (map EvRead (addresses p 4)) ;;;
    let size := decode_u32 (read_bytes m p 4) in
    if p + 4 + size <=? end_ then
      a <- new_array size ;;
      match a with
      | None => ret None
      | Some _ =>
          emit (map EvRead (addresses (p + 4) size)) ;;;
          set_ptr (p + 4 + size) ;;;
          ret (Some (size, read_bytes m (p + 4) size))
      end
    else ret None
  else ret None.

(** Modelled from the spec: AuthorizationSet::Deserialize(buf_ptr, end)
    parses the bytes between the cursor and [end]; on success the set is
    replaced and the cursor advances by what was consumed, on failure both
    are left as they were. *)
Definition AS_Deserialize_at (m : memory) (end_ : N)
           (store_set : AuthorizationSet -> KeyBlob -> KeyBlob) : M bool :=
  p <- get_ptr ;;
  match AS_Deserialize (read_bytes m p (end_ - p)) with
  | Some (s, n) =>
      modify (store_set s) ;;;
      set_ptr (p + n) ;;;
      ret true
  | None => ret false
  end.

(** *** Key characteristics *)

(** [set.GetTagValue(tag, &member)]: the member is written only when the
    tag is found. *)
Definition GetTagValue (s : AuthorizationSet) (t : keymaster_tag_t)
           (store_val : N -> KeyBlob -> KeyBlob) (kb : KeyBlob) : bool * KeyBlob :=
  match AS_GetTagValue s t with
  | Some v => (true, store_val v kb)
  | None => (false, kb)
  end.

Definition ExtractKeyCharacteristics (kb : KeyBlob) : bool * KeyBlob :=
  let '(found, kb) := GetTagValue (enforced_ kb) TAG_ALGORITHM set_algorithm kb in
  let '(found, kb) :=
    if found then (true, kb)
    else GetTagValue (unenforced_ kb) TAG_ALGORITHM set_algorithm kb in
  if negb found then (false, set_error KM_ERROR_UNSUPPORTED_ALGORITHM kb)
  else
    let '(found, kb) := GetTagValue (enforced_ kb) TAG_KEY_SIZE set_key_size_bits kb in
    let '(found, kb) :=
      if found then (true, kb)
      else GetTagValue (unenforced_ kb) TAG_KEY_SIZE set_key_size_bits kb in
    if negb found then (false, set_error KM_ERROR_UNSUPPORTED_KEY_SIZE kb)
    else (true, kb).

(** *** Deserialization *)

(** The condition of the [if] in Deserialize (lines 61-68): [true] when
    the version-0 parse fails.  The members are written as the reads go. *)
Definition versioned_parse_failed (m : memory) (end_ : N) : M bool :=
  version <- read_u8 m ;;
  if negb (Byte.eqb version BLOB_VERSION) then ret true else
  r <- copy_size_and_data_from_buf m end_ ;;
  match r with
  | None => ret true
  | Some (nonce_length, data) =>
    modify (set_nonce (Some data)) ;;;
    if negb (nonce_length =? NONCE_LENGTH) then ret true else
    r <- copy_size_and_data_from_buf m end_ ;;
    match r with
    | None => ret true
    | Some (size, data) =>
      modify (set_key_material_length size) ;;;
      modify (set_encrypted_key_material (Some data)) ;;;
      r <- copy_size_and_data_from_buf m end_ ;;
      match r with
      | None => ret true
      | Some (tag_length, data) =>
        modify (set_tag (Some data)) ;;;
        if negb (tag_length =? TAG_LENGTH) then ret true else
        ok <- AS_Deserialize_at m end_ set_enforced ;;
        if negb ok then ret true else
        ok <- AS_Deserialize_at m end_ set_unenforced ;;
        ret (negb ok)
      end
    end
  end.

(** The condition of the second [if] in DeserializeUnversionedBlob (lines
    111-115): [true] when the unversioned parse fails. *)
Definition unversioned_parse_failed (m : memory) (end_ : N) : M bool :=
  r <- copy_from_buf m end_ NONCE_LENGTH ;;
  match r with
  | None => ret true
  | Some data =>
    modify (set_nonce (Some data)) ;;;
    r <- copy_size_and_data_from_buf m end_ ;;
    match r with
    | None => ret true
    | Some (size, data) =>
      modify (set_key_material_length size) ;;;
      modify (set_encrypted_key_material (Some data)) ;;;
      r <- copy_from_buf m end_ TAG_LENGTH ;;
      match r with
      | None => ret true
      | Some data =>
        modify (set_tag (Some data)) ;;;
        ok <- AS_Deserialize_at m end_ set_enforced ;;
        if negb ok then ret true else
        ok <- AS_Deserialize_at m end_ set_unenforced ;;
        ret (negb ok)
      end
    end
  end.

(** Lines 104-106, on entry to DeserializeUnversionedBlob: both buffers are
    replaced by fresh ones; the answer is whether both allocations
    succeeded. *)
Definition enter_unversioned : M bool :=
  p <- get_ptr ;;
  emit [EvLegacy p] ;;;
  a <- new_array NONCE_LENGTH ;;
  modify (set_nonce a) ;;;
  b <- new_array TAG_LENGTH ;;
  modify (set_tag b) ;;;
  ret (match a, b with
       | Some _, Some _ => true
       | _, _ => false
       end).

Definition DeserializeUnversionedBlob (m : memory) (end_ : N) : M bool :=
  allocated <- enter_unversioned ;;
  if negb allocated then
    modify (set_error KM_ERROR_MEMORY_ALLOCATION_FAILED) ;;;
    ret false
  else
    failed <- unversioned_parse_failed m end_ ;;
    if failed then
      modify (set_encrypted_key_material None) ;;;
      modify (set_error KM_ERROR_INVALID_KEY_BLOB) ;;;
      ret false
    else lift ExtractKeyCharacteristics.

Definition Deserialize (m : memory) (end_ : N) : M bool :=
  start <- get_ptr ;;
  failed <- versioned_parse_failed m end_ ;;
  if failed then
    set_ptr start ;;;
    set_ptr start ;;;
    ok <- DeserializeUnversionedBlob m end_ ;;
    if negb ok then ret false
    else lift ExtractKeyCharacteristics
  else lift ExtractKeyCharacteristics.

(** The state in which Deserialize calls DeserializeUnversionedBlob: what
    the version-0 attempt left, with the cursor back at the start. *)
Definition fallback_state (m : memory) (end_ : N) (w : world) : world :=
  snd ((set_ptr (buf_ptr w) ;;; set_ptr (buf_ptr w))
         (snd (versioned_parse_failed m end_ w))).

(** A freshly constructed object before its constructor body runs. *)
Definition blank : KeyBlob :=
  mkKeyBlob KM_ERROR_OK None None None 0 AS_empty AS_empty 0 0.

(** KeyBlob(key_blob, key_blob_length): the constructor sets the error to
    OK and deserializes the range [[key_blob, key_blob + key_blob_length)]. *)
Definition KeyBlob_of_bytes (m : memory) (key_blob key_blob_length : N) (h : list bool)
  : bool * world :=
  Deserialize m (key_blob + key_blob_length) (mkWorld blank key_blob h []).

Definition reads (w : world) : list N :=
  flat_map (fun e => match e with EvRead a => [a] | EvLegacy _ => [] end) (trace w).

Definition legacy_entries (w : world) : list N :=
  flat_map (fun e => match e with EvLegacy p => [p] | EvRead _ => [] end) (trace w).

End KeyBlobCodec.

Arguments KeyBlob AuthorizationSet : clear implicits.
Arguments world AuthorizationSet : clear implicits.
Arguments M AuthorizationSet A : clear implicits.

(** ** A simple policy set *)

(** An instance of the collaborator's contract, used to run the codec on
    concrete blobs: a set is a list of entries (tag number, 32-bit value),
    written as a 4-byte count followed by two 4-byte fields per entry. *)
Module SimpleSet.

Definition t : Type := list (N * N).

Definition tag_number (tg : keymaster_tag_t) : N :=
  match tg with
  | TAG_ALGORITHM => 268435458   (* KM_ENUM | 2 *)
  | TAG_KEY_SIZE => 805306371    (* KM_INT | 3 *)
  end.

Definition entry_bytes (e : N * N) : list byte :=
  encode_u32 (fst e) ++ encode_u32 (snd e).

Definition bytes (s : t) : list byte :=
  encode_u32 (N.of_nat (length s)) ++ flat_map entry_bytes s.

Fixpoint parse_entries (count : nat) (l : list byte) : t :=
  match count with
  | O => []
  | S c => (decode_u32 l, decode_u32 (skipn 4 l)) :: parse_entries c (skipn 8 l)
  end.

Definition parse (l : list byte) : option (t * N) :=
  if 4 <=? len l then
    let count := decode_u32 l in
    if 4 + 8 * count <=? len l
    then Some (parse_entries (N.to_nat count) (skipn 4 l), 4 + 8 * count)
    else None
  else None.

Definition lookup (s : t) (tg : keymaster_tag_t) : option N :=
  option_map snd (find (fun e => fst e =? tag_number tg) s).

#[global] Instance ops : AuthorizationSetOps t := {
  AS_empty := [];
  AS_SerializedSize := fun s => 4 + 8 * N.of_nat (length s);
  AS_bytes := bytes;
  AS_Deserialize := parse;
  AS_GetTagValue := lookup
}.

(** Every field of the set fits its 4 bytes. *)
Definition fits (s : t) : Prop :=
  N.of_nat (length s) < UINT32_LIMIT
  /\ Forall (fun e => fst e < UINT32_LIMIT /\ snd e < UINT32_LIMIT) s.

End SimpleSet.

(** ** Sample blobs *)

(** Concrete objects and buffers on which the codec is run. *)
Module Samples.

Definition zero_memory : memory := fun _ => x00.

Definition fresh : out_buffer := mkOut zero_memory [] false.

(** ALGORITHM = 32 (AES), KEY_SIZE = 128. *)
Definition aes128 : SimpleSet.t := [(268435458, 32); (805306371, 128)].

(** The spec's scenario: a zero nonce and tag, and 16 bytes 0xAA of
    ciphertext. *)
Definition scenario : KeyBlob SimpleSet.t :=
  SetEncryptedKey (repeat xaa 16) 16 (repeat x00 12) (repeat x00 16)
                  (KeyBlob_of_sets aes128 []).

(** The scenario serialized at address 100; it ends at address 181. *)
Definition scenario_memory : memory := omem (fst (Serialize scenario fresh 100 181)).

(** The same key material under two empty policy sets. *)
Definition bare : KeyBlob SimpleSet.t :=
  SetEncryptedKey (repeat xaa 16) 16 (repeat x00 12) (repeat x00 16)
                  (KeyBlob_of_sets [] []).

(** A blob whose ciphertext holds, after 11 bytes of padding, the
    serialization of two policy sets; its nonce is zero. *)
Definition nested_ciphertext : list byte :=
  repeat x00 11 ++ SimpleSet.bytes aes128 ++ SimpleSet.bytes [].

Definition nested : KeyBlob SimpleSet.t :=
  SetEncryptedKey nested_ciphertext 35 (repeat x00 12) (repeat x00 16)
                  (KeyBlob_of_sets aes128 []).

Definition nested_memory : memory := omem (fst (Serialize nested fresh 100 200)).

(** The scenario with a nonce whose bytes 7 to 10, read as a length, give
    256; serialized at address 100, it ends at address 181. *)
Definition offset_nonce : list byte :=
  repeat x00 8 ++ [x01; x00; x00; x00].

Definition offset : KeyBlob SimpleSet.t :=
  SetEncryptedKey (repeat xaa 16) 16 offset_nonce (repeat x00 16)
                  (KeyBlob_of_sets aes128 []).

Definition offset_memory : memory := omem (fst (Serialize offset fresh 100 181)).

(** A blob in the unversioned layout, at address 100; it ends at 172. *)
Definition legacy_bytes : list byte :=
  repeat x01 12 ++ encode_u32 16 ++ repeat xaa 16 ++ repeat x02 16
    ++ SimpleSet.bytes aes128 ++ SimpleSet.bytes [].

Definition legacy_memory : memory := write_bytes zero_memory 100 legacy_bytes.

(** A freshly constructed object about to deserialize from address [p]. *)
Definition start (p : N) : world SimpleSet.t := mkWorld blank p [] [].

End Samples.

(** ** The vocabulary of the properties *)

(** Every allocation still to come succeeds. *)
Definition heap_ok (h : list bool) : Prop := forallb (fun b => b) h = true.

(** An event that is a read strictly below [end_]. *)
Definition read_below (end_ : N) (e : event) : Prop :=
  match e with
  | EvRead a => a < end_
  | EvLegacy _ => False
  end.

(** The bytes between [p] and [end_] are the first [end_ - p] bytes of
    [R]: all of [R] when the lengths agree, a truncation of it otherwise. *)
Definition input_at (m : memory) (p end_ : N) (R : list byte) : Prop :=
  p <= end_ /\ read_bytes m p (end_ - p) = firstn (N.to_nat (end_ - p)) R.

(** The bytes of a version-0 blob before its policy sets. *)
Definition header_bytes (nonce ct tg : list byte) : list byte :=
  BLOB_VERSION :: encode_u32 NONCE_LENGTH ++ nonce
    ++ encode_u32 (len ct) ++ ct ++ encode_u32 TAG_LENGTH ++ tg.

(** The cursors with which DeserializeUnversionedBlob was entered, and the
    addresses read, among some events. *)
Definition legacy_of (evs : list event) : list N :=
  flat_map (fun e => match e with EvLegacy p => [p] | EvRead _ => [] end) evs.

Definition reads_of (evs : list event) : list N :=
  flat_map (fun e => match e with EvRead a => [a] | EvLegacy _ => [] end) evs.

Section Vocabulary.

Context {AuthorizationSet : Type} `{AuthorizationSetOps AuthorizationSet}.

Local Abbreviation world := (world AuthorizationSet).
Local Abbreviation M := (M AuthorizationSet).
Local Abbreviation KeyBlob := (KeyBlob AuthorizationSet).

(** The collaborator's SerializedSize is the number of bytes it writes. *)
Definition exact_size (s : AuthorizationSet) : Prop :=
  AS_SerializedSize s = len (AS_bytes s).

(** Deserializing what the set serialized gives the set back, whatever
    follows it in the input. *)
Definition roundtrips (s : AuthorizationSet) : Prop :=
  forall rest, AS_Deserialize (AS_bytes s ++ rest) = Some (s, len (AS_bytes s)).

(** No proper prefix of the set's serialization deserializes. *)
Definition rejects_truncation (s : AuthorizationSet) : Prop :=
  forall j, (j < length (AS_bytes s))%nat ->
    AS_Deserialize (firstn j (AS_bytes s)) = @None (AuthorizationSet * N).

(** The sum of lines 37-39 before it wraps. *)
Definition unbounded_size (kb : KeyBlob) : N :=
  1 + 4 + NONCE_LENGTH + 4 + key_material_length kb + 4 + TAG_LENGTH
  + AS_SerializedSize (enforced_ kb) + AS_SerializedSize (unenforced_ kb).

(** The tail of the version-0 parse: the two policy sets. *)
Definition sets_parse_failed (m : memory) (end_ : N) : M bool :=
  bind (AS_Deserialize_at m end_ set_enforced) (fun ok =>
    if negb ok then ret true
    else bind (AS_Deserialize_at m end_ set_unenforced) (fun ok => ret (negb ok))).

(** The object once a parse has stored a nonce, a ciphertext with its
    length, and a tag. *)
Definition parsed_fields (nonce ct tg : list byte) (kb : KeyBlob) : KeyBlob :=
  set_tag (Some tg)
    (set_encrypted_key_material (Some ct)
       (set_key_material_length (len ct)
          (set_nonce (Some nonce) kb))).

(** The first of the two lookups that finds the tag. *)
Definition lookup_both (kb : KeyBlob) (t : keymaster_tag_t) : option N :=
  match AS_GetTagValue (enforced_ kb) t with
  | Some v => Some v
  | None => AS_GetTagValue (unenforced_ kb) t
  end.

(** The same state with another value in the object's error member. *)
Definition with_error (e : keymaster_error_t) (w : world) : world :=
  mkWorld (set_error e (this w)) (buf_ptr w) (heap w) (trace w).

(** An update of the object that does not touch its error member. *)
Definition commutes_with_error (f : KeyBlob -> KeyBlob) : Prop :=
  forall e kb, f (set_error e kb) = set_error e (f kb).

(** [uniform c]: what [c] answers, where it leaves the cursor, the heap and
    the trace do not depend on the object, and the object is changed by an
    update that leaves the error member alone. *)
Definition uniform {A} (c : M A) : Prop :=
  forall p h tr, exists a f p' h' tr',
    commutes_with_error f
    /\ forall kb, c (mkWorld kb p h tr) = (a, mkWorld (f kb) p' h' tr').

(** [emits P c]: a run of [c] only adds events, and each of them
    satisfies [P]. *)
Definition emits {A} (P : event -> Prop) (c : M A) : Prop :=
  forall w a w', c w = (a, w') ->
    exists evs, trace w' = trace w ++ evs /\ Forall P evs.

(** [consumes c]: a run of [c] only takes outcomes off the front of the
    heap. *)
Definition consumes {A} (c : M A) : Prop :=
  forall w a w', c w = (a, w') -> exists k, heap w' = skipn k (heap w).

(** A computation that answers a verdict treats the error member as the
    source does: the verdict does not depend on it, a failure stores a
    reason over it, a success leaves it as it was. *)
Definition error_blind (c : M bool) : Prop :=
  forall w e,
    c (with_error e w)
    = (fst (c w), if fst (c w) then with_error e (snd (c w)) else snd (c w)).

(** A failure never leaves OK in the error member. *)
Definition gives_reason (c : M bool) : Prop :=
  forall w w', c w = (false, w') -> error_ (this w') <> KM_ERROR_OK.

(** What a call leaves in the error member: on failure a reason, the same
    whatever error was there before; on success what was there before. *)
Definition leaves_reason (c : M bool) (w : world) : Prop :=
  (fst (c w) = false ->
     error_ (this (snd (c w))) <> KM_ERROR_OK
     /\ forall e, fst (c (with_error e w)) = false
                  /\ error_ (this (snd (c (with_error e w)))) = error_ (this (snd (c w))))
  /\ (fst (c w) = true -> error_ (this (snd (c w))) = error_ (this w)).

End Vocabulary.

(** ** The constructor from a key blob record, and more vocabulary *)

(** keymaster_key_blob_t (keymaster_defs.h): where the key material lies
    and how many bytes it has. *)
Record keymaster_key_blob_t : Type := mk_key_blob {
  key_material : N;
  key_material_size : N
}.

(** An event that is not a read below [lo]. *)
Definition read_from (lo : N) (e : event) : Prop :=
  match e with
  | EvRead a => lo <= a
  | EvLegacy _ => True
  end.

Section MoreVocabulary.

Context {AuthorizationSet : Type} `{AuthorizationSetOps AuthorizationSet}.

Local Abbreviation world := (world AuthorizationSet).
Local Abbreviation M := (M AuthorizationSet).
Local Abbreviation KeyBlob := (KeyBlob AuthorizationSet).

(** KeyBlob(const keymaster_key_blob_t&), lines 31-34: the error is set to
    OK and the range of the record's key material is deserialized. *)
Definition KeyBlob_of_key_blob (m : memory) (key_blob : keymaster_key_blob_t)
           (h : list bool) : bool * world :=
  Deserialize m (key_material key_blob + key_material_size key_blob)
              (mkWorld blank (key_material key_blob) h []).

(** The three buffers have the lengths the object declares: NONCE_LENGTH,
    key_material_length (which fits a length field) and TAG_LENGTH. *)
Definition buffers_sized (kb : KeyBlob) : Prop :=
  (exists n, nonce_ kb = Some n /\ len n = NONCE_LENGTH)
  /\ (exists c, encrypted_key_material_ kb = Some c /\ len c = key_material_length_ kb)
  /\ (exists t, tag_ kb = Some t /\ len t = TAG_LENGTH)
  /\ key_material_length_ kb < UINT32_LIMIT.

(** The state in which DeserializeUnversionedBlob starts to parse when
    both of its allocations (lines 104-105) have succeeded: a fresh nonce
    buffer and a fresh tag buffer, two outcomes taken off the heap, the entry
    recorded, the cursor where it was. *)
Definition allocated (w : world) : world :=
  mkWorld (set_tag (Some (repeat x00 (N.to_nat TAG_LENGTH)))
             (set_nonce (Some (repeat x00 (N.to_nat NONCE_LENGTH))) (this w)))
          (buf_ptr w) (tl (tl (heap w))) (trace w ++ [EvLegacy (buf_ptr w)]).

(** The input from [p] to [end_] holds a version-0 blob: the version
    byte, a length field holding NONCE_LENGTH, the nonce, a length field,
    the ciphertext it announces, a length field holding TAG_LENGTH and the
    tag all lie before [end_], and behind them two policy sets deserialize,
    one after the other. *)
Definition version0_parses (m : memory) (end_ p : N) : Prop :=
  let k := decode_u32 (read_bytes m (p + 1 + 4 + NONCE_LENGTH) 4) in
  let q := p + 1 + 4 + NONCE_LENGTH + 4 + k + 4 + TAG_LENGTH in
  m p = BLOB_VERSION
  /\ decode_u32 (read_bytes m (p + 1) 4) = NONCE_LENGTH
  /\ decode_u32 (read_bytes m (p + 1 + 4 + NONCE_LENGTH + 4 + k) 4) = TAG_LENGTH
  /\ q <= end_
  /\ exists e n1 u n2,
       AS_Deserialize (read_bytes m q (end_ - q)) = Some (e, n1)
       /\ AS_Deserialize (read_bytes m (q + n1) (end_ - (q + n1))) = Some (u, n2).

(** The input from [p] to [end_] holds an unversioned blob: there is room
    for a nonce, a length field, the ciphertext it announces and a tag, and
    behind them two policy sets deserialize, one after the other. *)
Definition unversioned_parses (m : memory) (end_ p : N) : Prop :=
  let k := decode_u32 (read_bytes m (p + NONCE_LENGTH) 4) in
  let q := p + NONCE_LENGTH + 4 + k + TAG_LENGTH in
  q <= end_
  /\ exists e n1 u n2,
       AS_Deserialize (read_bytes m q (end_ - q)) = Some (e, n1)
       /\ AS_Deserialize (read_bytes m (q + n1) (end_ - (q + n1))) = Some (u, n2).

(** The state in which Deserialize calls DeserializeUnversionedBlob after
    the version-0 attempt has left [w1]: the cursor is back at [start]
    (lines 69 and 96), everything else is as the attempt left it. *)
Definition rewound (start : N) (w1 : world) : world :=
  mkWorld (this w1) start (heap w1) (trace w1).

(** The collaborator never reports more bytes consumed than it was given. *)
Definition honours_bounds : Prop :=
  forall (l : list byte) (s : AuthorizationSet) (n : N),
    AS_Deserialize l = Some (s, n) -> n <= len l.

(** The number of bytes the collaborator reports consumed is the
    serialized size of the set it read. *)
Definition consumed_is_size : Prop :=
  forall (l : list byte) (s : AuthorizationSet) (n : N),
    AS_Deserialize l = Some (s, n) -> n = AS_SerializedSize s.

(** [reads_from lo c]: started with the cursor at or above [lo], [c] reads
    nothing below [lo] and leaves the cursor at or above [lo]. *)
Definition reads_from {A} (lo : N) (c : M A) : Prop :=
  forall w a w', lo <= buf_ptr w -> c w = (a, w') ->
    lo <= buf_ptr w'
    /\ exists evs, trace w' = trace w ++ evs /\ Forall (read_from lo) evs.

(** [stays_below hi c]: started with the cursor at or below [hi], [c]
    leaves it at or below [hi]. *)
Definition stays_below {A} (hi : N) (c : M A) : Prop :=
  forall w a w', buf_ptr w <= hi -> c w = (a, w') -> buf_ptr w' <= hi.

End MoreVocabulary.

(** * Properties *)

(** ** Length fields *)

Lemma byte_of_N_to_N (n : N) : Byte.to_N (byte_of_N n) = n mod 256.
Proof.
  unfold byte_of_N.
  destruct (Byte.of_N (n mod 256)) as [b|] eqn:E.
  - now apply Byte.to_of_N.
  - apply Byte.of_N_None_iff in E.
    pose proof (N.mod_upper_bound n 256). lia.
Qed.

Lemma length_encode_u32 (n : N) : length (encode_u32 n) = 4%nat.
Proof. reflexivity. Qed.

Lemma len_encode_u32 (n : N) : len (encode_u32 n) = 4.
Proof. reflexivity. Qed.

Lemma decode_le_encode_u32 (n : N) :
  n < UINT32_LIMIT -> decode_le (encode_u32 n) = n.
Proof.
  unfold UINT32_LIMIT, encode_u32, decode_le. intros Hn.
  rewrite !byte_of_N_to_N.
  pose proof (N.Div0.div_mod n 256) as E0.
  pose proof (N.Div0.div_mod (n / 256) 256) as E1.
  pose proof (N.Div0.div_mod (n / 256 / 256) 256) as E2.
  pose proof (N.mod_upper_bound n 256 ltac:(lia)).
  pose proof (N.mod_upper_bound (n / 256) 256 ltac:(lia)).
  pose proof (N.mod_upper_bound (n / 256 / 256) 256 ltac:(lia)).
  replace (n / 65536) with (n / 256 / 256) by (rewrite N.Div0.div_div; reflexivity).
  replace (n / 16777216) with (n / 256 / 256 / 256)
    by (rewrite !N.Div0.div_div; reflexivity).
  assert (n / 256 / 256 / 256 < 256).
  { apply N.Div0.div_lt_upper_bound. apply N.Div0.div_lt_upper_bound.
    apply N.Div0.div_lt_upper_bound. lia. }
  rewrite (N.mod_small (n / 256 / 256 / 256) 256) by assumption.
  pose proof (N.Div0.div_mod (n / 256 / 256) 256).
  lia.
Qed.

Lemma decode_u32_encode (n : N) (rest : list byte) :
  n < UINT32_LIMIT -> decode_u32 (encode_u32 n ++ rest) = n.
Proof.
  intros Hn. unfold decode_u32.
  change (firstn 4 (encode_u32 n ++ rest)) with (encode_u32 n).
  now apply decode_le_encode_u32.
Qed.

(** ** Memory *)

Lemma length_addresses (p n : N) : length (addresses p n) = N.to_nat n.
Proof. unfold addresses. now rewrite length_map, length_seq. Qed.

Lemma length_read_bytes (m : memory) (p n : N) :
  length (read_bytes m p n) = N.to_nat n.
Proof. unfold read_bytes. now rewrite length_map, length_addresses. Qed.

Lemma len_read_bytes (m : memory) (p n : N) : len (read_bytes m p n) = n.
Proof. unfold len. rewrite length_read_bytes. lia. Qed.

Lemma seq_offset (k n : nat) : seq k n = map (fun i => (k + i)%nat) (seq 0 n).
Proof.
  revert k. induction n as [|n IH]; intros k; simpl.
  - reflexivity.
  - f_equal; [lia|].
    rewrite (IH (S k)), (IH 1%nat), map_map.
    apply map_ext. intros i. lia.
Qed.

Lemma addresses_add (p a b : N) :
  addresses p (a + b) = addresses p a ++ addresses (p + a) b.
Proof.
  unfold addresses.
  rewrite N2Nat.inj_add, seq_app, map_app. f_equal.
  simpl. rewrite (seq_offset (N.to_nat a)), map_map.
  apply map_ext. intros i. lia.
Qed.

Lemma read_bytes_add (m : memory) (p a b : N) :
  read_bytes m p (a + b) = read_bytes m p a ++ read_bytes m (p + a) b.
Proof. unfold read_bytes. now rewrite addresses_add, map_app. Qed.

Lemma addresses_succ (p n : N) :
  addresses p (N.succ n) = p :: addresses (p + 1) n.
Proof.
  rewrite <- N.add_1_l, addresses_add. change (addresses p 1) with [p + 0].
  now rewrite N.add_0_r.
Qed.

Lemma In_addresses (p n a : N) : In a (addresses p n) <-> p <= a < p + n.
Proof.
  unfold addresses. rewrite in_map_iff. split.
  - intros (i & <- & Hi). apply in_seq in Hi. lia.
  - intros Ha. exists (N.to_nat (a - p)). split; [lia|].
    apply in_seq. lia.
Qed.

Lemma write_bytes_outside (l : list byte) (m : memory) (p a : N) :
  a < p \/ p + len l <= a -> write_bytes m p l a = m a.
Proof.
  revert m p. induction l as [|b l IH]; intros m p Ha; simpl.
  - reflexivity.
  - unfold len in *. simpl length in Ha.
    rewrite IH by lia. unfold store.
    destruct (N.eqb_spec a p); [lia | reflexivity].
Qed.

Lemma read_write_same (l : list byte) (m : memory) (p : N) :
  read_bytes (write_bytes m p l) p (len l) = l.
Proof.
  revert m p. induction l as [|b l IH]; intros m p.
  - reflexivity.
  - unfold len. simpl length. rewrite Nat2N.inj_succ.
    unfold read_bytes. rewrite addresses_succ. simpl. f_equal.
    + rewrite write_bytes_outside by lia. unfold store. now rewrite N.eqb_refl.
    + apply IH.
Qed.

Lemma read_bytes_ext (m m' : memory) (p n : N) :
  (forall a, p <= a < p + n -> m' a = m a) ->
  read_bytes m' p n = read_bytes m p n.
Proof.
  intros E. unfold read_bytes. apply map_ext_in.
  intros a Ha. apply E. now apply In_addresses.
Qed.

Lemma read_write_before (l : list byte) (m : memory) (p q n : N) :
  q + n <= p -> read_bytes (write_bytes m p l) q n = read_bytes m q n.
Proof.
  intros Hq. apply read_bytes_ext. intros a Ha.
  apply write_bytes_outside. lia.
Qed.

Lemma fetch_exact (data : list byte) : fetch data (len data) = Some data.
Proof.
  unfold fetch. rewrite N.leb_refl. unfold len. now rewrite Nat2N.id, firstn_all.
Qed.

Lemma fetch_Some (data l : list byte) (n : N) :
  fetch data n = Some l -> len l = n /\ n <= len data.
Proof.
  unfold fetch. destruct (N.leb_spec n (len data)) as [Hn|Hn]; [|discriminate].
  intros [= <-]. split; [|exact Hn].
  unfold len in *. rewrite length_firstn. lia.
Qed.

Lemma fetch_None (data : list byte) (n : N) :
  fetch data n = None <-> len data < n.
Proof.
  unfold fetch. destruct (N.leb_spec n (len data)); split; intros E;
    first [discriminate E | reflexivity | lia].
Qed.

Lemma len_app (l1 l2 : list byte) : len (l1 ++ l2) = len l1 + len l2.
Proof. unfold len. rewrite length_app. lia. Qed.

Lemma len_nil : len [] = 0.
Proof. reflexivity. Qed.

Lemma len_cons (b : byte) (l : list byte) : len (b :: l) = 1 + len l.
Proof. unfold len. simpl length. lia. Qed.

Lemma write_bytes_app (l1 l2 : list byte) (m : memory) (p : N) :
  write_bytes (write_bytes m p l1) (p + len l1) l2 = write_bytes m p (l1 ++ l2).
Proof.
  revert m p. induction l1 as [|b l1 IH]; intros m p; simpl.
  - now rewrite N.add_0_r.
  - rewrite <- IH. f_equal. rewrite len_cons. lia.
Qed.

Lemma put_put (o : out_buffer) (p q : N) (l1 l2 : list byte) :
  q = p + len l1 -> put (put o p l1) q l2 = put o p (l1 ++ l2).
Proof.
  intros ->. unfold put. cbn [omem owrites ofault]. f_equal.
  - apply write_bytes_app.
  - now rewrite len_app, addresses_add, app_assoc.
Qed.

(** ** Serialization *)

Section SerializeFacts.

Context {AuthorizationSet : Type} `{AuthorizationSetOps AuthorizationSet}.

Lemma buffers_sized_len (kb : KeyBlob AuthorizationSet) :
  buffers_sized kb ->
  len (nonce kb) = NONCE_LENGTH
  /\ len (encrypted_key_material kb) = key_material_length kb
  /\ len (tag kb) = TAG_LENGTH.
Proof.
  intros ((n & En & Hn) & (c & Ec & Hc) & (t & Et & Ht) & _).
  unfold nonce, encrypted_key_material, tag, key_material_length.
  now rewrite En, Ec, Et.
Qed.

Lemma len_blob_header (kb : KeyBlob AuthorizationSet) :
  buffers_sized kb ->
  len (blob_header kb) = 1 + 4 + NONCE_LENGTH + 4 + key_material_length kb + 4 + TAG_LENGTH.
Proof.
  intros (Hn & Hc & Ht)%buffers_sized_len. unfold blob_header.
  rewrite len_cons, !len_app, !len_encode_u32, Hn, Hc, Ht. lia.
Qed.

Lemma len_blob_bytes (kb : KeyBlob AuthorizationSet) :
  exact_size (enforced_ kb) -> exact_size (unenforced_ kb) -> buffers_sized kb ->
  len (blob_bytes kb) = unbounded_size kb.
Proof.
  unfold exact_size, blob_bytes, unbounded_size. intros He Hu Hs.
  rewrite !len_app, len_blob_header, He, Hu by assumption. lia.
Qed.



Lemma append_to_buf_pos (o : out_buffer) (buf end_ : N) (data : list byte) (n : N) :
  snd (append_to_buf o buf end_ data n) = buf + n.
Proof. unfold append_to_buf. destruct (_ <=? _); [|reflexivity]. now destruct (fetch _ _). Qed.

Lemma append_size_and_data_to_buf_pos (o : out_buffer) (buf end_ : N)
      (data : list byte) (n : N) :
  snd (append_size_and_data_to_buf o buf end_ data n) = buf + 4 + n.
Proof.
  unfold append_size_and_data_to_buf, append_uint32_to_buf.
  destruct (append_to_buf o buf end_ (encode_u32 n) 4) as [o1 buf1] eqn:E.
  rewrite append_to_buf_pos.
  apply (f_equal snd) in E. rewrite append_to_buf_pos in E. cbn [snd] in E. now subst.
Qed.

Lemma Serialize_pos (kb : KeyBlob AuthorizationSet) (o : out_buffer) (buf end_ : N) :
  exact_size (enforced_ kb) -> exact_size (unenforced_ kb) ->
  snd (Serialize kb o buf end_) = buf + unbounded_size kb.
Proof.
  unfold exact_size, Serialize, AS_Serialize, unbounded_size. intros He Hu.
  repeat match goal with
  | |- context [append_size_and_data_to_buf ?o ?b ?e ?d ?n] =>
      let E := fresh "E" in
      pose proof (append_size_and_data_to_buf_pos o b e d n) as E;
      destruct (append_size_and_data_to_buf o b e d n); cbn [snd] in E; subst
  | |- context [append_to_buf ?o ?b ?e ?d ?n] =>
      let E := fresh "E" in
      pose proof (append_to_buf_pos o b e d n) as E;
      destruct (append_to_buf o b e d n); cbn [snd] in E; subst
  end.
  cbn [snd]. rewrite He, Hu. lia.
Qed.

Lemma append_to_buf_fits (o : out_buffer) (p buf end_ : N) (pre data : list byte) (n : N) :
  buf = p + len pre -> n = len data -> buf + n <= end_ ->
  append_to_buf (put o p pre) buf end_ data n = (put o p (pre ++ data), buf + n).
Proof.
  intros Hb -> Hfit. unfold append_to_buf.
  destruct (N.leb_spec (buf + len data) end_); [|lia].
  now rewrite fetch_exact, put_put.
Qed.

Lemma Serialize_fits (kb : KeyBlob AuthorizationSet) (o : out_buffer) (buf end_ : N) :
  exact_size (enforced_ kb) -> exact_size (unenforced_ kb) -> buffers_sized kb ->
  buf + unbounded_size kb <= end_ ->
  Serialize kb o buf end_ = (put o buf (blob_bytes kb), buf + unbounded_size kb).
Proof.
  intros He Hu Hs Hfit.
  pose proof (Serialize_pos kb o buf end_ He Hu) as Hpos.
  destruct (Serialize kb o buf end_) as [o' p'] eqn:ES. cbn [snd] in Hpos. subst p'.
  f_equal.
  revert ES. unfold Serialize, AS_Serialize, append_size_and_data_to_buf, append_uint32_to_buf.
  destruct (buffers_sized_len kb Hs) as (Ln & Lc & Lt).
  unfold exact_size, unbounded_size in *.
  assert (Hn : NONCE_LENGTH = 12) by reflexivity.
  assert (Ht : TAG_LENGTH = 16) by reflexivity.
  rewrite (append_to_buf_fits o buf (buf + 1) end_ [BLOB_VERSION] _ 4)
    by (rewrite ?len_encode_u32; try reflexivity; lia).
  do 7 (rewrite append_to_buf_fits
         by (rewrite ?len_app, ?len_cons, ?len_nil, ?len_encode_u32; lia)).
  intros E. injection E as <- _.
  f_equal. unfold blob_bytes, blob_header.
  cbn [app]. rewrite <- !app_assoc. reflexivity.
Qed.

End SerializeFacts.

(** ** The read cursor *)

Lemma heap_ok_hd (h : list bool) : heap_ok h -> hd true h = true.
Proof.
  destruct h as [|b h]; [reflexivity|]. unfold heap_ok. simpl.
  now intros [-> _]%andb_prop.
Qed.

Lemma heap_ok_tl (h : list bool) : heap_ok h -> heap_ok (tl h).
Proof.
  destruct h as [|b h]; [easy|]. unfold heap_ok. simpl.
  now intros [_ E]%andb_prop.
Qed.

Section ReadFacts.

Context {AuthorizationSet : Type} `{AuthorizationSetOps AuthorizationSet}.

Local Abbreviation world := (world AuthorizationSet).
Local Abbreviation M := (M AuthorizationSet).
Local Abbreviation KeyBlob := (KeyBlob AuthorizationSet).
Local Abbreviation emits P c := (@emits AuthorizationSet _ P c).

Lemma bind_eq {A B} (c : M A) (k : A -> M B) (w w' : world) (a : A) :
  c w = (a, w') -> bind c k w = k a w'.
Proof. unfold bind. now intros ->. Qed.

Lemma emits_ret {A} (P : event -> Prop) (a : A) : emits P (ret a).
Proof.
  intros w a' w' [= <- <-]. exists []. now rewrite app_nil_r.
Qed.

Lemma emits_bind {A B} (P : event -> Prop) (c : M A) (k : A -> M B) :
  emits P c -> (forall a, emits P (k a)) -> emits P (bind c k).
Proof.
  intros Hc Hk w b w'. unfold bind.
  destruct (c w) as [a w1] eqn:E1. intros E2.
  destruct (Hc _ _ _ E1) as (evs1 & T1 & F1).
  destruct (Hk a _ _ _ E2) as (evs2 & T2 & F2).
  exists (evs1 ++ evs2). split.
  - now rewrite T2, T1, app_assoc.
  - now apply Forall_app.
Qed.

Lemma emits_get_ptr (P : event -> Prop) : emits P get_ptr.
Proof. intros w a w' [= <- <-]. exists []. now rewrite app_nil_r. Qed.

Lemma emits_set_ptr (P : event -> Prop) (p : N) : emits P (set_ptr p).
Proof. intros w a w' [= <- <-]. exists []. cbn [trace]. now rewrite app_nil_r. Qed.

Lemma emits_modify (P : event -> Prop) (f : KeyBlob -> KeyBlob) : emits P (modify f).
Proof. intros w a w' [= <- <-]. exists []. cbn [trace]. now rewrite app_nil_r. Qed.

Lemma emits_lift {A} (P : event -> Prop) (f : KeyBlob -> A * KeyBlob) : emits P (lift f).
Proof.
  intros w a w'. unfold lift. destruct (f (this w)). intros [= <- <-].
  exists []. simpl. now rewrite app_nil_r.
Qed.

Lemma emits_emit (P : event -> Prop) (evs : list event) :
  Forall P evs -> emits P (emit evs).
Proof. intros F w a w' [= <- <-]. now exists evs. Qed.

Lemma emits_new_array (P : event -> Prop) (n : N) : emits P (new_array n).
Proof.
  intros w a w'. unfold new_array.
  destruct (hd true (heap w)); intros [= <- <-]; exists []; simpl; now rewrite app_nil_r.
Qed.

Lemma emits_if {A} (P : event -> Prop) (b : bool) (c1 c2 : M A) :
  emits P c1 -> emits P c2 -> emits P (if b then c1 else c2).
Proof. now destruct b. Qed.

Lemma Forall_read_below (end_ p n : N) :
  p + n <= end_ -> Forall (read_below end_) (map EvRead (addresses p n)).
Proof.
  intros Hb. apply Forall_forall. intros e (a & <- & Ha)%in_map_iff.
  apply In_addresses in Ha. simpl. lia.
Qed.

Lemma emits_copy_from_buf (m : memory) (end_ size : N) :
  emits (read_below end_) (copy_from_buf m end_ size).
Proof.
  unfold copy_from_buf. apply emits_bind; [apply emits_get_ptr|]. intros p.
  destruct (N.leb_spec (p + size) end_).
  - apply emits_bind; [apply emits_emit; now apply Forall_read_below|]. intros _.
    apply emits_bind; [apply emits_set_ptr|]. intros _. apply emits_ret.
  - apply emits_ret.
Qed.

Lemma emits_copy_size_and_data_from_buf (m : memory) (end_ : N) :
  emits (read_below end_) (copy_size_and_data_from_buf m end_).
Proof.
  unfold copy_size_and_data_from_buf. apply emits_bind; [apply emits_get_ptr|]. intros p.
  destruct (N.leb_spec (p + 4) end_); [|apply emits_ret].
  apply emits_bind; [apply emits_emit; now apply Forall_read_below|]. intros _.
  cbv zeta.
  destruct (N.leb_spec (p + 4 + decode_u32 (read_bytes m p 4)) end_); [|apply emits_ret].
  apply emits_bind; [apply emits_new_array|]. intros [buf|]; [|apply emits_ret].
  apply emits_bind; [apply emits_emit; apply Forall_read_below; lia|]. intros _.
  apply emits_bind; [apply emits_set_ptr|]. intros _. apply emits_ret.
Qed.

Lemma emits_AS_Deserialize_at (P : event -> Prop) (m : memory) (end_ : N)
      (store_set : AuthorizationSet -> KeyBlob -> KeyBlob) :
  emits P (AS_Deserialize_at m end_ store_set).
Proof.
  unfold AS_Deserialize_at. apply emits_bind; [apply emits_get_ptr|]. intros p.
  destruct (AS_Deserialize _) as [[s n]|]; [|apply emits_ret].
  apply emits_bind; [apply emits_modify|]. intros _.
  apply emits_bind; [apply emits_set_ptr|]. intros _. apply emits_ret.
Qed.

Ltac emits_steps :=
  repeat first
    [ apply emits_ret
    | apply emits_modify
    | apply emits_set_ptr
    | apply emits_get_ptr
    | apply emits_lift
    | apply emits_new_array
    | apply emits_copy_from_buf
    | apply emits_copy_size_and_data_from_buf
    | apply emits_AS_Deserialize_at
    | apply emits_bind; [|intros ?]
    | apply emits_if
    | match goal with
      | |- emits _ (match ?x with _ => _ end) => destruct x
      end ].

(** After its first, unchecked, read the version-0 parse only reads below
    [end_]. *)
Lemma emits_versioned_rest (m : memory) (end_ : N) (k : byte -> M bool) :
  (forall b, emits (read_below end_) (k b)) ->
  forall w a w', bind (read_u8 m) k w = (a, w') ->
    exists evs, trace w' = trace w ++ EvRead (buf_ptr w) :: evs
                /\ Forall (read_below end_) evs.
Proof.
  intros Hk w a w' E. unfold bind, read_u8, get_ptr, emit, set_ptr, ret in E.
  cbn [fst snd this buf_ptr heap trace] in E.
  destruct (Hk _ _ _ _ E) as (evs & T & F). cbn [trace] in T.
  exists evs. split; [|assumption]. now rewrite T, <- app_assoc.
Qed.

Lemma versioned_parse_failed_trace (m : memory) (end_ : N) (w w' : world) (r : bool) :
  versioned_parse_failed m end_ w = (r, w') ->
  exists evs, trace w' = trace w ++ EvRead (buf_ptr w) :: evs
              /\ Forall (read_below end_) evs.
Proof.
  apply emits_versioned_rest. intros b. emits_steps.
Qed.

Lemma emits_unversioned_parse_failed (m : memory) (end_ : N) :
  emits (read_below end_) (unversioned_parse_failed m end_).
Proof. unfold unversioned_parse_failed. emits_steps. Qed.

End ReadFacts.

(** ** Input laid out in memory *)

Lemma app_eq_length {A} (a b c d : list A) :
  length a = length c -> a ++ b = c ++ d -> a = c /\ b = d.
Proof.
  revert c. induction a as [|x a IH]; intros [|y c] L E; try discriminate.
  - now split.
  - simpl in E. injection E as -> E. injection L as L.
    destruct (IH c L E) as [-> ->]. now split.
Qed.

Lemma input_at_bound (m : memory) (p end_ : N) (R : list byte) :
  input_at m p end_ R -> end_ - p <= len R.
Proof.
  intros [_ E]. apply (f_equal (@length byte)) in E.
  rewrite length_read_bytes, length_firstn in E. unfold len. lia.
Qed.

Lemma input_at_exact (m : memory) (p end_ : N) (R : list byte) :
  p <= end_ -> read_bytes m p (end_ - p) = R -> input_at m p end_ R.
Proof.
  intros Hp E. split; [assumption|].
  rewrite firstn_all2; [assumption|].
  rewrite <- E, length_read_bytes. lia.
Qed.

Lemma input_at_step (m : memory) (p end_ : N) (a R : list byte) :
  input_at m p end_ (a ++ R) -> p + len a <= end_ ->
  read_bytes m p (len a) = a /\ input_at m (p + len a) end_ R.
Proof.
  intros [Hp E] Ha.
  assert (La : N.to_nat (len a) = length a) by (unfold len; lia).
  replace (end_ - p) with (len a + (end_ - (p + len a))) in E by lia.
  remember (end_ - (p + len a)) as k eqn:Ek.
  rewrite read_bytes_add, N2Nat.inj_add, firstn_app, La in E.
  rewrite firstn_all2 in E by lia.
  replace (length a + N.to_nat k - length a)%nat with (N.to_nat k) in E by lia.
  apply app_eq_length in E.
  - destruct E as [E1 E2]. split; [assumption|]. split; [lia|]. now rewrite <- Ek.
  - rewrite length_read_bytes. lia.
Qed.

Lemma input_at_cons (m : memory) (p end_ : N) (b : byte) (R : list byte) :
  input_at m p end_ (b :: R) -> p + 1 <= end_ ->
  m p = b /\ input_at m (p + 1) end_ R.
Proof.
  intros Hin Hp. apply (input_at_step m p end_ [b] R) in Hin; [|exact Hp].
  destruct Hin as [E Hin]. split; [|exact Hin].
  change (read_bytes m p (len [b])) with [m (p + 0)] in E.
  rewrite N.add_0_r in E. now injection E.
Qed.

Lemma input_at_u32 (m : memory) (p end_ n : N) (R : list byte) :
  input_at m p end_ (encode_u32 n ++ R) -> p + 4 <= end_ -> n < UINT32_LIMIT ->
  decode_u32 (read_bytes m p 4) = n /\ input_at m (p + 4) end_ R.
Proof.
  intros Hin Hp Hn. apply input_at_step in Hin; [|exact Hp].
  destruct Hin as [E Hin]. split; [|exact Hin].
  change (len (encode_u32 n)) with 4 in E. rewrite E.
  rewrite <- (app_nil_r (encode_u32 n)). now apply decode_u32_encode.
Qed.

Lemma read_bytes_skipn (m : memory) (p n k : N) (L : list byte) :
  read_bytes m p n = L ->
  read_bytes m (p + k) (n - k) = skipn (N.to_nat k) L.
Proof.
  intros E. destruct (N.le_gt_cases k n) as [Hk|Hk].
  - replace n with (k + (n - k)) in E by lia.
    rewrite read_bytes_add in E. subst L.
    rewrite skipn_app, skipn_all2 by (rewrite length_read_bytes; lia).
    rewrite length_read_bytes, Nat.sub_diag. reflexivity.
  - replace (n - k) with 0 by lia.
    rewrite skipn_all2; [reflexivity|].
    rewrite <- E, length_read_bytes. lia.
Qed.

Section ParseFacts.

Context {AuthorizationSet : Type} `{AuthorizationSetOps AuthorizationSet}.

Local Abbreviation world := (world AuthorizationSet).
Local Abbreviation M := (M AuthorizationSet).
Local Abbreviation KeyBlob := (KeyBlob AuthorizationSet).

Lemma read_u8_eq (m : memory) (w : world) :
  read_u8 m w =
  (m (buf_ptr w),
   mkWorld (this w) (buf_ptr w + 1) (heap w) (trace w ++ [EvRead (buf_ptr w)])).
Proof. reflexivity. Qed.

Lemma copy_from_buf_inv (m : memory) (end_ size : N) (w w' : world)
      (r : option (list byte)) :
  copy_from_buf m end_ size w = (r, w') ->
  this w' = this w /\ heap w' = heap w /\
  match r with
  | Some d => buf_ptr w + size <= end_ /\ d = read_bytes m (buf_ptr w) size
              /\ buf_ptr w' = buf_ptr w + size
  | None => end_ < buf_ptr w + size /\ buf_ptr w' = buf_ptr w
  end.
Proof.
  unfold copy_from_buf, bind, get_ptr, emit, set_ptr, ret. cbv beta iota zeta.
  destruct (N.leb_spec (buf_ptr w + size) end_); intros [= <- <-];
    cbn [this buf_ptr heap trace]; auto.
Qed.

Lemma copy_size_and_data_from_buf_inv (m : memory) (end_ : N) (w w' : world)
      (r : option (N * list byte)) :
  copy_size_and_data_from_buf m end_ w = (r, w') ->
  this w' = this w /\
  match r with
  | Some (n, d) =>
      buf_ptr w + 4 <= end_ /\ n = decode_u32 (read_bytes m (buf_ptr w) 4)
      /\ buf_ptr w + 4 + n <= end_ /\ d = read_bytes m (buf_ptr w + 4) n
      /\ buf_ptr w' = buf_ptr w + 4 + n
      /\ hd true (heap w) = true /\ heap w' = tl (heap w)
  | None =>
      buf_ptr w' = buf_ptr w /\
      (end_ < buf_ptr w + 4
       \/ end_ < buf_ptr w + 4 + decode_u32 (read_bytes m (buf_ptr w) 4)
       \/ hd true (heap w) = false)
  end.
Proof.
  unfold copy_size_and_data_from_buf, bind, get_ptr, emit, set_ptr, ret, new_array.
  cbv beta iota zeta.
  destruct (N.leb_spec (buf_ptr w + 4) end_).
  - cbn [this buf_ptr heap trace].
    destruct (N.leb_spec (buf_ptr w + 4 + decode_u32 (read_bytes m (buf_ptr w) 4)) end_).
    + cbn [this buf_ptr heap trace].
      destruct (hd true (heap w)) eqn:Eh; intros [= <- <-];
        cbn [this buf_ptr heap trace]; auto 10.
    + intros [= <- <-]; cbn [this buf_ptr heap trace]; auto.
  - intros [= <- <-]; cbn [this buf_ptr heap trace]; auto.
Qed.

Lemma AS_Deserialize_at_inv (m : memory) (end_ : N)
      (store_set : AuthorizationSet -> KeyBlob -> KeyBlob) (w w' : world) (ok : bool) :
  AS_Deserialize_at m end_ store_set w = (ok, w') ->
  heap w' = heap w /\
  match AS_Deserialize (read_bytes m (buf_ptr w) (end_ - buf_ptr w)) with
  | Some (s, n) => ok = true /\ this w' = store_set s (this w)
                   /\ buf_ptr w' = buf_ptr w + n
  | None => ok = false /\ this w' = this w /\ buf_ptr w' = buf_ptr w
  end.
Proof.
  unfold AS_Deserialize_at, bind, get_ptr, modify, set_ptr, ret. cbv beta iota zeta.
  destruct (AS_Deserialize _) as [[s n]|]; intros [= <- <-];
    cbn [this buf_ptr heap trace]; auto.
Qed.

Lemma len_header_bytes (nonce ct tg : list byte) :
  len nonce = NONCE_LENGTH -> len tg = TAG_LENGTH ->
  len (header_bytes nonce ct tg) = 41 + len ct.
Proof.
  intros Hn Ht. unfold header_bytes.
  rewrite len_cons, !len_app, !len_encode_u32, Hn, Ht.
  unfold NONCE_LENGTH, TAG_LENGTH. lia.
Qed.

(** The version-0 parse over an input that starts with a well-formed
    header, complete or cut short: either the parse fails within the
    header, which takes a header cut short or a failed allocation, or the
    header's fields are stored and the policy sets are parsed next. *)
Lemma versioned_header (m : memory) (end_ : N) (w w' : world) (r : bool)
      (nonce ct tg R : list byte) :
  len nonce = NONCE_LENGTH -> len tg = TAG_LENGTH -> len ct < UINT32_LIMIT ->
  input_at m (buf_ptr w) end_ (header_bytes nonce ct tg ++ R) ->
  versioned_parse_failed m end_ w = (r, w') ->
  (r = true /\ (end_ < buf_ptr w + len (header_bytes nonce ct tg) \/ ~ heap_ok (heap w)))
  \/ exists w1,
       this w1 = parsed_fields nonce ct tg (this w)
       /\ buf_ptr w1 = buf_ptr w + len (header_bytes nonce ct tg)
       /\ input_at m (buf_ptr w1) end_ R
       /\ heap w1 = tl (tl (tl (heap w)))
       /\ hd true (heap w) = true /\ hd true (tl (heap w)) = true
       /\ hd true (tl (tl (heap w))) = true
       /\ sets_parse_failed m end_ w1 = (r, w').
Proof.
  intros Hn Ht Hct Hin.
  rewrite (len_header_bytes nonce ct tg Hn Ht).
  assert (Hin' : input_at m (buf_ptr w) end_
            (BLOB_VERSION :: encode_u32 NONCE_LENGTH ++ nonce ++ encode_u32 (len ct)
               ++ ct ++ encode_u32 TAG_LENGTH ++ tg ++ R)).
  { unfold header_bytes in Hin. cbn [app] in Hin.
    now rewrite <- !app_assoc in Hin. }
  clear Hin. rename Hin' into Hin.
  assert (Hbad : forall h, hd true h = false -> ~ heap_ok h).
  { intros h Eh Hok. apply heap_ok_hd in Hok. congruence. }
  assert (Hbad2 : forall h, hd true (tl h) = false -> ~ heap_ok h).
  { intros h Eh Hok. apply heap_ok_tl in Hok. now apply Hbad in Eh. }
  assert (Hbad3 : forall h, hd true (tl (tl h)) = false -> ~ heap_ok h).
  { intros h Eh Hok. apply heap_ok_tl in Hok. now apply Hbad2 in Eh. }
  assert (HN : NONCE_LENGTH < UINT32_LIMIT) by reflexivity.
  assert (HT : TAG_LENGTH < UINT32_LIMIT) by reflexivity.
  assert (HN12 : NONCE_LENGTH = 12) by reflexivity.
  assert (HT16 : TAG_LENGTH = 16) by reflexivity.
  unfold versioned_parse_failed.
  rewrite (bind_eq _ _ _ _ _ (read_u8_eq m w)).
  destruct (Byte.eqb (m (buf_ptr w)) BLOB_VERSION) eqn:Ev; cbn [negb].
  2:{ (* a first byte other than 0 is not the header's: the range is empty *)
      intros [= <- <-]. left. split; [reflexivity|]. left.
      destruct (N.leb_spec (buf_ptr w + 1) end_) as [H1|H1]; [|lia].
      apply input_at_cons in Hin; [|exact H1].
      destruct Hin as [E _]. rewrite E in Ev. discriminate. }
  unfold bind at 1.
  destruct (copy_size_and_data_from_buf m end_ _) as [[[n1 d1]|] w1] eqn:E1;
    apply copy_size_and_data_from_buf_inv in E1; cbn [this buf_ptr heap trace] in E1.
  2:{ intros [= <- <-]. left. split; [reflexivity|].
      destruct E1 as (_ & _ & [E1|[E1|E1]]); [left; lia | | right; auto].
      destruct (N.leb_spec (buf_ptr w + 1 + 4) end_) as [H1|H1]; [|left; lia].
      apply input_at_cons in Hin; [|lia]. destruct Hin as [_ Hin].
      apply input_at_u32 in Hin; [|lia|exact HN]. destruct Hin as [E _].
      rewrite E in E1. left. lia. }
  destruct E1 as (T1 & B1 & N1 & F1 & D1 & P1 & A1 & G1).
  apply input_at_cons in Hin; [|lia]. destruct Hin as [_ Hin].
  apply input_at_u32 in Hin; [|lia|exact HN]. destruct Hin as [E Hin].
  rewrite E in N1. subst n1.
  apply input_at_step in Hin; [|rewrite Hn; lia].
  destruct Hin as [E' Hin]. rewrite Hn in E', Hin. rewrite E' in D1. subst d1.
  clear E E'.
  rewrite (bind_eq _ _ _ (mkWorld (set_nonce (Some nonce) (this w1)) (buf_ptr w1)
                                     (heap w1) (trace w1)) tt) by reflexivity.
  change (negb (NONCE_LENGTH =? NONCE_LENGTH)) with false. cbv iota.
  unfold bind at 1.
  destruct (copy_size_and_data_from_buf m end_ _) as [[[n2 d2]|] w2] eqn:E2;
    apply copy_size_and_data_from_buf_inv in E2; cbn [this buf_ptr heap trace] in E2.
  2:{ intros [= <- <-]. left. split; [reflexivity|].
      rewrite <- P1 in Hin.
      destruct E2 as (_ & _ & [E2|[E2|E2]]);
        [left; lia | | right; apply Hbad2; congruence].
      destruct (N.leb_spec (buf_ptr w1 + 4) end_) as [H1|H1]; [|left; lia].
      apply input_at_u32 in Hin; [|lia|exact Hct]. destruct Hin as [E _].
      rewrite E in E2. left. lia. }
  destruct E2 as (T2 & B2 & N2 & F2 & D2 & P2 & A2 & G2).
  rewrite <- P1 in Hin.
  apply input_at_u32 in Hin; [|lia|exact Hct]. destruct Hin as [E Hin].
  rewrite E in N2. subst n2.
  apply input_at_step in Hin; [|lia].
  destruct Hin as [E' Hin]. rewrite E' in D2. subst d2. clear E E'.
  rewrite (bind_eq _ _ _ (mkWorld (set_key_material_length (len ct) (this w2))
                                     (buf_ptr w2) (heap w2) (trace w2)) tt) by reflexivity.
  rewrite (bind_eq _ _ _
             (mkWorld (set_encrypted_key_material (Some ct)
                         (set_key_material_length (len ct) (this w2)))
                      (buf_ptr w2) (heap w2) (trace w2)) tt) by reflexivity.
  unfold bind at 1.
  destruct (copy_size_and_data_from_buf m end_ _) as [[[n3 d3]|] w3] eqn:E3;
    apply copy_size_and_data_from_buf_inv in E3; cbn [this buf_ptr heap trace] in E3.
  2:{ intros [= <- <-]. left. split; [reflexivity|].
      rewrite <- P2 in Hin.
      destruct E3 as (_ & _ & [E3|[E3|E3]]);
        [left; lia | | right; apply Hbad3; congruence].
      destruct (N.leb_spec (buf_ptr w2 + 4) end_) as [H1|H1]; [|left; lia].
      apply input_at_u32 in Hin; [|lia|exact HT]. destruct Hin as [E _].
      rewrite E in E3. left. lia. }
  destruct E3 as (T3 & B3 & N3 & F3 & D3 & P3 & A3 & G3).
  rewrite <- P2 in Hin.
  apply input_at_u32 in Hin; [|lia|exact HT]. destruct Hin as [E Hin].
  rewrite E in N3. subst n3.
  apply input_at_step in Hin; [|rewrite Ht; lia].
  destruct Hin as [E' Hin]. rewrite Ht in E', Hin. rewrite E' in D3. subst d3.
  clear E E'.
  rewrite (bind_eq _ _ _ (mkWorld (set_tag (Some tg) (this w3)) (buf_ptr w3)
                                     (heap w3) (trace w3)) tt) by reflexivity.
  change (negb (TAG_LENGTH =? TAG_LENGTH)) with false. cbv iota.
  intros Hrest. right.
  exists (mkWorld (set_tag (Some tg) (this w3)) (buf_ptr w3) (heap w3) (trace w3)).
  cbn [this buf_ptr heap trace].
  rewrite <- P3 in Hin.
  repeat split; try assumption; try apply Hin.
  - rewrite T3, T2, T1. reflexivity.
  - lia.
  - rewrite G3, G2, G1. reflexivity.
  - congruence.
  - congruence.
Qed.

Lemma sets_parse_ok (m : memory) (end_ : N) (w : world) (rest : list byte)
      (e u : AuthorizationSet) (n1 n2 : N) :
  read_bytes m (buf_ptr w) (end_ - buf_ptr w) = rest ->
  AS_Deserialize rest = Some (e, n1) ->
  AS_Deserialize (skipn (N.to_nat n1) rest) = Some (u, n2) ->
  exists w', sets_parse_failed m end_ w = (false, w')
             /\ this w' = set_unenforced u (set_enforced e (this w))
             /\ buf_ptr w' = buf_ptr w + n1 + n2
             /\ heap w' = heap w
             /\ trace w' = trace w.
Proof.
  intros Hrest He Hu. unfold sets_parse_failed.
  unfold bind at 1.
  destruct (AS_Deserialize_at m end_ set_enforced w) as [ok1 w1] eqn:E1.
  pose proof (emits_AS_Deserialize_at (fun _ => False) _ _ _ _ _ _ E1) as (ev1 & Tr1 & F1).
  destruct ev1; [|now inversion F1]. rewrite app_nil_r in Tr1.
  apply AS_Deserialize_at_inv in E1. rewrite Hrest, He in E1.
  destruct E1 as (G1 & -> & T1 & P1). cbn [negb].
  unfold bind at 1.
  destruct (AS_Deserialize_at m end_ set_unenforced w1) as [ok2 w2] eqn:E2.
  pose proof (emits_AS_Deserialize_at (fun _ => False) _ _ _ _ _ _ E2) as (ev2 & Tr2 & F2).
  destruct ev2; [|now inversion F2]. rewrite app_nil_r in Tr2.
  apply AS_Deserialize_at_inv in E2.
  rewrite P1 in E2.
  replace (end_ - (buf_ptr w + n1)) with (end_ - buf_ptr w - n1) in E2 by lia.
  rewrite (read_bytes_skipn _ _ _ _ _ Hrest), Hu in E2.
  destruct E2 as (G2 & -> & T2 & P2).
  exists w2. cbn [negb ret]. repeat split; congruence.
Qed.

Lemma sets_parse_truncated (m : memory) (end_ : N) (w : world)
      (e u : AuthorizationSet) :
  roundtrips e -> rejects_truncation e -> rejects_truncation u ->
  input_at m (buf_ptr w) end_ (AS_bytes e ++ AS_bytes u) ->
  end_ - buf_ptr w < len (AS_bytes e) + len (AS_bytes u) ->
  fst (sets_parse_failed m end_ w) = true.
Proof.
  intros Re Te Tu Hin Hshort. unfold sets_parse_failed.
  unfold bind at 1.
  destruct (AS_Deserialize_at m end_ set_enforced w) as [ok1 w1] eqn:E1.
  apply AS_Deserialize_at_inv in E1. destruct E1 as [G1 E1].
  destruct (N.le_gt_cases (len (AS_bytes e)) (end_ - buf_ptr w)) as [Hc|Hc].
  - (* the enforced set is whole; the unenforced set is cut short *)
    pose proof Hin as [Hp Hall].
    rewrite firstn_app in Hall.
    rewrite firstn_all2 in Hall by (unfold len in Hc; lia).
    rewrite Hall, Re in E1. destruct E1 as (-> & T1 & P1). cbn [negb].
    unfold bind at 1.
    destruct (AS_Deserialize_at m end_ set_unenforced w1) as [ok2 w2] eqn:E2.
    apply AS_Deserialize_at_inv in E2. destruct E2 as [G2 E2].
    apply input_at_step in Hin; [|lia]. rewrite <- P1 in Hin.
    destruct Hin as [_ [_ Hin]].
    rewrite Hin, Tu in E2 by (unfold len in *; lia).
    destruct E2 as (-> & _). reflexivity.
  - (* the enforced set itself is cut short *)
    destruct Hin as [Hp Hall].
    rewrite firstn_app in Hall.
    replace (N.to_nat (end_ - buf_ptr w) - length (AS_bytes e))%nat with 0%nat in Hall
      by (unfold len in Hc; lia).
    rewrite firstn_O, app_nil_r in Hall.
    rewrite Hall, Te in E1 by (unfold len in Hc; lia).
    destruct E1 as (-> & _). reflexivity.
Qed.

(** A complete version-0 blob parses as version 0. *)
Lemma versioned_parse_ok (m : memory) (end_ : N) (w : world)
      (nonce ct tg rest : list byte) (e u : AuthorizationSet) (n1 n2 : N) :
  len nonce = NONCE_LENGTH -> len tg = TAG_LENGTH -> len ct < UINT32_LIMIT ->
  buf_ptr w <= end_ ->
  read_bytes m (buf_ptr w) (end_ - buf_ptr w) = header_bytes nonce ct tg ++ rest ->
  AS_Deserialize rest = Some (e, n1) ->
  AS_Deserialize (skipn (N.to_nat n1) rest) = Some (u, n2) ->
  heap_ok (heap w) ->
  exists w', versioned_parse_failed m end_ w = (false, w')
             /\ this w' = set_unenforced u (set_enforced e (parsed_fields nonce ct tg (this w)))
             /\ buf_ptr w' = buf_ptr w + len (header_bytes nonce ct tg) + n1 + n2
             /\ heap_ok (heap w').
Proof.
  intros Hn Ht Hct Hp Hmem He Hu Hheap.
  destruct (versioned_parse_failed m end_ w) as [r w'] eqn:E.
  pose proof (input_at_exact _ _ _ _ Hp Hmem) as Hin.
  assert (Hlen : end_ - buf_ptr w = len (header_bytes nonce ct tg) + len rest).
  { apply (f_equal len) in Hmem. now rewrite len_read_bytes, len_app in Hmem. }
  destruct (versioned_header _ _ _ _ _ _ _ _ _ Hn Ht Hct Hin E)
    as [[_ [Hbad|Hbad]] | (w1 & T1 & P1 & Hin1 & G1 & _ & _ & _ & E1)].
  - lia.
  - contradiction.
  - assert (Hrest : read_bytes m (buf_ptr w1) (end_ - buf_ptr w1) = rest).
    { destruct Hin1 as [_ ->]. apply firstn_all2. unfold len in *. lia. }
    destruct (sets_parse_ok _ _ _ _ _ _ _ _ Hrest He Hu) as (w2 & E2 & T2 & P2 & G2 & _).
    assert (Hrw : r = false /\ w' = w2) by (rewrite E1 in E2; now injection E2).
    destruct Hrw as [-> ->].
    exists w2. repeat split.
    + rewrite T2, T1. reflexivity.
    + rewrite P2, P1. reflexivity.
    + rewrite G2, G1. now do 3 apply heap_ok_tl.
Qed.

(** A version-0 blob cut short does not parse as version 0. *)
Lemma versioned_parse_truncated (m : memory) (end_ : N) (w : world)
      (nonce ct tg : list byte) (e u : AuthorizationSet) :
  len nonce = NONCE_LENGTH -> len tg = TAG_LENGTH -> len ct < UINT32_LIMIT ->
  roundtrips e -> rejects_truncation e -> rejects_truncation u ->
  input_at m (buf_ptr w) end_ (header_bytes nonce ct tg ++ AS_bytes e ++ AS_bytes u) ->
  end_ - buf_ptr w < len (header_bytes nonce ct tg ++ AS_bytes e ++ AS_bytes u) ->
  fst (versioned_parse_failed m end_ w) = true.
Proof.
  intros Hn Ht Hct Re Te Tu Hin Hshort.
  destruct (versioned_parse_failed m end_ w) as [r w'] eqn:E.
  destruct (versioned_header _ _ _ _ _ _ _ _ _ Hn Ht Hct Hin E)
    as [[-> _] | (w1 & T1 & P1 & Hin1 & G1 & _ & _ & _ & E1)]; [reflexivity|].
  cbn [fst]. change r with (fst (r, w')). rewrite <- E1.
  apply (sets_parse_truncated _ _ _ e u); try assumption.
  rewrite !len_app in Hshort. destruct Hin1 as [Hp1 _]. lia.
Qed.

End ParseFacts.

(** ** What a parse does to the object *)

Section ObjectFacts.

Context {AuthorizationSet : Type} `{AuthorizationSetOps AuthorizationSet}.

Local Abbreviation world := (world AuthorizationSet).
Local Abbreviation M := (M AuthorizationSet).
Local Abbreviation KeyBlob := (KeyBlob AuthorizationSet).
Local Abbreviation uniform c := (@uniform AuthorizationSet _ c).
Local Abbreviation commutes_with_error f := (@commutes_with_error AuthorizationSet f).

Lemma uniform_ret {A} (a : A) : uniform (ret a).
Proof. intros p h tr. exists a, (fun kb => kb), p, h, tr. now split. Qed.

Lemma uniform_bind {A B} (c : M A) (k : A -> M B) :
  uniform c -> (forall a, uniform (k a)) -> uniform (bind c k).
Proof.
  intros Hc Hk p h tr.
  destruct (Hc p h tr) as (a & f & p1 & h1 & tr1 & Cf & E1).
  destruct (Hk a p1 h1 tr1) as (b & g & p2 & h2 & tr2 & Cg & E2).
  exists b, (fun kb => g (f kb)), p2, h2, tr2. split.
  - intros e kb. now rewrite Cf, Cg.
  - intros kb. unfold bind. now rewrite E1, E2.
Qed.

Lemma uniform_get_ptr : uniform get_ptr.
Proof. intros p h tr. exists p, (fun kb => kb), p, h, tr. now split. Qed.

Lemma uniform_set_ptr (q : N) : uniform (set_ptr q).
Proof. intros p h tr. exists tt, (fun kb => kb), q, h, tr. now split. Qed.

Lemma uniform_emit (evs : list event) : uniform (emit evs).
Proof. intros p h tr. exists tt, (fun kb => kb), p, h, (tr ++ evs). now split. Qed.

Lemma uniform_modify (f : KeyBlob -> KeyBlob) :
  commutes_with_error f -> uniform (modify f).
Proof. intros Cf p h tr. exists tt, f, p, h, tr. now split. Qed.

Lemma uniform_new_array (n : N) : uniform (new_array n).
Proof.
  intros p h tr. unfold new_array. cbn [this buf_ptr heap trace].
  destruct (hd true h);
    eexists _, (fun kb => kb), p, (tl h), tr; (split; [easy | reflexivity]).
Qed.

Lemma uniform_if {A} (b : bool) (c1 c2 : M A) :
  uniform c1 -> uniform c2 -> uniform (if b then c1 else c2).
Proof. now destruct b. Qed.

Lemma commutes_set_nonce v : commutes_with_error (set_nonce v).
Proof. easy. Qed.
Lemma commutes_set_tag v : commutes_with_error (set_tag v).
Proof. easy. Qed.
Lemma commutes_set_encrypted_key_material v :
  commutes_with_error (set_encrypted_key_material v).
Proof. easy. Qed.
Lemma commutes_set_key_material_length v :
  commutes_with_error (set_key_material_length v).
Proof. easy. Qed.
Lemma commutes_set_enforced v : commutes_with_error (set_enforced v).
Proof. easy. Qed.
Lemma commutes_set_unenforced v : commutes_with_error (set_unenforced v).
Proof. easy. Qed.

Ltac uniform_steps :=
  repeat first
    [ apply uniform_ret
    | apply uniform_get_ptr
    | apply uniform_set_ptr
    | apply uniform_emit
    | apply uniform_new_array
    | apply uniform_modify;
      first [ apply commutes_set_nonce | apply commutes_set_tag
            | apply commutes_set_encrypted_key_material
            | apply commutes_set_key_material_length
            | apply commutes_set_enforced | apply commutes_set_unenforced ]
    | apply uniform_bind; [|intros ?]
    | apply uniform_if
    | match goal with
      | |- uniform (match ?x with _ => _ end) => destruct x
      | |- uniform (let _ := _ in _) => cbv zeta
      end ].

Lemma uniform_read_u8 (m : memory) : uniform (read_u8 m).
Proof. unfold read_u8. uniform_steps. Qed.

Lemma uniform_copy_from_buf (m : memory) (end_ size : N) :
  uniform (copy_from_buf m end_ size).
Proof. unfold copy_from_buf. uniform_steps. Qed.

Lemma uniform_copy_size_and_data_from_buf (m : memory) (end_ : N) :
  uniform (copy_size_and_data_from_buf m end_).
Proof. unfold copy_size_and_data_from_buf. uniform_steps. Qed.

Lemma uniform_AS_Deserialize_at (m : memory) (end_ : N)
      (store_set : AuthorizationSet -> KeyBlob -> KeyBlob) :
  (forall s, commutes_with_error (store_set s)) ->
  uniform (AS_Deserialize_at m end_ store_set).
Proof.
  intros Cs. unfold AS_Deserialize_at.
  apply uniform_bind; [apply uniform_get_ptr|]. intros p.
  destruct (AS_Deserialize _) as [[s n]|]; [|apply uniform_ret].
  apply uniform_bind; [apply uniform_modify, Cs|]. intros _. uniform_steps.
Qed.

Lemma uniform_versioned_parse_failed (m : memory) (end_ : N) :
  uniform (versioned_parse_failed m end_).
Proof.
  unfold versioned_parse_failed.
  repeat first
    [ apply uniform_read_u8
    | apply uniform_copy_size_and_data_from_buf
    | apply uniform_AS_Deserialize_at; intros ?;
      first [apply commutes_set_enforced | apply commutes_set_unenforced]
    | progress uniform_steps ].
Qed.

Lemma uniform_unversioned_parse_failed (m : memory) (end_ : N) :
  uniform (unversioned_parse_failed m end_).
Proof.
  unfold unversioned_parse_failed.
  repeat first
    [ apply uniform_copy_from_buf
    | apply uniform_copy_size_and_data_from_buf
    | apply uniform_AS_Deserialize_at; intros ?;
      first [apply commutes_set_enforced | apply commutes_set_unenforced]
    | progress uniform_steps ].
Qed.

Lemma uniform_enter_unversioned : uniform (@enter_unversioned AuthorizationSet).
Proof. unfold enter_unversioned. uniform_steps. Qed.

Lemma set_error_same (kb : KeyBlob) : set_error (error_ kb) kb = kb.
Proof. now destruct kb. Qed.

Lemma with_error_same (w : world) : with_error (error_ (this w)) w = w.
Proof. destruct w as [kb p h tr]. unfold with_error. cbn. now rewrite set_error_same. Qed.

Lemma uniform_with_error {A} (c : M A) (w : world) (e : keymaster_error_t) :
  uniform c -> c (with_error e w) = (fst (c w), with_error e (snd (c w))).
Proof.
  intros U. destruct w as [kb p h tr].
  destruct (U p h tr) as (a & f & p' & h' & tr' & Cf & E).
  unfold with_error. cbn [this buf_ptr heap trace].
  rewrite !E. cbn [fst snd this buf_ptr heap trace]. now rewrite Cf.
Qed.

Lemma uniform_error {A} (c : M A) (w : world) :
  uniform c -> error_ (this (snd (c w))) = error_ (this w).
Proof.
  intros U. pose proof (uniform_with_error c w (error_ (this w)) U) as E.
  rewrite with_error_same in E. apply (f_equal snd) in E. cbn [snd] in E.
  rewrite E at 1. reflexivity.
Qed.

(** What a uniform computation answers does not depend on the object. *)
Lemma uniform_answer {A} (c : M A) (w : world) (kb : KeyBlob) :
  uniform c ->
  fst (c (mkWorld kb (buf_ptr w) (heap w) (trace w))) = fst (c w).
Proof.
  intros U. destruct w as [kb0 p h tr].
  destruct (U p h tr) as (a & f & p' & h' & tr' & Cf & E).
  cbn [this buf_ptr heap trace]. now rewrite !E.
Qed.

End ObjectFacts.

(** ** Key characteristics and the error member *)

Section VerdictFacts.

Context {AuthorizationSet : Type} `{AuthorizationSetOps AuthorizationSet}.

Local Abbreviation world := (world AuthorizationSet).
Local Abbreviation M := (M AuthorizationSet).
Local Abbreviation KeyBlob := (KeyBlob AuthorizationSet).

Lemma ExtractKeyCharacteristics_eq (kb : KeyBlob) :
  ExtractKeyCharacteristics kb =
  match lookup_both kb TAG_ALGORITHM with
  | None => (false, set_error KM_ERROR_UNSUPPORTED_ALGORITHM kb)
  | Some a =>
      match lookup_both kb TAG_KEY_SIZE with
      | None => (false, set_error KM_ERROR_UNSUPPORTED_KEY_SIZE (set_algorithm a kb))
      | Some k => (true, set_key_size_bits k (set_algorithm a kb))
      end
  end.
Proof.
  unfold ExtractKeyCharacteristics, GetTagValue, lookup_both.
  destruct kb as [e n c t l enf unenf alg ks]. cbn.
  destruct (AS_GetTagValue enf TAG_ALGORITHM) as [a|]; cbn.
  - destruct (AS_GetTagValue enf TAG_KEY_SIZE) as [k|]; cbn; [reflexivity|].
    destruct (AS_GetTagValue unenf TAG_KEY_SIZE) as [k|]; reflexivity.
  - destruct (AS_GetTagValue unenf TAG_ALGORITHM) as [a|]; cbn; [|reflexivity].
    destruct (AS_GetTagValue enf TAG_KEY_SIZE) as [k|]; cbn; [reflexivity|].
    destruct (AS_GetTagValue unenf TAG_KEY_SIZE) as [k|]; reflexivity.
Qed.

Lemma error_blind_Extract : error_blind (lift (@ExtractKeyCharacteristics AuthorizationSet _)).
Proof.
  intros [kb p h tr] e. unfold lift, with_error. cbn [this buf_ptr heap trace].
  rewrite !ExtractKeyCharacteristics_eq.
  replace (lookup_both (set_error e kb)) with (lookup_both kb) by reflexivity.
  destruct (lookup_both kb TAG_ALGORITHM) as [a|]; [|reflexivity].
  destruct (lookup_both kb TAG_KEY_SIZE) as [k|]; reflexivity.
Qed.

Lemma gives_reason_Extract : gives_reason (lift (@ExtractKeyCharacteristics AuthorizationSet _)).
Proof.
  intros [kb p h tr] w'. unfold lift. cbn [this buf_ptr heap trace].
  rewrite ExtractKeyCharacteristics_eq.
  destruct (lookup_both kb TAG_ALGORITHM) as [a|].
  - destruct (lookup_both kb TAG_KEY_SIZE) as [k|]; intros [= <-]; discriminate.
  - intros [= <-]. discriminate.
Qed.

Lemma DeserializeUnversionedBlob_eq (m : memory) (end_ : N) (w : world) :
  DeserializeUnversionedBlob m end_ w =
  let w0 := snd (enter_unversioned w) in
  if fst (enter_unversioned w) then
    let w1 := snd (unversioned_parse_failed m end_ w0) in
    if fst (unversioned_parse_failed m end_ w0) then
      (false, mkWorld (set_error KM_ERROR_INVALID_KEY_BLOB
                         (set_encrypted_key_material None (this w1)))
                      (buf_ptr w1) (heap w1) (trace w1))
    else lift ExtractKeyCharacteristics w1
  else
    (false, mkWorld (set_error KM_ERROR_MEMORY_ALLOCATION_FAILED (this w0))
                    (buf_ptr w0) (heap w0) (trace w0)).
Proof.
  unfold DeserializeUnversionedBlob. unfold bind at 1.
  destruct (enter_unversioned w) as [[|] w0]; cbn [fst snd negb].
  - unfold bind at 1.
    destruct (unversioned_parse_failed m end_ w0) as [[|] w1]; reflexivity.
  - reflexivity.
Qed.

Lemma Deserialize_eq (m : memory) (end_ : N) (w : world) :
  Deserialize m end_ w =
  if fst (versioned_parse_failed m end_ w) then
    let r := DeserializeUnversionedBlob m end_ (fallback_state m end_ w) in
    if fst r then lift ExtractKeyCharacteristics (snd r) else (false, snd r)
  else lift ExtractKeyCharacteristics (snd (versioned_parse_failed m end_ w)).
Proof.
  unfold Deserialize, fallback_state.
  unfold bind at 1. cbn [get_ptr].
  unfold bind at 1.
  destruct (versioned_parse_failed m end_ w) as [[|] w1]; cbn [fst snd]; [|reflexivity].
  unfold bind at 1 2 3 4. cbn [set_ptr this buf_ptr heap trace snd].
  destruct (DeserializeUnversionedBlob m end_ _) as [[|] w2]; reflexivity.
Qed.

Lemma with_error_twice (e e' : keymaster_error_t) (w : world) :
  mkWorld (set_error e (this (with_error e' w))) (buf_ptr w) (heap w) (trace w)
  = mkWorld (set_error e (this w)) (buf_ptr w) (heap w) (trace w).
Proof. reflexivity. Qed.

Lemma error_blind_DeserializeUnversionedBlob (m : memory) (end_ : N) :
  error_blind (DeserializeUnversionedBlob m end_).
Proof.
  intros w e. rewrite !DeserializeUnversionedBlob_eq. cbv zeta.
  rewrite (uniform_with_error _ w e uniform_enter_unversioned). cbn [fst snd].
  destruct (enter_unversioned w) as [[|] w0]; cbn [fst snd]; [|reflexivity].
  rewrite (uniform_with_error _ w0 e (uniform_unversioned_parse_failed m end_)).
  cbn [fst snd].
  destruct (unversioned_parse_failed m end_ w0) as [[|] w1]; cbn [fst snd]; [reflexivity|].
  apply error_blind_Extract.
Qed.

Lemma gives_reason_DeserializeUnversionedBlob (m : memory) (end_ : N) :
  gives_reason (DeserializeUnversionedBlob m end_).
Proof.
  intros w w'. rewrite DeserializeUnversionedBlob_eq. cbv zeta.
  destruct (fst (enter_unversioned w)).
  - destruct (fst (unversioned_parse_failed m end_ _)).
    + intros [= <-]. discriminate.
    + apply gives_reason_Extract.
  - intros [= <-]. discriminate.
Qed.

Lemma fallback_state_with_error (m : memory) (end_ : N) (w : world) (e : keymaster_error_t) :
  fallback_state m end_ (with_error e w) = with_error e (fallback_state m end_ w).
Proof.
  unfold fallback_state.
  rewrite (uniform_with_error _ w e (uniform_versioned_parse_failed m end_)).
  reflexivity.
Qed.

Lemma error_blind_Deserialize (m : memory) (end_ : N) :
  error_blind (Deserialize m end_).
Proof.
  intros w e. rewrite !Deserialize_eq. cbv zeta.
  rewrite fallback_state_with_error.
  rewrite (uniform_with_error _ w e (uniform_versioned_parse_failed m end_)).
  cbn [fst snd].
  destruct (fst (versioned_parse_failed m end_ w)).
  - pose proof (error_blind_DeserializeUnversionedBlob m end_ (fallback_state m end_ w) e) as E.
    destruct (DeserializeUnversionedBlob m end_ (fallback_state m end_ w)) as [ok w2].
    rewrite E. cbn [fst snd].
    destruct ok; [|reflexivity].
    apply error_blind_Extract.
  - apply error_blind_Extract.
Qed.

Lemma gives_reason_Deserialize (m : memory) (end_ : N) :
  gives_reason (Deserialize m end_).
Proof.
  intros w w'. rewrite Deserialize_eq. cbv zeta.
  destruct (fst (versioned_parse_failed m end_ w)).
  - destruct (DeserializeUnversionedBlob m end_ _) as [[|] w2] eqn:E; cbn [fst snd].
    + apply gives_reason_Extract.
    + intros [= <-]. revert E. apply gives_reason_DeserializeUnversionedBlob.
  - apply gives_reason_Extract.
Qed.

(** What the two properties give for one call. *)
Lemma sticky_error (c : M bool) (w : world) :
  error_blind c -> gives_reason c ->
  (fst (c w) = false ->
     error_ (this (snd (c w))) <> KM_ERROR_OK
     /\ forall e, fst (c (with_error e w)) = false
                  /\ error_ (this (snd (c (with_error e w)))) = error_ (this (snd (c w))))
  /\ (fst (c w) = true -> error_ (this (snd (c w))) = error_ (this w)).
Proof.
  intros B R. split.
  - intros F. split.
    + apply (R w). rewrite <- F. now destruct (c w).
    + intros e. rewrite B, F. now split.
  - intros T. pose proof (B w (error_ (this w))) as E.
    rewrite with_error_same, T in E.
    apply (f_equal snd) in E. cbn [snd] in E. rewrite E at 1. reflexivity.
Qed.

End VerdictFacts.

(** ** Which path was taken, and what was read *)

Section PathFacts.

Context {AuthorizationSet : Type} `{AuthorizationSetOps AuthorizationSet}.

Local Abbreviation world := (world AuthorizationSet).
Local Abbreviation M := (M AuthorizationSet).
Local Abbreviation KeyBlob := (KeyBlob AuthorizationSet).

Lemma legacy_of_reads (end_ : N) (evs : list event) :
  Forall (read_below end_) evs -> legacy_of evs = [].
Proof.
  induction 1 as [|e evs He _ IH]; [reflexivity|].
  destruct e; [exact IH | destruct He].
Qed.

Lemma reads_of_below (end_ : N) (evs : list event) :
  Forall (read_below end_) evs -> Forall (fun a => a < end_) (reads_of evs).
Proof.
  induction 1 as [|e evs He _ IH]; [constructor|].
  destruct e; [now constructor | destruct He].
Qed.

Lemma legacy_entries_app (w w' : world) (evs : list event) :
  trace w' = trace w ++ evs -> legacy_entries w' = legacy_entries w ++ legacy_of evs.
Proof. unfold legacy_entries. intros ->. now rewrite flat_map_app. Qed.

Lemma reads_app (w w' : world) (evs : list event) :
  trace w' = trace w ++ evs -> reads w' = reads w ++ reads_of evs.
Proof. unfold reads. intros ->. now rewrite flat_map_app. Qed.

Lemma lift_trace {A} (f : KeyBlob -> A * KeyBlob) (w : world) :
  trace (snd (lift f w)) = trace w
  /\ buf_ptr (snd (lift f w)) = buf_ptr w /\ heap (snd (lift f w)) = heap w.
Proof. unfold lift. now destruct (f (this w)). Qed.

Lemma enter_unversioned_eq (w : world) :
  enter_unversioned w =
  (hd true (heap w) && hd true (tl (heap w)),
   mkWorld (set_tag (if hd true (tl (heap w))
                     then Some (repeat x00 (N.to_nat TAG_LENGTH)) else None)
              (set_nonce (if hd true (heap w)
                          then Some (repeat x00 (N.to_nat NONCE_LENGTH)) else None)
                 (this w)))
           (buf_ptr w) (tl (tl (heap w))) (trace w ++ [EvLegacy (buf_ptr w)])).
Proof.
  unfold enter_unversioned, bind, get_ptr, emit, new_array, modify, ret.
  cbn [this buf_ptr heap trace].
  destruct (hd true (heap w)); cbn [this buf_ptr heap trace];
    destruct (hd true (tl (heap w))); reflexivity.
Qed.

Lemma DeserializeUnversionedBlob_trace (m : memory) (end_ : N) (w : world) :
  exists evs,
    trace (snd (DeserializeUnversionedBlob m end_ w))
    = trace w ++ EvLegacy (buf_ptr w) :: evs
    /\ Forall (read_below end_) evs.
Proof.
  rewrite DeserializeUnversionedBlob_eq, enter_unversioned_eq. cbv zeta. cbn [fst snd].
  destruct (hd true (heap w) && hd true (tl (heap w))).
  2:{ exists []. cbn [snd trace]. split; [reflexivity | constructor]. }
  match goal with
  | |- context [unversioned_parse_failed m end_ ?w0] =>
      destruct (unversioned_parse_failed m end_ w0) as [failed w1] eqn:E
  end.
  destruct (emits_unversioned_parse_failed m end_ _ _ _ E) as (evs & T & F).
  cbn [trace] in T. cbn [fst snd]. exists evs. split; [|exact F].
  destruct failed.
  - cbn [snd trace]. now rewrite T, <- app_assoc.
  - destruct (lift_trace ExtractKeyCharacteristics w1) as (-> & _).
    now rewrite T, <- app_assoc.
Qed.

Lemma fallback_state_eq (m : memory) (end_ : N) (w : world) :
  fallback_state m end_ w =
  let w1 := snd (versioned_parse_failed m end_ w) in
  mkWorld (this w1) (buf_ptr w) (heap w1) (trace w1).
Proof. reflexivity. Qed.

(** Deserialize enters the unversioned path exactly when the version-0
    parse has failed, and then with the cursor back at the start. *)
Lemma Deserialize_legacy_entries (m : memory) (end_ : N) (w : world) :
  legacy_entries (snd (Deserialize m end_ w))
  = legacy_entries w
      ++ (if fst (versioned_parse_failed m end_ w) then [buf_ptr w] else []).
Proof.
  rewrite Deserialize_eq. cbv zeta.
  destruct (versioned_parse_failed m end_ w) as [failed w1] eqn:E.
  destruct (versioned_parse_failed_trace m end_ _ _ _ E) as (evs & T & F).
  assert (L1 : legacy_entries w1 = legacy_entries w).
  { rewrite (legacy_entries_app w w1 _ T). cbn [legacy_of flat_map app].
    fold (legacy_of evs). rewrite (legacy_of_reads _ _ F). now rewrite app_nil_r. }
  cbn [fst snd]. destruct failed.
  - rewrite fallback_state_eq, E. cbv zeta. cbn [snd].
    match goal with
    | |- context [DeserializeUnversionedBlob m end_ ?w0] =>
        destruct (DeserializeUnversionedBlob_trace m end_ w0) as (evs2 & T2 & F2);
        destruct (DeserializeUnversionedBlob m end_ w0) as [ok w2]
    end.
    cbn [snd trace buf_ptr] in T2. cbn [fst snd].
    assert (L2 : legacy_entries w2 = legacy_entries w ++ [buf_ptr w]).
    { unfold legacy_entries at 1. rewrite T2, flat_map_app. fold (legacy_entries w1).
      rewrite L1. cbn [flat_map app]. fold (legacy_of evs2).
      now rewrite (legacy_of_reads _ _ F2). }
    destruct ok; cbn [snd]; [|exact L2].
    unfold legacy_entries at 1.
    destruct (lift_trace ExtractKeyCharacteristics w2) as (-> & _). exact L2.
  - unfold legacy_entries at 1.
    destruct (lift_trace ExtractKeyCharacteristics w1) as (-> & _).
    fold (legacy_entries w1). now rewrite L1, app_nil_r.
Qed.

(** The first byte Deserialize reads is the one at the cursor, whatever
    [end_] is; every later read is below [end_]. *)
Lemma Deserialize_reads (m : memory) (end_ : N) (w : world) :
  exists rs,
    reads (snd (Deserialize m end_ w)) = reads w ++ buf_ptr w :: rs
    /\ Forall (fun a => a < end_) rs.
Proof.
  rewrite Deserialize_eq. cbv zeta.
  destruct (versioned_parse_failed m end_ w) as [failed w1] eqn:E.
  destruct (versioned_parse_failed_trace m end_ _ _ _ E) as (evs & T & F).
  assert (R1 : reads w1 = reads w ++ buf_ptr w :: reads_of evs).
  { now rewrite (reads_app w w1 _ T). }
  cbn [fst snd]. destruct failed.
  - rewrite fallback_state_eq, E. cbv zeta. cbn [snd].
    match goal with
    | |- context [DeserializeUnversionedBlob m end_ ?w0] =>
        destruct (DeserializeUnversionedBlob_trace m end_ w0) as (evs2 & T2 & F2);
        destruct (DeserializeUnversionedBlob m end_ w0) as [ok w2]
    end.
    cbn [snd trace buf_ptr] in T2. cbn [fst snd].
    assert (R2 : reads w2 = reads w ++ buf_ptr w :: (reads_of evs ++ reads_of evs2)).
    { unfold reads at 1. rewrite T2, flat_map_app. fold (reads w1). rewrite R1.
      cbn [flat_map app]. fold (reads_of evs2). now rewrite <- app_assoc. }
    exists (reads_of evs ++ reads_of evs2). split.
    + destruct ok; cbn [snd]; [|exact R2].
      unfold reads at 1.
      destruct (lift_trace ExtractKeyCharacteristics w2) as (-> & _). exact R2.
    + apply Forall_app. split; now apply reads_of_below.
  - exists (reads_of evs). split; [|now apply reads_of_below].
    unfold reads at 1.
    destruct (lift_trace ExtractKeyCharacteristics w1) as (-> & _). exact R1.
Qed.

(** A successful unversioned parse stores exactly what the unversioned
    layout holds at the cursor. *)
Lemma unversioned_parse_ok_fields (m : memory) (end_ : N) (w w' : world) :
  unversioned_parse_failed m end_ w = (false, w') ->
  let p := buf_ptr w in
  let k := decode_u32 (read_bytes m (p + NONCE_LENGTH) 4) in
  let q := p + NONCE_LENGTH + 4 + k + TAG_LENGTH in
  exists e n1 u n2,
    AS_Deserialize (read_bytes m q (end_ - q)) = Some (e, n1)
    /\ AS_Deserialize (read_bytes m (q + n1) (end_ - (q + n1))) = Some (u, n2)
    /\ this w' =
       set_unenforced u
         (set_enforced e
            (set_tag (Some (read_bytes m (p + NONCE_LENGTH + 4 + k) TAG_LENGTH))
               (set_encrypted_key_material (Some (read_bytes m (p + NONCE_LENGTH + 4) k))
                  (set_key_material_length k
                     (set_nonce (Some (read_bytes m p NONCE_LENGTH)) (this w))))))
    /\ buf_ptr w' = q + n1 + n2
    /\ q <= end_.
Proof.
  cbv zeta. unfold unversioned_parse_failed.
  unfold bind at 1.
  destruct (copy_from_buf m end_ NONCE_LENGTH w) as [[d1|] w1] eqn:E1;
    [|intros [=]].
  apply copy_from_buf_inv in E1. destruct E1 as (T1 & G1 & B1 & -> & P1).
  unfold bind at 1. cbn [modify].
  unfold bind at 1.
  destruct (copy_size_and_data_from_buf m end_ _) as [[[n2 d2]|] w2] eqn:E2;
    [|intros [=]].
  apply copy_size_and_data_from_buf_inv in E2. cbn [this buf_ptr heap trace] in E2.
  destruct E2 as (T2 & B2 & -> & F2 & -> & P2 & A2 & G2).
  unfold bind at 1. cbn [modify]. unfold bind at 1. cbn [modify].
  unfold bind at 1.
  destruct (copy_from_buf m end_ TAG_LENGTH _) as [[d3|] w3] eqn:E3;
    [|intros [=]].
  apply copy_from_buf_inv in E3. cbn [this buf_ptr heap trace] in E3.
  destruct E3 as (T3 & G3 & B3 & -> & P3).
  unfold bind at 1. cbn [modify].
  unfold bind at 1.
  destruct (AS_Deserialize_at m end_ set_enforced _) as [ok4 w4] eqn:E4.
  apply AS_Deserialize_at_inv in E4. cbn [this buf_ptr heap trace] in E4.
  destruct E4 as [G4 E4].
  destruct (AS_Deserialize (read_bytes m (buf_ptr w3) (end_ - buf_ptr w3)))
    as [[e n1]|] eqn:D4.
  2:{ destruct E4 as (-> & _). intros [=]. }
  destruct E4 as (-> & T4 & P4). cbn [negb].
  unfold bind at 1.
  destruct (AS_Deserialize_at m end_ set_unenforced w4) as [ok5 w5] eqn:E5.
  apply AS_Deserialize_at_inv in E5. destruct E5 as [G5 E5].
  destruct (AS_Deserialize (read_bytes m (buf_ptr w4) (end_ - buf_ptr w4)))
    as [[u n5]|] eqn:D5.
  2:{ destruct E5 as (-> & _). intros [=]. }
  destruct E5 as (-> & T5 & P5). intros [= <-].
  rewrite P1 in *. rewrite P2 in *. rewrite P3 in *. rewrite P4 in *.
  exists e, n1, u, n5. repeat split; try assumption.
  rewrite T5, T4, T3, T2, T1. reflexivity.
Qed.

End PathFacts.

(** ** The two attempts together *)

Section FallbackFacts.

Context {AuthorizationSet : Type} `{AuthorizationSetOps AuthorizationSet}.

Local Abbreviation world := (world AuthorizationSet).
Local Abbreviation KeyBlob := (KeyBlob AuthorizationSet).

(** A first byte other than 0, or a nonce length field other than
    NONCE_LENGTH, fails the version-0 parse. *)
Lemma versioned_rejects (m : memory) (end_ : N) (w : world) :
  m (buf_ptr w) <> BLOB_VERSION
  \/ decode_u32 (read_bytes m (buf_ptr w + 1) 4) <> NONCE_LENGTH ->
  fst (versioned_parse_failed m end_ w) = true.
Proof.
  intros Hbad. unfold versioned_parse_failed.
  rewrite (bind_eq _ _ _ _ _ (read_u8_eq m w)).
  destruct (Byte.eqb (m (buf_ptr w)) BLOB_VERSION) eqn:Ev; cbn [negb]; [|reflexivity].
  apply Byte.byte_dec_bl in Ev.
  destruct Hbad as [Hbad|Hbad]; [contradiction|].
  unfold bind at 1.
  destruct (copy_size_and_data_from_buf m end_ _) as [[[n1 d1]|] w1] eqn:E1;
    [|reflexivity].
  apply copy_size_and_data_from_buf_inv in E1. cbn [this buf_ptr heap trace] in E1.
  destruct E1 as (_ & _ & -> & _).
  unfold bind at 1. cbn [modify].
  destruct (N.eqb_spec (decode_u32 (read_bytes m (buf_ptr w + 1) 4)) NONCE_LENGTH);
    [contradiction | reflexivity].
Qed.

Lemma ExtractKeyCharacteristics_fields (kb : KeyBlob) :
  let kb' := snd (ExtractKeyCharacteristics kb) in
  nonce_ kb' = nonce_ kb
  /\ encrypted_key_material_ kb' = encrypted_key_material_ kb
  /\ key_material_length_ kb' = key_material_length_ kb
  /\ tag_ kb' = tag_ kb
  /\ enforced_ kb' = enforced_ kb
  /\ unenforced_ kb' = unenforced_ kb.
Proof.
  cbv zeta. rewrite ExtractKeyCharacteristics_eq.
  destruct (lookup_both kb TAG_ALGORITHM); [|now repeat split].
  destruct (lookup_both kb TAG_KEY_SIZE); now repeat split.
Qed.

Lemma ExtractKeyCharacteristics_verdict (kb : KeyBlob) :
  (fst (ExtractKeyCharacteristics kb) = true
   <-> lookup_both kb TAG_ALGORITHM <> None /\ lookup_both kb TAG_KEY_SIZE <> None)
  /\ (fst (ExtractKeyCharacteristics kb) = false ->
      error_ (snd (ExtractKeyCharacteristics kb)) = KM_ERROR_UNSUPPORTED_ALGORITHM
      \/ error_ (snd (ExtractKeyCharacteristics kb)) = KM_ERROR_UNSUPPORTED_KEY_SIZE).
Proof.
  rewrite ExtractKeyCharacteristics_eq.
  destruct (lookup_both kb TAG_ALGORITHM); [destruct (lookup_both kb TAG_KEY_SIZE)|];
    cbn [fst snd]; (split; [split; [intros E|intros [E1 E2]]|intros E]);
    try discriminate; try congruence; auto.
  all: try (split; discriminate).
  all: try (now left). all: try (now right).
Qed.

Lemma lift_eq {A} (f : KeyBlob -> A * KeyBlob) (w : world) :
  lift f w = (fst (f (this w)),
              mkWorld (snd (f (this w))) (buf_ptr w) (heap w) (trace w)).
Proof. unfold lift. now destruct (f (this w)). Qed.

(** When both parses fail, Deserialize fails with the reason the
    unversioned attempt stored. *)
Lemma Deserialize_fallback_failure (m : memory) (end_ : N) (w : world) :
  fst (versioned_parse_failed m end_ w) = true ->
  let w1 := fallback_state m end_ w in
  (fst (enter_unversioned w1) = false ->
   fst (Deserialize m end_ w) = false
   /\ error_ (this (snd (Deserialize m end_ w))) = KM_ERROR_MEMORY_ALLOCATION_FAILED)
  /\ (fst (enter_unversioned w1) = true ->
      fst (unversioned_parse_failed m end_ (snd (enter_unversioned w1))) = true ->
      fst (Deserialize m end_ w) = false
      /\ error_ (this (snd (Deserialize m end_ w))) = KM_ERROR_INVALID_KEY_BLOB
      /\ encrypted_key_material_ (this (snd (Deserialize m end_ w))) = None).
Proof.
  intros Hv. cbv zeta. rewrite Deserialize_eq, Hv. cbv zeta.
  rewrite DeserializeUnversionedBlob_eq. cbv zeta. split.
  - intros ->. now split.
  - intros -> ->. now repeat split.
Qed.

(** The unversioned parse needs NONCE_LENGTH + 4 + TAG_LENGTH bytes. *)
Lemma unversioned_parse_short (m : memory) (end_ : N) (w : world) :
  end_ < buf_ptr w + NONCE_LENGTH + 4 + TAG_LENGTH ->
  fst (unversioned_parse_failed m end_ w) = true.
Proof.
  intros Hshort.
  destruct (unversioned_parse_failed m end_ w) as [[|] w'] eqn:E; [reflexivity|].
  destruct (unversioned_parse_ok_fields _ _ _ _ E) as (e & n1 & u & n2 & _ & _ & _ & _ & Hq).
  lia.
Qed.

Lemma enter_unversioned_ptr (w : world) :
  buf_ptr (snd (enter_unversioned w)) = buf_ptr w.
Proof. now rewrite enter_unversioned_eq. Qed.

End FallbackFacts.

(** ** Bounds of what is written and of what an empty range gives *)

Section BoundFacts.

Context {AuthorizationSet : Type} `{AuthorizationSetOps AuthorizationSet}.

Local Abbreviation world := (world AuthorizationSet).
Local Abbreviation KeyBlob := (KeyBlob AuthorizationSet).

Lemma append_to_buf_writes (o : out_buffer) (lo buf end_ : N) (data : list byte) (n : N) :
  lo < buf ->
  exists ws,
    owrites (fst (append_to_buf o buf end_ data n)) = owrites o ++ ws
    /\ Forall (fun a => lo < a < end_) ws.
Proof.
  intros Hlo. unfold append_to_buf.
  destruct (N.leb_spec (buf + n) end_).
  - exists (addresses buf n). split.
    + destruct (fetch data n) as [bytes|] eqn:E; [|reflexivity].
      apply fetch_Some in E. destruct E as [<- _]. reflexivity.
    + apply Forall_forall. intros a Ha. apply In_addresses in Ha. lia.
  - exists []. split; [now rewrite app_nil_r | constructor].
Qed.

Lemma append_size_and_data_to_buf_writes (o : out_buffer) (lo buf end_ : N)
      (data : list byte) (n : N) :
  lo < buf ->
  exists ws,
    owrites (fst (append_size_and_data_to_buf o buf end_ data n)) = owrites o ++ ws
    /\ Forall (fun a => lo < a < end_) ws.
Proof.
  intros Hlo. unfold append_size_and_data_to_buf, append_uint32_to_buf.
  destruct (append_to_buf_writes o lo buf end_ (encode_u32 n) 4 Hlo) as (ws1 & E1 & F1).
  pose proof (append_to_buf_pos o buf end_ (encode_u32 n) 4) as P1.
  destruct (append_to_buf o buf end_ (encode_u32 n) 4) as [o1 buf1].
  cbn [fst snd] in E1, P1.
  destruct (append_to_buf_writes o1 lo buf1 end_ data n ltac:(lia)) as (ws2 & E2 & F2).
  exists (ws1 ++ ws2). split.
  - now rewrite E2, E1, app_assoc.
  - now apply Forall_app.
Qed.

(** The version byte goes to [buf] whatever [end_] is; every other write
    is above [buf] and below [end_]. *)
Lemma Serialize_writes (kb : KeyBlob) (o : out_buffer) (buf end_ : N) :
  exists ws,
    owrites (fst (Serialize kb o buf end_)) = owrites o ++ buf :: ws
    /\ Forall (fun a => buf < a < end_) ws.
Proof.
  unfold Serialize, AS_Serialize.
  set (o0 := put o buf [BLOB_VERSION]).
  assert (E0 : owrites o0 = owrites o ++ [buf]).
  { unfold o0. cbn [put owrites].
    change (addresses buf (len [BLOB_VERSION])) with [buf + 0]. now rewrite N.add_0_r. }
  destruct (append_size_and_data_to_buf_writes o0 buf (buf + 1) end_ (nonce kb) NONCE_LENGTH
              ltac:(lia)) as (ws1 & E1 & F1).
  pose proof (append_size_and_data_to_buf_pos o0 (buf + 1) end_ (nonce kb) NONCE_LENGTH) as P1.
  destruct (append_size_and_data_to_buf o0 (buf + 1) end_ (nonce kb) NONCE_LENGTH)
    as [o1 b1]. cbn [fst snd] in E1, P1.
  destruct (append_size_and_data_to_buf_writes o1 buf b1 end_ (encrypted_key_material kb)
              (key_material_length kb) ltac:(lia)) as (ws2 & E2 & F2).
  pose proof (append_size_and_data_to_buf_pos o1 b1 end_ (encrypted_key_material kb)
                (key_material_length kb)) as P2.
  destruct (append_size_and_data_to_buf o1 b1 end_ (encrypted_key_material kb)
              (key_material_length kb)) as [o2 b2]. cbn [fst snd] in E2, P2.
  destruct (append_size_and_data_to_buf_writes o2 buf b2 end_ (tag kb) TAG_LENGTH
              ltac:(lia)) as (ws3 & E3 & F3).
  pose proof (append_size_and_data_to_buf_pos o2 b2 end_ (tag kb) TAG_LENGTH) as P3.
  destruct (append_size_and_data_to_buf o2 b2 end_ (tag kb) TAG_LENGTH) as [o3 b3].
  cbn [fst snd] in E3, P3.
  destruct (append_to_buf_writes o3 buf b3 end_ (AS_bytes (enforced_ kb))
              (len (AS_bytes (enforced_ kb))) ltac:(lia)) as (ws4 & E4 & F4).
  pose proof (append_to_buf_pos o3 b3 end_ (AS_bytes (enforced_ kb))
                (len (AS_bytes (enforced_ kb)))) as P4.
  destruct (append_to_buf o3 b3 end_ (AS_bytes (enforced_ kb))
              (len (AS_bytes (enforced_ kb)))) as [o4 b4]. cbn [fst snd] in E4, P4.
  destruct (append_to_buf_writes o4 buf b4 end_ (AS_bytes (unenforced_ kb))
              (len (AS_bytes (unenforced_ kb))) ltac:(lia)) as (ws5 & E5 & F5).
  destruct (append_to_buf o4 b4 end_ (AS_bytes (unenforced_ kb))
              (len (AS_bytes (unenforced_ kb)))) as [o5 b5]. cbn [fst snd] in E5.
  exists (ws1 ++ ws2 ++ ws3 ++ ws4 ++ ws5). cbn [fst]. split.
  - rewrite E5, E4, E3, E2, E1, E0. rewrite <- !app_assoc. reflexivity.
  - repeat (apply Forall_app; split); assumption.
Qed.

(** On an empty range both parses fail. *)
Lemma empty_range_fails (m : memory) (end_ : N) (w : world) :
  end_ <= buf_ptr w -> fst (Deserialize m end_ w) = false.
Proof.
  intros He.
  assert (Hv : fst (versioned_parse_failed m end_ w) = true).
  { unfold versioned_parse_failed.
    rewrite (bind_eq _ _ _ _ _ (read_u8_eq m w)).
    destruct (negb _); [reflexivity|].
    unfold bind at 1.
    destruct (copy_size_and_data_from_buf m end_ _) as [[[n d]|] w1] eqn:E;
      [|reflexivity].
    apply copy_size_and_data_from_buf_inv in E. cbn [this buf_ptr heap trace] in E.
    destruct E as (_ & B & _). lia. }
  destruct (Deserialize_fallback_failure m end_ w Hv) as [Hf1 Hf2]. cbv zeta in Hf1, Hf2.
  destruct (fst (enter_unversioned (fallback_state m end_ w))) eqn:Ea.
  - apply Hf2; [reflexivity|].
    apply unversioned_parse_short. rewrite enter_unversioned_ptr.
    change (buf_ptr (fallback_state m end_ w)) with (buf_ptr w).
    unfold NONCE_LENGTH, TAG_LENGTH. lia.
  - now apply Hf1.
Qed.

End BoundFacts.

(** ** Allocations *)

Section HeapFacts.

Context {AuthorizationSet : Type} `{AuthorizationSetOps AuthorizationSet}.

Local Abbreviation world := (world AuthorizationSet).
Local Abbreviation M := (M AuthorizationSet).
Local Abbreviation KeyBlob := (KeyBlob AuthorizationSet).
Local Abbreviation consumes c := (@consumes AuthorizationSet _ c).

Lemma consumes_ret {A} (a : A) : consumes (ret a).
Proof. intros w a' w' [= <- <-]. now exists 0%nat. Qed.

Lemma consumes_bind {A B} (c : M A) (k : A -> M B) :
  consumes c -> (forall a, consumes (k a)) -> consumes (bind c k).
Proof.
  intros Hc Hk w b w'. unfold bind.
  destruct (c w) as [a w1] eqn:E1. intros E2.
  destruct (Hc _ _ _ E1) as (k1 & G1).
  destruct (Hk a _ _ _ E2) as (k2 & G2).
  exists (k1 + k2)%nat. rewrite G2, G1, skipn_skipn. f_equal. lia.
Qed.

Lemma consumes_get_ptr : consumes (@get_ptr AuthorizationSet).
Proof. intros w a w' [= <- <-]. now exists 0%nat. Qed.

Lemma consumes_set_ptr (p : N) : consumes (@set_ptr AuthorizationSet p).
Proof. intros w a w' [= <- <-]. now exists 0%nat. Qed.

Lemma consumes_emit (evs : list event) : consumes (@emit AuthorizationSet evs).
Proof. intros w a w' [= <- <-]. now exists 0%nat. Qed.

Lemma consumes_modify (f : KeyBlob -> KeyBlob) : consumes (modify f).
Proof. intros w a w' [= <- <-]. now exists 0%nat. Qed.

Lemma consumes_lift {A} (f : KeyBlob -> A * KeyBlob) : consumes (lift f).
Proof.
  intros w a w'. unfold lift. destruct (f (this w)). intros [= <- <-]. now exists 0%nat.
Qed.

Lemma consumes_new_array (n : N) : consumes (@new_array AuthorizationSet n).
Proof.
  intros w a w'. unfold new_array.
  destruct (hd true (heap w)); intros [= <- <-]; exists 1%nat; cbn [heap];
    now destruct (heap w).
Qed.

Lemma consumes_if {A} (b : bool) (c1 c2 : M A) :
  consumes c1 -> consumes c2 -> consumes (if b then c1 else c2).
Proof. now destruct b. Qed.

Ltac consumes_steps :=
  repeat first
    [ apply consumes_ret
    | apply consumes_modify
    | apply consumes_set_ptr
    | apply consumes_get_ptr
    | apply consumes_emit
    | apply consumes_lift
    | apply consumes_new_array
    | apply consumes_bind; [|intros ?]
    | apply consumes_if
    | match goal with
      | |- consumes (match ?x with _ => _ end) => destruct x
      | |- consumes (let _ := _ in _) => cbv zeta
      end ].

Lemma consumes_versioned_parse_failed (m : memory) (end_ : N) :
  consumes (versioned_parse_failed m end_).
Proof.
  unfold versioned_parse_failed, read_u8, copy_size_and_data_from_buf, AS_Deserialize_at.
  consumes_steps.
Qed.

Lemma heap_ok_skipn (k : nat) (h : list bool) : heap_ok h -> heap_ok (skipn k h).
Proof.
  revert h. induction k as [|k IH]; intros h Hh; [exact Hh|].
  destruct h as [|b h]; [exact Hh|]. cbn [skipn]. apply IH.
  now apply (heap_ok_tl (b :: h)).
Qed.

(** When every allocation succeeds, those of the unversioned attempt that
    follows a failed version-0 attempt do. *)
Lemma fallback_allocates (m : memory) (end_ : N) (w : world) :
  heap_ok (heap w) -> fst (enter_unversioned (fallback_state m end_ w)) = true.
Proof.
  intros Hh. rewrite enter_unversioned_eq. cbn [fst].
  rewrite fallback_state_eq. cbv zeta. cbn [heap].
  destruct (versioned_parse_failed m end_ w) as [r w1] eqn:E.
  destruct (consumes_versioned_parse_failed m end_ _ _ _ E) as (k & G).
  cbn [snd]. rewrite G.
  pose proof (heap_ok_skipn k _ Hh) as Hk.
  rewrite (heap_ok_hd _ Hk), (heap_ok_hd _ (heap_ok_tl _ Hk)). reflexivity.
Qed.

(** The version-0 parse needs the whole header. *)
Lemma versioned_parse_needs_header (m : memory) (end_ : N) (w : world)
      (nonce ct tg R : list byte) :
  len nonce = NONCE_LENGTH -> len tg = TAG_LENGTH -> len ct < UINT32_LIMIT ->
  input_at m (buf_ptr w) end_ (header_bytes nonce ct tg ++ R) ->
  end_ < buf_ptr w + len (header_bytes nonce ct tg) ->
  fst (versioned_parse_failed m end_ w) = true.
Proof.
  intros Hn Ht Hct Hin Hshort.
  destruct (versioned_parse_failed m end_ w) as [r w'] eqn:E.
  destruct (versioned_header _ _ _ _ _ _ _ _ _ Hn Ht Hct Hin E)
    as [[-> _] | (w1 & _ & P1 & [Hle _] & _)]; [reflexivity|].
  lia.
Qed.

(** An input in the unversioned layout parses as such. *)
Lemma unversioned_parse_ok (m : memory) (end_ : N) (w : world)
      (nonce ct tg rest : list byte) (e u : AuthorizationSet) (n1 n2 : N) :
  len nonce = NONCE_LENGTH -> len tg = TAG_LENGTH -> len ct < UINT32_LIMIT ->
  buf_ptr w <= end_ ->
  read_bytes m (buf_ptr w) (end_ - buf_ptr w)
  = nonce ++ encode_u32 (len ct) ++ ct ++ tg ++ rest ->
  AS_Deserialize rest = Some (e, n1) ->
  AS_Deserialize (skipn (N.to_nat n1) rest) = Some (u, n2) ->
  hd true (heap w) = true ->
  exists w', unversioned_parse_failed m end_ w = (false, w')
             /\ this w' = set_unenforced u (set_enforced e
                            (parsed_fields nonce ct tg (this w))).
Proof.
  intros Hn Ht Hct Hp Hmem He Hu Hheap.
  pose proof (input_at_exact _ _ _ _ Hp Hmem) as Hin.
  assert (Hlen : end_ - buf_ptr w = NONCE_LENGTH + 4 + len ct + TAG_LENGTH + len rest).
  { apply (f_equal len) in Hmem.
    rewrite len_read_bytes, !len_app, len_encode_u32, Hn, Ht in Hmem. lia. }
  unfold unversioned_parse_failed.
  unfold bind at 1.
  destruct (copy_from_buf m end_ NONCE_LENGTH w) as [r1 w1] eqn:E1.
  apply copy_from_buf_inv in E1. destruct E1 as (T1 & G1 & E1).
  destruct r1 as [d1|]; [|lia].
  destruct E1 as (_ & -> & P1).
  apply input_at_step in Hin; [|rewrite Hn; lia].
  rewrite Hn in Hin. destruct Hin as [-> Hin].
  unfold bind at 1. cbn [modify]. unfold bind at 1.
  destruct (copy_size_and_data_from_buf m end_ _) as [r2 w2] eqn:E2.
  apply copy_size_and_data_from_buf_inv in E2. cbn [this buf_ptr heap trace] in E2.
  destruct E2 as (T2 & E2).
  rewrite <- P1 in Hin.
  apply input_at_u32 in Hin; [|lia|exact Hct]. destruct Hin as [D Hin].
  rewrite D in E2.
  destruct r2 as [[n d2]|].
  2:{ destruct E2 as (_ & [E2|[E2|E2]]); [lia | lia | congruence]. }
  destruct E2 as (_ & -> & _ & -> & P2 & _ & G2).
  apply input_at_step in Hin; [|lia]. destruct Hin as [-> Hin].
  unfold bind at 1. cbn [modify]. unfold bind at 1. cbn [modify].
  unfold bind at 1.
  destruct (copy_from_buf m end_ TAG_LENGTH _) as [r3 w3] eqn:E3.
  apply copy_from_buf_inv in E3. cbn [this buf_ptr heap trace] in E3.
  destruct E3 as (T3 & G3 & E3).
  rewrite <- P2 in Hin.
  destruct r3 as [d3|]; [|lia].
  destruct E3 as (_ & -> & P3).
  apply input_at_step in Hin; [|rewrite Ht; lia].
  rewrite Ht in Hin. destruct Hin as [-> Hin].
  unfold bind at 1. cbn [modify].
  rewrite <- P3 in Hin.
  assert (Hrest : read_bytes m (buf_ptr w3) (end_ - buf_ptr w3) = rest).
  { destruct Hin as [_ ->]. apply firstn_all2. unfold len in *. lia. }
  fold (sets_parse_failed m end_).
  match goal with
  | |- context [sets_parse_failed m end_ ?x] =>
      destruct (sets_parse_ok m end_ x rest e u n1 n2 Hrest He Hu)
        as (w5 & E5 & T5 & _)
  end.
  exists w5. split; [exact E5|].
  rewrite T5. cbn [this]. rewrite T3, T2, T1. reflexivity.
Qed.

End HeapFacts.

(** ** Blobs in the unversioned layout *)

Section LegacyFacts.

Context {AuthorizationSet : Type} `{AuthorizationSetOps AuthorizationSet}.

Local Abbreviation world := (world AuthorizationSet).
Local Abbreviation KeyBlob := (KeyBlob AuthorizationSet).

Lemma lookup_both_sets (a b : KeyBlob) :
  enforced_ a = enforced_ b -> unenforced_ a = unenforced_ b ->
  lookup_both a = lookup_both b.
Proof. unfold lookup_both. now intros -> ->. Qed.

Lemma fallback_heap_ok (m : memory) (end_ : N) (w : world) :
  heap_ok (heap w) ->
  heap_ok (heap (snd (enter_unversioned (fallback_state m end_ w)))).
Proof.
  intros Hh. rewrite enter_unversioned_eq. cbn [snd heap].
  rewrite fallback_state_eq. cbv zeta. cbn [heap].
  destruct (versioned_parse_failed m end_ w) as [r w1] eqn:E.
  destruct (consumes_versioned_parse_failed m end_ _ _ _ E) as (k & G).
  cbn [snd]. rewrite G. now apply heap_ok_tl, heap_ok_tl, heap_ok_skipn.
Qed.

(** The bytes of a blob that SetEncryptedKey has filled. *)
Lemma blob_bytes_SetEncryptedKey (e u : AuthorizationSet)
      (ciphertext nonce_bytes tag_bytes : list byte) :
  len nonce_bytes = NONCE_LENGTH -> len tag_bytes = TAG_LENGTH ->
  blob_bytes (SetEncryptedKey ciphertext (len ciphertext) nonce_bytes tag_bytes
                              (KeyBlob_of_sets e u))
  = header_bytes nonce_bytes ciphertext tag_bytes ++ AS_bytes e ++ AS_bytes u.
Proof.
  intros _ _. reflexivity.
Qed.

(** SetEncryptedKey with buffers of the lengths it is told leaves an
    object whose buffers hold what it declares. *)
Lemma buffers_sized_SetEncryptedKey (kb : KeyBlob)
      (ciphertext nonce_bytes tag_bytes : list byte) :
  len nonce_bytes = NONCE_LENGTH -> len tag_bytes = TAG_LENGTH ->
  len ciphertext < UINT32_LIMIT ->
  buffers_sized (SetEncryptedKey ciphertext (len ciphertext) nonce_bytes tag_bytes kb).
Proof.
  intros Hn Ht Hc. unfold buffers_sized.
  split; [now exists nonce_bytes|]. split; [now exists ciphertext|].
  split; [now exists tag_bytes | exact Hc].
Qed.

(** An input in the unversioned layout that fails the version-0 parse is
    deserialized through the unversioned path: its fields are stored and
    the answer is that of characteristic extraction. *)
Lemma Deserialize_unversioned_layout (m : memory) (end_ : N) (w : world)
      (nonce_bytes ciphertext tag_bytes rest : list byte)
      (e u : AuthorizationSet) (n1 n2 : N) :
  len nonce_bytes = NONCE_LENGTH -> len tag_bytes = TAG_LENGTH ->
  len ciphertext < UINT32_LIMIT ->
  buf_ptr w <= end_ ->
  read_bytes m (buf_ptr w) (end_ - buf_ptr w)
  = nonce_bytes ++ encode_u32 (len ciphertext) ++ ciphertext ++ tag_bytes ++ rest ->
  AS_Deserialize rest = Some (e, n1) ->
  AS_Deserialize (skipn (N.to_nat n1) rest) = Some (u, n2) ->
  heap_ok (heap w) ->
  fst (versioned_parse_failed m end_ w) = true ->
  let r := Deserialize m end_ w in
  nonce_ (this (snd r)) = Some nonce_bytes
  /\ encrypted_key_material_ (this (snd r)) = Some ciphertext
  /\ key_material_length_ (this (snd r)) = len ciphertext
  /\ tag_ (this (snd r)) = Some tag_bytes
  /\ enforced_ (this (snd r)) = e
  /\ unenforced_ (this (snd r)) = u
  /\ (fst r = true
      <-> lookup_both (KeyBlob_of_sets e u) TAG_ALGORITHM <> None
          /\ lookup_both (KeyBlob_of_sets e u) TAG_KEY_SIZE <> None).
Proof.
  intros Hn Ht Hct Hp Hmem He Hu Hheap Hv. cbv zeta.
  rewrite Deserialize_eq, Hv. cbv zeta.
  rewrite DeserializeUnversionedBlob_eq. cbv zeta.
  rewrite (fallback_allocates m end_ w Hheap).
  set (w0 := snd (enter_unversioned (fallback_state m end_ w))).
  assert (P0 : buf_ptr w0 = buf_ptr w)
    by (unfold w0; rewrite enter_unversioned_ptr; reflexivity).
  assert (H0 : hd true (heap w0) = true)
    by (apply heap_ok_hd, fallback_heap_ok, Hheap).
  rewrite <- P0 in Hp, Hmem.
  destruct (unversioned_parse_ok m end_ w0 _ _ _ _ e u n1 n2 Hn Ht Hct Hp Hmem He Hu H0)
    as (w' & E & T).
  rewrite E. cbn [fst snd]. rewrite !lift_eq. cbn [fst snd this].
  set (kb1 := this w') in *.
  set (kb2 := snd (ExtractKeyCharacteristics kb1)).
  destruct (ExtractKeyCharacteristics_fields kb1) as (F1 & F2 & F3 & F4 & F5 & F6).
  destruct (ExtractKeyCharacteristics_fields kb2) as (G1 & G2 & G3 & G4 & G5 & G6).
  cbv zeta in F1, F2, F3, F4, F5, F6, G1, G2, G3, G4, G5, G6. fold kb2 in F1, F2, F3, F4, F5, F6.
  assert (L1 : lookup_both kb1 = lookup_both (KeyBlob_of_sets e u)).
  { apply lookup_both_sets; rewrite T; reflexivity. }
  assert (L2 : lookup_both kb2 = lookup_both (KeyBlob_of_sets e u)).
  { rewrite <- L1. now apply lookup_both_sets. }
  destruct (ExtractKeyCharacteristics_verdict kb1) as (V1 & _).
  destruct (ExtractKeyCharacteristics_verdict kb2) as (V2 & _).
  rewrite L1 in V1. rewrite L2 in V2.
  destruct (fst (ExtractKeyCharacteristics kb1)) eqn:Ek; cbn [fst snd this].
  - rewrite G1, G2, G3, G4, G5, G6, F1, F2, F3, F4, F5, F6, T.
    do 6 (split; [reflexivity|]). split.
    + intros _. now apply V1.
    + intros Hc. now apply V2.
  - fold kb2. rewrite F1, F2, F3, F4, F5, F6, T.
    do 6 (split; [reflexivity|]). split; [discriminate|].
    intros Hc. apply V1 in Hc. discriminate.
Qed.

(** Whatever policy sets the collaborator offers, some serialized blob has
    a proper prefix that Deserialize accepts: the blob with a zero nonce
    whose ciphertext is 11 bytes followed by the bytes of two policy sets
    that carry both characteristics, cut after its ciphertext. *)
Lemma truncation_accepted (e u : AuthorizationSet) (tag_bytes : list byte)
      (m : memory) (w : world) :
  roundtrips e -> roundtrips u -> len tag_bytes = TAG_LENGTH ->
  lookup_both (KeyBlob_of_sets e u) TAG_ALGORITHM <> None ->
  lookup_both (KeyBlob_of_sets e u) TAG_KEY_SIZE <> None ->
  let ciphertext := repeat x00 11 ++ AS_bytes e ++ AS_bytes u in
  len ciphertext < UINT32_LIMIT ->
  let kb := SetEncryptedKey ciphertext (len ciphertext) (repeat x00 12) tag_bytes
                            (KeyBlob_of_sets e u) in
  let end_ := buf_ptr w + 21 + len ciphertext in
  heap_ok (heap w) ->
  input_at m (buf_ptr w) end_ (blob_bytes kb) ->
  end_ - buf_ptr w < len (blob_bytes kb)
  /\ fst (Deserialize m end_ w) = true
  /\ key_material_length_ (this (snd (Deserialize m end_ w))) = 0.
Proof.
  intros Re Ru Ht Ha Hk ciphertext Hct kb end_ Hheap Hin.
  assert (Hb : blob_bytes kb
               = header_bytes (repeat x00 12) ciphertext tag_bytes
                   ++ AS_bytes e ++ AS_bytes u)
    by (now apply blob_bytes_SetEncryptedKey).
  assert (Hh : len (header_bytes (repeat x00 12) ciphertext tag_bytes) = 41 + len ciphertext)
    by (now apply len_header_bytes).
  assert (Hshort : end_ - buf_ptr w < len (blob_bytes kb)).
  { rewrite Hb, len_app, Hh. unfold end_. lia. }
  split; [exact Hshort|].
  rewrite Hb in Hin.
  assert (Hv : fst (versioned_parse_failed m end_ w) = true).
  { apply (versioned_parse_needs_header m end_ w (repeat x00 12) ciphertext tag_bytes
             (AS_bytes e ++ AS_bytes u)); try assumption; try reflexivity.
    rewrite Hh. unfold end_. lia. }
  (* the same bytes, read in the unversioned layout *)
  assert (Hmem : read_bytes m (buf_ptr w) (end_ - buf_ptr w)
                 = (BLOB_VERSION :: encode_u32 NONCE_LENGTH ++ repeat x00 7)
                     ++ encode_u32 (len (@nil byte)) ++ []
                     ++ (x00 :: encode_u32 (len ciphertext) ++ repeat x00 11)
                     ++ (AS_bytes e ++ AS_bytes u)).
  { destruct Hin as [_ ->].
    assert (Hsplit :
              header_bytes (repeat x00 12) ciphertext tag_bytes ++ AS_bytes e ++ AS_bytes u
              = ((BLOB_VERSION :: encode_u32 NONCE_LENGTH ++ repeat x00 7)
                   ++ encode_u32 (len (@nil byte)) ++ []
                   ++ (x00 :: encode_u32 (len ciphertext) ++ repeat x00 11)
                   ++ (AS_bytes e ++ AS_bytes u))
                  ++ (encode_u32 TAG_LENGTH ++ tag_bytes ++ AS_bytes e ++ AS_bytes u)).
    { unfold header_bytes.
      change (encode_u32 (len [])) with (repeat x00 4).
      generalize (encode_u32 NONCE_LENGTH) (encode_u32 (len ciphertext))
                 (encode_u32 TAG_LENGTH).
      intros NL L TL. unfold ciphertext.
      cbn [repeat app].
      repeat (progress (rewrite <- ?app_assoc; cbn [app])). reflexivity. }
    rewrite Hsplit. rewrite firstn_app.
    match goal with
    | |- firstn ?k ?L ++ firstn (?k - length ?L) ?R = ?L =>
        assert (Hk2 : k = length L)
    end.
    { unfold end_.
      replace (buf_ptr w + 21 + len ciphertext - buf_ptr w) with (21 + len ciphertext)
        by lia.
      unfold ciphertext, len.
      repeat (rewrite ?length_app, ?repeat_length, ?length_encode_u32; cbn [length]).
      lia. }
    rewrite Hk2, Nat.sub_diag, firstn_all. cbn [firstn]. now rewrite app_nil_r. }
  assert (Hp : buf_ptr w <= end_) by (unfold end_; lia).
  destruct (Deserialize_unversioned_layout m end_ w
              (BLOB_VERSION :: encode_u32 NONCE_LENGTH ++ repeat x00 7) []
              (x00 :: encode_u32 (len ciphertext) ++ repeat x00 11)
              (AS_bytes e ++ AS_bytes u) e u (len (AS_bytes e)) (len (AS_bytes u)))
    as (_ & _ & K & _ & _ & _ & V); try assumption; try reflexivity.
  - apply Re.
  - unfold len at 1. rewrite Nat2N.id, skipn_app, skipn_all, Nat.sub_diag.
    cbn [skipn app]. rewrite <- (app_nil_r (AS_bytes u)) at 1. apply Ru.
  - cbv zeta in K, V. split; [apply V; now split | exact K].
Qed.

End LegacyFacts.

(** ** What an accepted input looks like *)

Lemma decode_le_bound (l : list byte) :
  (length l <= 4)%nat -> decode_le l < UINT32_LIMIT.
Proof.
  unfold UINT32_LIMIT.
  destruct l as [|b0 [|b1 [|b2 [|b3 [|b4 l]]]]]; cbn [length decode_le]; intros L;
    try (pose proof (Byte.to_N_bounded b0));
    try (pose proof (Byte.to_N_bounded b1));
    try (pose proof (Byte.to_N_bounded b2));
    try (pose proof (Byte.to_N_bounded b3));
    lia.
Qed.

Lemma decode_u32_bound (l : list byte) : decode_u32 l < UINT32_LIMIT.
Proof.
  unfold decode_u32. apply decode_le_bound. rewrite length_firstn. lia.
Qed.

Section AcceptedFacts.

Context {AuthorizationSet : Type} `{AuthorizationSetOps AuthorizationSet}.

Local Abbreviation world := (world AuthorizationSet).
Local Abbreviation M := (M AuthorizationSet).
Local Abbreviation KeyBlob := (KeyBlob AuthorizationSet).

(** A successful version-0 parse has found the version byte and the two
    fixed lengths, and stores exactly what the version-0 layout holds at the
    cursor. *)
Lemma versioned_parse_ok_fields (m : memory) (end_ : N) (w w' : world) :
  versioned_parse_failed m end_ w = (false, w') ->
  let p := buf_ptr w in
  let k := decode_u32 (read_bytes m (p + 1 + 4 + NONCE_LENGTH) 4) in
  let q := p + 1 + 4 + NONCE_LENGTH + 4 + k + 4 + TAG_LENGTH in
  m p = BLOB_VERSION
  /\ decode_u32 (read_bytes m (p + 1) 4) = NONCE_LENGTH
  /\ decode_u32 (read_bytes m (p + 1 + 4 + NONCE_LENGTH + 4 + k) 4) = TAG_LENGTH
  /\ q <= end_
  /\ exists e n1 u n2,
       AS_Deserialize (read_bytes m q (end_ - q)) = Some (e, n1)
       /\ AS_Deserialize (read_bytes m (q + n1) (end_ - (q + n1))) = Some (u, n2)
       /\ this w' =
          set_unenforced u
            (set_enforced e
               (set_tag
                  (Some (read_bytes m (p + 1 + 4 + NONCE_LENGTH + 4 + k + 4) TAG_LENGTH))
                  (set_encrypted_key_material
                     (Some (read_bytes m (p + 1 + 4 + NONCE_LENGTH + 4) k))
                     (set_key_material_length k
                        (set_nonce (Some (read_bytes m (p + 1 + 4) NONCE_LENGTH))
                                   (this w))))))
       /\ buf_ptr w' = q + n1 + n2.
Proof.
  cbv zeta. unfold versioned_parse_failed.
  rewrite (bind_eq _ _ _ _ _ (read_u8_eq m w)).
  destruct (Byte.eqb (m (buf_ptr w)) BLOB_VERSION) eqn:Ev; cbn [negb]; [|intros [=]].
  apply Byte.byte_dec_bl in Ev.
  unfold bind at 1.
  destruct (copy_size_and_data_from_buf m end_ _) as [[[n1 d1]|] w1] eqn:E1;
    [|intros [=]].
  apply copy_size_and_data_from_buf_inv in E1. cbn [this buf_ptr heap trace] in E1.
  destruct E1 as (T1 & _ & -> & _ & -> & P1 & _ & _).
  unfold bind at 1. cbn [modify].
  destruct (N.eqb_spec (decode_u32 (read_bytes m (buf_ptr w + 1) 4)) NONCE_LENGTH)
    as [EN|EN]; cbn [negb]; [|intros [=]].
  rewrite EN in *.
  unfold bind at 1.
  destruct (copy_size_and_data_from_buf m end_ _) as [[[n2 d2]|] w2] eqn:E2;
    [|intros [=]].
  apply copy_size_and_data_from_buf_inv in E2. cbn [this buf_ptr heap trace] in E2.
  destruct E2 as (T2 & _ & -> & _ & -> & P2 & _ & _).
  unfold bind at 1. cbn [modify]. unfold bind at 1. cbn [modify].
  unfold bind at 1.
  destruct (copy_size_and_data_from_buf m end_ _) as [[[n3 d3]|] w3] eqn:E3;
    [|intros [=]].
  apply copy_size_and_data_from_buf_inv in E3. cbn [this buf_ptr heap trace] in E3.
  destruct E3 as (T3 & _ & -> & F3 & -> & P3 & _ & _).
  unfold bind at 1. cbn [modify].
  rewrite P1 in *. rewrite P2 in *.
  set (k := decode_u32 (read_bytes m (buf_ptr w + 1 + 4 + NONCE_LENGTH) 4)) in *.
  destruct (N.eqb_spec (decode_u32 (read_bytes m (buf_ptr w + 1 + 4 + NONCE_LENGTH + 4 + k) 4))
                       TAG_LENGTH) as [ET|ET]; cbn [negb]; [|intros [=]].
  rewrite ET in *.
  unfold bind at 1.
  destruct (AS_Deserialize_at m end_ set_enforced _) as [ok4 w4] eqn:E4.
  apply AS_Deserialize_at_inv in E4. cbn [this buf_ptr heap trace] in E4.
  destruct E4 as [_ E4]. rewrite P3 in E4.
  destruct (AS_Deserialize _) as [[e n4]|] eqn:D4 in E4.
  2:{ destruct E4 as (-> & _). intros [=]. }
  destruct E4 as (-> & T4 & P4). cbn [negb].
  unfold bind at 1.
  destruct (AS_Deserialize_at m end_ set_unenforced w4) as [ok5 w5] eqn:E5.
  apply AS_Deserialize_at_inv in E5. destruct E5 as [_ E5]. rewrite P4 in E5.
  destruct (AS_Deserialize _) as [[u n5]|] eqn:D5 in E5.
  2:{ destruct E5 as (-> & _). intros [=]. }
  destruct E5 as (-> & T5 & P5). intros [= <-].
  split; [exact Ev|]. split; [first [exact EN|reflexivity]|].
  split; [first [exact ET|reflexivity]|]. split; [exact F3|].
  exists e, n4, u, n5. split; [exact D4|]. split; [exact D5|]. split; [|exact P5].
  rewrite T5, T4, T3, T2, T1. reflexivity.
Qed.

(** An extraction that succeeds has stored the first value found of each
    characteristic. *)
Lemma ExtractKeyCharacteristics_stored (kb : KeyBlob) :
  fst (ExtractKeyCharacteristics kb) = true ->
  let kb' := snd (ExtractKeyCharacteristics kb) in
  lookup_both kb' TAG_ALGORITHM = Some (algorithm_ kb')
  /\ lookup_both kb' TAG_KEY_SIZE = Some (key_size_bits_ kb')
  /\ error_ kb' = error_ kb.
Proof.
  cbv zeta. rewrite ExtractKeyCharacteristics_eq.
  destruct (lookup_both kb TAG_ALGORITHM) as [a|] eqn:Ea; [|intros [=]].
  destruct (lookup_both kb TAG_KEY_SIZE) as [k|] eqn:Ek; [|intros [=]].
  intros _. cbn [snd].
  replace (lookup_both (set_key_size_bits k (set_algorithm a kb))) with (lookup_both kb)
    by reflexivity.
  now rewrite Ea, Ek.
Qed.

(** Extracting twice is extracting once. *)
Lemma ExtractKeyCharacteristics_twice (kb : KeyBlob) :
  ExtractKeyCharacteristics (snd (ExtractKeyCharacteristics kb))
  = ExtractKeyCharacteristics kb.
Proof.
  rewrite (ExtractKeyCharacteristics_eq kb).
  destruct (lookup_both kb TAG_ALGORITHM) as [a|] eqn:Ea.
  - destruct (lookup_both kb TAG_KEY_SIZE) as [k|] eqn:Ek; cbn [snd];
      rewrite ExtractKeyCharacteristics_eq.
    + replace (lookup_both (set_key_size_bits k (set_algorithm a kb))) with (lookup_both kb)
        by reflexivity.
      now rewrite Ea, Ek.
    + replace (lookup_both (set_error KM_ERROR_UNSUPPORTED_KEY_SIZE (set_algorithm a kb)))
        with (lookup_both kb) by reflexivity.
      now rewrite Ea, Ek.
  - cbn [snd]. rewrite ExtractKeyCharacteristics_eq.
    replace (lookup_both (set_error KM_ERROR_UNSUPPORTED_ALGORITHM kb))
      with (lookup_both kb) by reflexivity.
    now rewrite Ea.
Qed.

(** After a failed version-0 parse, Deserialize is
    DeserializeUnversionedBlob from the start of the input. *)
Lemma Deserialize_fallback_eq (m : memory) (end_ : N) (w : world) :
  fst (versioned_parse_failed m end_ w) = true ->
  Deserialize m end_ w = DeserializeUnversionedBlob m end_ (fallback_state m end_ w).
Proof.
  intros Hv. rewrite Deserialize_eq, Hv. cbv zeta.
  rewrite DeserializeUnversionedBlob_eq. cbv zeta.
  destruct (fst (enter_unversioned (fallback_state m end_ w))); [|reflexivity].
  destruct (fst (unversioned_parse_failed m end_ _)); [reflexivity|].
  rewrite !lift_eq. cbn [fst snd this buf_ptr heap trace].
  rewrite ExtractKeyCharacteristics_twice.
  destruct (fst (ExtractKeyCharacteristics _)); reflexivity.
Qed.

(** The object of an accepted input: stored by one of the two parses, then
    passed through a successful extraction. *)
Lemma Deserialize_accepted (m : memory) (end_ : N) (w : world) :
  fst (Deserialize m end_ w) = true ->
  exists w1,
    (versioned_parse_failed m end_ w = (false, w1)
     \/ (fst (versioned_parse_failed m end_ w) = true
         /\ unversioned_parse_failed m end_ (snd (enter_unversioned (fallback_state m end_ w)))
            = (false, w1)))
    /\ fst (ExtractKeyCharacteristics (this w1)) = true
    /\ Deserialize m end_ w = lift ExtractKeyCharacteristics w1.
Proof.
  destruct (versioned_parse_failed m end_ w) as [failed w1] eqn:Ev.
  destruct failed.
  - rewrite Deserialize_fallback_eq by (now rewrite Ev).
    rewrite DeserializeUnversionedBlob_eq. cbv zeta.
    destruct (fst (enter_unversioned (fallback_state m end_ w))); [|intros [=]].
    destruct (unversioned_parse_failed m end_ _) as [f w2] eqn:Eu.
    destruct f; cbn [fst snd]; [intros [=]|].
    intros Hx. exists w2. split; [right; now split|].
    rewrite lift_eq in Hx. cbn [fst] in Hx. now split.
  - rewrite Deserialize_eq, Ev. cbn [fst snd]. intros Hx.
    exists w1. split; [now left|].
    rewrite lift_eq in Hx. cbn [fst] in Hx. now split.
Qed.

End AcceptedFacts.

(** ** Allocation outcomes *)

Section AllocationFacts.

Context {AuthorizationSet : Type} `{AuthorizationSetOps AuthorizationSet}.

Local Abbreviation world := (world AuthorizationSet).
Local Abbreviation KeyBlob := (KeyBlob AuthorizationSet).

Lemma rewound_fallback_state (m : memory) (end_ : N) (w : world) :
  fallback_state m end_ w = rewound (buf_ptr w) (snd (versioned_parse_failed m end_ w)).
Proof. apply fallback_state_eq. Qed.

Lemma enter_unversioned_allocated (w : world) :
  hd true (heap w) = true -> hd true (tl (heap w)) = true ->
  enter_unversioned w = (true, allocated w).
Proof. intros H1 H2. rewrite enter_unversioned_eq, H1, H2. reflexivity. Qed.

Lemma enter_unversioned_failed (w : world) :
  hd true (heap w) = false \/ hd true (tl (heap w)) = false ->
  fst (enter_unversioned w) = false.
Proof.
  intros Hf. rewrite enter_unversioned_eq. cbn [fst].
  destruct Hf as [-> | ->]; [reflexivity | apply andb_false_r].
Qed.

(** A failed allocation: nothing is read, the cursor stays, and the
    allocation failure is the reason stored. *)
Lemma DeserializeUnversionedBlob_allocation_failed (m : memory) (end_ : N) (w : world) :
  hd true (heap w) = false \/ hd true (tl (heap w)) = false ->
  let r := DeserializeUnversionedBlob m end_ w in
  fst r = false
  /\ error_ (this (snd r)) = KM_ERROR_MEMORY_ALLOCATION_FAILED
  /\ reads (snd r) = reads w
  /\ buf_ptr (snd r) = buf_ptr w.
Proof.
  intros Hf. cbv zeta. rewrite DeserializeUnversionedBlob_eq. cbv zeta.
  rewrite (enter_unversioned_failed w Hf). rewrite enter_unversioned_eq.
  cbn [fst snd this buf_ptr heap trace error_ set_error].
  do 2 (split; [reflexivity|]). split; [|reflexivity].
  unfold reads. cbn [trace]. rewrite flat_map_app. cbn [flat_map app].
  apply app_nil_r.
Qed.

(** Both allocations succeed and the parse fails. *)
Lemma DeserializeUnversionedBlob_parse_failed (m : memory) (end_ : N) (w : world) :
  hd true (heap w) = true -> hd true (tl (heap w)) = true ->
  fst (unversioned_parse_failed m end_ (allocated w)) = true ->
  let r := DeserializeUnversionedBlob m end_ w in
  fst r = false
  /\ error_ (this (snd r)) = KM_ERROR_INVALID_KEY_BLOB
  /\ encrypted_key_material_ (this (snd r)) = None.
Proof.
  intros H1 H2 Hp. cbv zeta. rewrite DeserializeUnversionedBlob_eq. cbv zeta.
  rewrite (enter_unversioned_allocated w H1 H2). cbn [fst snd]. rewrite Hp.
  now repeat split.
Qed.

(** The version-0 parse succeeds exactly on an input that holds a
    version-0 blob, its three allocations succeeding. *)
Lemma versioned_parse_failed_iff (m : memory) (end_ : N) (w : world) :
  fst (versioned_parse_failed m end_ w) = false
  <-> version0_parses m end_ (buf_ptr w)
      /\ hd true (heap w) = true /\ hd true (tl (heap w)) = true
      /\ hd true (tl (tl (heap w))) = true.
Proof.
  unfold version0_parses. cbv zeta. unfold versioned_parse_failed.
  rewrite (bind_eq _ _ _ _ _ (read_u8_eq m w)).
  destruct (Byte.eqb (m (buf_ptr w)) BLOB_VERSION) eqn:Ev; cbn [negb].
  2:{ cbn [fst ret]. split; [discriminate|]. intros ((Hv & _) & _).
      rewrite Hv in Ev. discriminate Ev. }
  apply Byte.byte_dec_bl in Ev.
  unfold bind at 1.
  destruct (copy_size_and_data_from_buf m end_ _) as [[[n1 d1]|] w1] eqn:E1;
    apply copy_size_and_data_from_buf_inv in E1; cbn [this buf_ptr heap trace] in E1;
    destruct E1 as (T1 & E1).
  2:{ cbn [fst ret]. split; [discriminate|].
      intros ((_ & Hn & _ & Hq & _) & A1 & _).
      rewrite Hn in E1. destruct E1 as (_ & [E1|[E1|E1]]); [lia | lia | congruence]. }
  destruct E1 as (B1 & -> & F1 & -> & P1 & A1 & G1).
  unfold bind at 1. cbn [modify].
  destruct (N.eqb_spec (decode_u32 (read_bytes m (buf_ptr w + 1) 4)) NONCE_LENGTH)
    as [EN|EN]; cbn [negb].
  2:{ cbn [fst ret]. split; [discriminate|]. now intros ((_ & Hn & _) & _). }
  rewrite EN in *.
  unfold bind at 1.
  destruct (copy_size_and_data_from_buf m end_ _) as [[[n2 d2]|] w2] eqn:E2;
    apply copy_size_and_data_from_buf_inv in E2; cbn [this buf_ptr heap trace] in E2;
    destruct E2 as (T2 & E2); rewrite P1, G1 in E2.
  2:{ cbn [fst ret]. split; [discriminate|].
      intros ((_ & _ & _ & Hq & _) & _ & A2 & _).
      destruct E2 as (_ & [E2|[E2|E2]]); [lia | lia | congruence]. }
  destruct E2 as (B2 & -> & F2 & -> & P2 & A2 & G2).
  set (k := decode_u32 (read_bytes m (buf_ptr w + 1 + 4 + NONCE_LENGTH) 4)) in *.
  unfold bind at 1. cbn [modify]. unfold bind at 1. cbn [modify].
  unfold bind at 1.
  destruct (copy_size_and_data_from_buf m end_ _) as [[[n3 d3]|] w3] eqn:E3;
    apply copy_size_and_data_from_buf_inv in E3; cbn [this buf_ptr heap trace] in E3;
    destruct E3 as (T3 & E3); rewrite P2, G2 in E3.
  2:{ cbn [fst ret]. split; [discriminate|].
      intros ((_ & _ & Ht & Hq & _) & _ & _ & A3).
      rewrite Ht in E3. destruct E3 as (_ & [E3|[E3|E3]]); [lia | lia | congruence]. }
  destruct E3 as (B3 & -> & F3 & -> & P3 & A3 & G3).
  unfold bind at 1. cbn [modify].
  destruct (N.eqb_spec (decode_u32 (read_bytes m (buf_ptr w + 1 + 4 + NONCE_LENGTH + 4 + k) 4))
                       TAG_LENGTH) as [ET|ET]; cbn [negb].
  2:{ cbn [fst ret]. split; [discriminate|]. now intros ((_ & _ & Ht & _) & _). }
  rewrite ET in *.
  unfold bind at 1.
  destruct (AS_Deserialize_at m end_ set_enforced _) as [ok4 w4] eqn:E4.
  apply AS_Deserialize_at_inv in E4. cbn [this buf_ptr heap trace] in E4.
  destruct E4 as [G4 E4]. rewrite P3 in E4.
  destruct (AS_Deserialize (read_bytes m _ _)) as [[e n4]|] eqn:D4 in E4.
  2:{ destruct E4 as (-> & _). cbn [negb fst ret]. split; [discriminate|].
      intros ((_ & _ & _ & _ & e & n1 & u & n2 & D1 & _) & _). congruence. }
  destruct E4 as (-> & T4 & P4). cbn [negb].
  unfold bind at 1.
  destruct (AS_Deserialize_at m end_ set_unenforced w4) as [ok5 w5] eqn:E5.
  apply AS_Deserialize_at_inv in E5. destruct E5 as [G5 E5]. rewrite P4 in E5.
  destruct (AS_Deserialize (read_bytes m _ _)) as [[u n5]|] eqn:D5 in E5.
  2:{ destruct E5 as (-> & _). cbn [negb fst ret]. split; [discriminate|].
      intros ((_ & _ & _ & _ & e' & n1' & u & n2 & D1 & D2) & _).
      rewrite D4 in D1. injection D1 as <- <-. congruence. }
  destruct E5 as (-> & _). cbn [negb fst ret]. split; [intros _ | reflexivity].
  split; [|now repeat split].
  split; [exact Ev|]. split; [reflexivity|]. split; [reflexivity|].
  split; [exact F3|]. now exists e, n4, u, n5.
Qed.

(** The unversioned parse succeeds exactly on an input that holds an
    unversioned blob, the ciphertext allocation succeeding. *)
Lemma unversioned_parse_failed_iff (m : memory) (end_ : N) (w : world) :
  fst (unversioned_parse_failed m end_ w) = false
  <-> unversioned_parses m end_ (buf_ptr w) /\ hd true (heap w) = true.
Proof.
  unfold unversioned_parses. cbv zeta. unfold unversioned_parse_failed.
  unfold bind at 1.
  destruct (copy_from_buf m end_ NONCE_LENGTH w) as [[d1|] w1] eqn:E1;
    apply copy_from_buf_inv in E1; destruct E1 as (T1 & G1 & E1).
  2:{ cbn [fst ret]. split; [discriminate|]. intros ((Hq & _) & _). lia. }
  destruct E1 as (B1 & -> & P1).
  unfold bind at 1. cbn [modify]. unfold bind at 1.
  destruct (copy_size_and_data_from_buf m end_ _) as [[[n2 d2]|] w2] eqn:E2;
    apply copy_size_and_data_from_buf_inv in E2; cbn [this buf_ptr heap trace] in E2;
    destruct E2 as (T2 & E2); rewrite P1, G1 in E2.
  2:{ cbn [fst ret]. split; [discriminate|]. intros ((Hq & _) & Hh).
      destruct E2 as (_ & [E2|[E2|E2]]); [lia | lia | congruence]. }
  destruct E2 as (B2 & -> & F2 & -> & P2 & A2 & G2).
  unfold bind at 1. cbn [modify]. unfold bind at 1. cbn [modify].
  unfold bind at 1.
  destruct (copy_from_buf m end_ TAG_LENGTH _) as [[d3|] w3] eqn:E3;
    apply copy_from_buf_inv in E3; cbn [this buf_ptr heap trace] in E3;
    destruct E3 as (T3 & G3 & E3); rewrite P2 in E3.
  2:{ cbn [fst ret]. split; [discriminate|]. intros ((Hq & _) & _). lia. }
  destruct E3 as (B3 & -> & P3).
  unfold bind at 1. cbn [modify].
  unfold bind at 1.
  destruct (AS_Deserialize_at m end_ set_enforced _) as [ok4 w4] eqn:E4.
  apply AS_Deserialize_at_inv in E4. cbn [this buf_ptr heap trace] in E4.
  destruct E4 as [G4 E4]. rewrite P3 in E4.
  destruct (AS_Deserialize (read_bytes m _ _)) as [[e n1]|] eqn:D4 in E4.
  2:{ destruct E4 as (-> & _). cbn [negb fst ret]. split; [discriminate|].
      intros ((_ & e & n1 & u & n2 & D1 & _) & _). congruence. }
  destruct E4 as (-> & T4 & P4). cbn [negb].
  unfold bind at 1.
  destruct (AS_Deserialize_at m end_ set_unenforced w4) as [ok5 w5] eqn:E5.
  apply AS_Deserialize_at_inv in E5. destruct E5 as [G5 E5]. rewrite P4 in E5.
  destruct (AS_Deserialize (read_bytes m _ _)) as [[u n5]|] eqn:D5 in E5.
  2:{ destruct E5 as (-> & _). cbn [negb fst ret]. split; [discriminate|].
      intros ((_ & e' & n1' & u & n2 & D1 & D2) & _).
      rewrite D4 in D1. injection D1 as <- <-. congruence. }
  destruct E5 as (-> & _). cbn [negb fst ret]. split; [intros _ | reflexivity].
  split; [|exact A2]. split; [exact B3|]. now exists e, n1, u, n5.
Qed.

(** Both allocations succeed and the input holds no unversioned blob, or
    the ciphertext allocation fails. *)
Lemma DeserializeUnversionedBlob_rejects (m : memory) (end_ : N) (w : world) :
  hd true (heap w) = true -> hd true (tl (heap w)) = true ->
  ~ unversioned_parses m end_ (buf_ptr w) \/ hd true (tl (tl (heap w))) = false ->
  let r := DeserializeUnversionedBlob m end_ w in
  fst r = false
  /\ error_ (this (snd r)) = KM_ERROR_INVALID_KEY_BLOB
  /\ encrypted_key_material_ (this (snd r)) = None.
Proof.
  intros H1 H2 Hbad. apply (DeserializeUnversionedBlob_parse_failed m end_ w H1 H2).
  destruct (fst (unversioned_parse_failed m end_ (allocated w))) eqn:E; [reflexivity|].
  apply unversioned_parse_failed_iff in E. cbn [allocated buf_ptr heap] in E.
  destruct E as [Ep Eh]. destruct Hbad as [Hbad | Hbad]; [contradiction | congruence].
Qed.

(** A version-0 attempt that stops at the version byte allocates nothing. *)
Lemma versioned_parse_wrong_version (m : memory) (end_ : N) (w : world) :
  m (buf_ptr w) <> BLOB_VERSION ->
  versioned_parse_failed m end_ w
  = (true, mkWorld (this w) (buf_ptr w + 1) (heap w) (trace w ++ [EvRead (buf_ptr w)])).
Proof.
  intros Hv. unfold versioned_parse_failed.
  rewrite (bind_eq _ _ _ _ _ (read_u8_eq m w)).
  destruct (Byte.eqb (m (buf_ptr w)) BLOB_VERSION) eqn:E; [|reflexivity].
  apply Byte.byte_dec_bl in E. contradiction.
Qed.

End AllocationFacts.

(** * The claims *)

Section Claims.

Context {AuthorizationSet : Type} `{AuthorizationSetOps AuthorizationSet}.

Local Abbreviation world := (world AuthorizationSet).
Local Abbreviation M := (M AuthorizationSet).
Local Abbreviation KeyBlob := (KeyBlob AuthorizationSet).

(** C1. Deserialize tries the version-0 parse first, which succeeds
    exactly when the input holds a version-0 blob and its three allocations
    succeed.  When that parse succeeds Deserialize is the characteristic
    extraction on what it stored; when it fails Deserialize is
    DeserializeUnversionedBlob run on the state the attempt left with the
    cursor back at the start, which is the one entry into the unversioned
    path.  An input laid out as version 0 (first
    byte 0, nonce length field NONCE_LENGTH, tag length field TAG_LENGTH,
    both policy sets parsing) is parsed as version 0, allocations succeeding,
    and never reaches the unversioned path.  An input whose first byte is
    not 0, or whose nonce length field is not NONCE_LENGTH, is handed to the
    unversioned path from the start; when it is laid out as an unversioned
    blob, its nonce, ciphertext, tag and policy sets are what Deserialize
    stores, and Deserialize answers true exactly when both characteristics
    are found. *)
Theorem Deserialize_canonical_first (m : memory) (end_ : N) (w : world) :
  legacy_entries (snd (Deserialize m end_ w))
  = legacy_entries w
      ++ (if fst (versioned_parse_failed m end_ w) then [buf_ptr w] else [])
  /\ Deserialize m end_ w
     = (if fst (versioned_parse_failed m end_ w)
        then DeserializeUnversionedBlob m end_
               (rewound (buf_ptr w) (snd (versioned_parse_failed m end_ w)))
        else lift ExtractKeyCharacteristics (snd (versioned_parse_failed m end_ w)))
  /\ (fst (versioned_parse_failed m end_ w) = false
      <-> version0_parses m end_ (buf_ptr w)
          /\ hd true (heap w) = true /\ hd true (tl (heap w)) = true
          /\ hd true (tl (tl (heap w))) = true)
  /\ (forall nonce ct tg rest e u n1 n2,
        len nonce = NONCE_LENGTH -> len tg = TAG_LENGTH -> len ct < UINT32_LIMIT ->
        buf_ptr w <= end_ ->
        read_bytes m (buf_ptr w) (end_ - buf_ptr w) = header_bytes nonce ct tg ++ rest ->
        AS_Deserialize rest = Some (e, n1) ->
        AS_Deserialize (skipn (N.to_nat n1) rest) = Some (u, n2) ->
        heap_ok (heap w) ->
        legacy_entries (snd (Deserialize m end_ w)) = legacy_entries w
        /\ exists w1,
             versioned_parse_failed m end_ w = (false, w1)
             /\ this w1 = set_unenforced u (set_enforced e
                            (parsed_fields nonce ct tg (this w)))
             /\ Deserialize m end_ w = lift ExtractKeyCharacteristics w1)
  /\ (m (buf_ptr w) <> BLOB_VERSION
      \/ decode_u32 (read_bytes m (buf_ptr w + 1) 4) <> NONCE_LENGTH ->
      legacy_entries (snd (Deserialize m end_ w)) = legacy_entries w ++ [buf_ptr w]
      /\ Deserialize m end_ w
         = DeserializeUnversionedBlob m end_
             (rewound (buf_ptr w) (snd (versioned_parse_failed m end_ w)))
      /\ forall nonce ct tg rest e u n1 n2,
           len nonce = NONCE_LENGTH -> len tg = TAG_LENGTH -> len ct < UINT32_LIMIT ->
           buf_ptr w <= end_ ->
           read_bytes m (buf_ptr w) (end_ - buf_ptr w)
           = nonce ++ encode_u32 (len ct) ++ ct ++ tg ++ rest ->
           AS_Deserialize rest = Some (e, n1) ->
           AS_Deserialize (skipn (N.to_nat n1) rest) = Some (u, n2) ->
           heap_ok (heap w) ->
           let r := Deserialize m end_ w in
           nonce_ (this (snd r)) = Some nonce
           /\ encrypted_key_material_ (this (snd r)) = Some ct
           /\ key_material_length_ (this (snd r)) = len ct
           /\ tag_ (this (snd r)) = Some tg
           /\ enforced_ (this (snd r)) = e
           /\ unenforced_ (this (snd r)) = u
           /\ (fst r = true
               <-> lookup_both (KeyBlob_of_sets e u) TAG_ALGORITHM <> None
                   /\ lookup_both (KeyBlob_of_sets e u) TAG_KEY_SIZE <> None)).
Proof.
  pose proof (Deserialize_legacy_entries m end_ w) as L.
  assert (D : Deserialize m end_ w
              = (if fst (versioned_parse_failed m end_ w)
                 then DeserializeUnversionedBlob m end_
                        (rewound (buf_ptr w) (snd (versioned_parse_failed m end_ w)))
                 else lift ExtractKeyCharacteristics
                        (snd (versioned_parse_failed m end_ w)))).
  { destruct (fst (versioned_parse_failed m end_ w)) eqn:Ev.
    - rewrite <- rewound_fallback_state. now apply Deserialize_fallback_eq.
    - now rewrite Deserialize_eq, Ev. }
  split; [exact L|]. split; [exact D|].
  split; [apply versioned_parse_failed_iff|]. split.
  - intros nonce ct tg rest e u n1 n2 Hn Ht Hct Hp Hmem He Hu Hheap.
    destruct (versioned_parse_ok m end_ w nonce ct tg rest e u n1 n2
                Hn Ht Hct Hp Hmem He Hu Hheap) as (w1 & E & T & _).
    rewrite E in L. cbn [fst] in L. rewrite app_nil_r in L.
    split; [exact L|]. exists w1. split; [exact E|]. split; [exact T|].
    rewrite Deserialize_eq, E. reflexivity.
  - intros Hbad. pose proof (versioned_rejects m end_ w Hbad) as Hv.
    rewrite Hv in L, D. split; [exact L|]. split; [exact D|].
    intros nonce ct tg rest e u n1 n2 Hn Ht Hct Hp Hmem He Hu Hheap.
    exact (Deserialize_unversioned_layout m end_ w _ _ _ _ e u n1 n2
             Hn Ht Hct Hp Hmem He Hu Hheap Hv).
Qed.

(** C2, amended.  A KeyBlob made from two policy sets and given, by
    SetEncryptedKey, a ciphertext, a nonce of NONCE_LENGTH bytes and a tag of
    TAG_LENGTH bytes is serialized into a buffer that holds it; Deserialize
    over the bytes written parses them as version 0 and stores the same
    nonce, ciphertext, ciphertext length, tag and policy sets.  It answers
    true exactly when ALGORITHM and KEY_SIZE are each found in one of the
    two sets, and otherwise answers false with the unsupported-algorithm or
    unsupported-key-size error.  (The ciphertext length fits the 4-byte
    field, allocations succeed, and each policy set reports the size it
    writes and deserializes to itself.) *)
Theorem Serialize_Deserialize_roundtrip
        (e u : AuthorizationSet) (ciphertext nonce_bytes tag_bytes : list byte)
        (o : out_buffer) (buf end_ : N) (w : world) :
  len nonce_bytes = NONCE_LENGTH -> len tag_bytes = TAG_LENGTH ->
  len ciphertext < UINT32_LIMIT ->
  exact_size e -> exact_size u -> roundtrips e -> roundtrips u ->
  let kb := SetEncryptedKey ciphertext (len ciphertext) nonce_bytes tag_bytes
                            (KeyBlob_of_sets e u) in
  buf + len (blob_bytes kb) <= end_ ->
  buf_ptr w = buf -> heap_ok (heap w) ->
  let written := Serialize kb o buf end_ in
  let r := Deserialize (omem (fst written)) (snd written) w in
  nonce_ (this (snd r)) = Some nonce_bytes
  /\ encrypted_key_material_ (this (snd r)) = Some ciphertext
  /\ key_material_length_ (this (snd r)) = len ciphertext
  /\ tag_ (this (snd r)) = Some tag_bytes
  /\ enforced_ (this (snd r)) = e
  /\ unenforced_ (this (snd r)) = u
  /\ buf_ptr (snd r) = snd written
  /\ legacy_entries (snd r) = legacy_entries w
  /\ (fst r = true
      <-> lookup_both kb TAG_ALGORITHM <> None /\ lookup_both kb TAG_KEY_SIZE <> None)
  /\ (fst r = false ->
      error_ (this (snd r)) = KM_ERROR_UNSUPPORTED_ALGORITHM
      \/ error_ (this (snd r)) = KM_ERROR_UNSUPPORTED_KEY_SIZE).
Proof.
  intros Hn Ht Hct Se Su Re Ru kb Hfit Hp Hheap. cbv zeta.
  assert (Hb : blob_bytes kb
               = header_bytes nonce_bytes ciphertext tag_bytes ++ AS_bytes e ++ AS_bytes u)
    by (now apply blob_bytes_SetEncryptedKey).
  assert (Hs : buffers_sized kb)
    by (now apply buffers_sized_SetEncryptedKey).
  assert (Hlen : len (blob_bytes kb) = unbounded_size kb) by now apply len_blob_bytes.
  rewrite Hlen in Hfit.
  rewrite (Serialize_fits kb o buf end_ Se Su Hs Hfit). cbn [fst snd put omem].
  set (m := write_bytes (omem o) buf (blob_bytes kb)).
  set (stop := buf + unbounded_size kb).
  assert (Hmem : read_bytes m (buf_ptr w) (stop - buf_ptr w)
                 = header_bytes nonce_bytes ciphertext tag_bytes
                     ++ (AS_bytes e ++ AS_bytes u)).
  { rewrite Hp. unfold stop, m.
    replace (buf + unbounded_size kb - buf) with (len (blob_bytes kb)) by lia.
    now rewrite read_write_same. }
  assert (Hu : AS_Deserialize (skipn (N.to_nat (len (AS_bytes e))) (AS_bytes e ++ AS_bytes u))
               = Some (u, len (AS_bytes u))).
  { unfold len at 1. rewrite Nat2N.id, skipn_app, skipn_all, Nat.sub_diag.
    cbn [skipn app]. rewrite <- (app_nil_r (AS_bytes u)) at 1. apply Ru. }
  destruct (versioned_parse_ok m stop w _ _ _ _ e u _ _ Hn Ht Hct
              ltac:(unfold stop; lia) Hmem (Re _) Hu Hheap) as (w1 & E & T & P & _).
  pose proof (Deserialize_legacy_entries m stop w) as L.
  rewrite E in L. cbn [fst] in L. rewrite app_nil_r in L.
  revert L. rewrite Deserialize_eq, E. cbn [fst snd].
  rewrite lift_eq. cbn [fst snd this buf_ptr]. intros L.
  destruct (ExtractKeyCharacteristics_fields (this w1)) as (F1 & F2 & F3 & F4 & F5 & F6).
  destruct (ExtractKeyCharacteristics_verdict (this w1)) as (V1 & V2).
  assert (Hl : lookup_both (this w1) = lookup_both kb) by (now rewrite T).
  rewrite Hl in V1.
  split; [rewrite F1, T; reflexivity|].
  split; [rewrite F2, T; reflexivity|].
  split; [rewrite F3, T; reflexivity|].
  split; [rewrite F4, T; reflexivity|].
  split; [rewrite F5, T; reflexivity|].
  split; [rewrite F6, T; reflexivity|].
  split.
  { rewrite P, Hp. unfold stop. rewrite <- Hlen, Hb, !len_app. lia. }
  split; [exact L|].
  split; [exact V1 | exact V2].
Qed.

(** C3, where the code departs from it: Serialize stores the version byte
    at [buf] without looking at [end_]; every other byte it writes lies
    between [buf] and [end_].  With a buffer of capacity zero the version
    byte is therefore stored at [end_] itself. *)
Theorem Serialize_writes_version_at_end (kb : KeyBlob) (o : out_buffer) (buf end_ : N) :
  (exists ws,
      owrites (fst (Serialize kb o buf end_)) = owrites o ++ buf :: ws
      /\ Forall (fun a => buf < a < end_) ws)
  /\ fst (Serialize kb o end_ end_) = put o end_ [BLOB_VERSION]
  /\ owrites (fst (Serialize kb o end_ end_)) = owrites o ++ [end_]
  /\ omem (fst (Serialize kb o end_ end_)) end_ = BLOB_VERSION.
Proof.
  split; [apply Serialize_writes|].
  assert (E : fst (Serialize kb o end_ end_) = put o end_ [BLOB_VERSION]).
  { unfold Serialize, AS_Serialize, append_size_and_data_to_buf, append_uint32_to_buf,
      append_to_buf.
    repeat match goal with
    | |- context [?a <=? end_] =>
        destruct (N.leb_spec a end_); [lia|]
    end.
    reflexivity. }
  rewrite E. repeat split.
  - cbn [put owrites]. change (addresses end_ (len [BLOB_VERSION])) with [end_ + 0].
    now rewrite N.add_0_r.
  - cbn [put omem write_bytes]. unfold store. now rewrite N.eqb_refl.
Qed.

(** C4, amended.  On every proper prefix of a serialized blob the
    version-0 parse fails and Deserialize falls back to the unversioned
    parse.  When that parse fails too (its two allocations succeeding), as it
    must when fewer than NONCE_LENGTH + 4 + TAG_LENGTH bytes are left,
    Deserialize answers false with the invalid-blob error.  (The policy sets
    deserialize to themselves and reject their own proper prefixes.) *)
Theorem truncated_blob_not_version0
        (e u : AuthorizationSet) (ciphertext nonce_bytes tag_bytes : list byte)
        (m : memory) (end_ : N) (w : world) :
  len nonce_bytes = NONCE_LENGTH -> len tag_bytes = TAG_LENGTH ->
  len ciphertext < UINT32_LIMIT ->
  roundtrips e -> rejects_truncation e -> rejects_truncation u ->
  let kb := SetEncryptedKey ciphertext (len ciphertext) nonce_bytes tag_bytes
                            (KeyBlob_of_sets e u) in
  input_at m (buf_ptr w) end_ (blob_bytes kb) ->
  end_ - buf_ptr w < len (blob_bytes kb) ->
  let w1 := fallback_state m end_ w in
  let r := Deserialize m end_ w in
  fst (versioned_parse_failed m end_ w) = true
  /\ legacy_entries (snd r) = legacy_entries w ++ [buf_ptr w]
  /\ (heap_ok (heap w) ->
      fst (unversioned_parse_failed m end_ (snd (enter_unversioned w1))) = true ->
      fst r = false /\ error_ (this (snd r)) = KM_ERROR_INVALID_KEY_BLOB)
  /\ (heap_ok (heap w) ->
      end_ - buf_ptr w < NONCE_LENGTH + 4 + TAG_LENGTH ->
      fst r = false /\ error_ (this (snd r)) = KM_ERROR_INVALID_KEY_BLOB).
Proof.
  intros Hn Ht Hct Re Te Tu kb Hin Hshort. cbv zeta.
  unfold kb in Hin, Hshort.
  rewrite (blob_bytes_SetEncryptedKey e u _ _ _ Hn Ht) in Hin, Hshort.
  pose proof (versioned_parse_truncated m end_ w _ _ _ e u Hn Ht Hct Re Te Tu Hin Hshort)
    as Hv.
  destruct (Deserialize_fallback_failure m end_ w Hv) as [_ Hf]. cbv zeta in Hf.
  split; [exact Hv|]. split.
  { rewrite Deserialize_legacy_entries, Hv. reflexivity. }
  split.
  - intros Hh Hp.
    now destruct (Hf (fallback_allocates m end_ w Hh) Hp) as (? & ? & _).
  - intros Hh Hs.
    assert (Hp : fst (unversioned_parse_failed m end_
                        (snd (enter_unversioned (fallback_state m end_ w)))) = true).
    { apply unversioned_parse_short. rewrite enter_unversioned_ptr.
      change (buf_ptr (fallback_state m end_ w)) with (buf_ptr w).
      destruct Hin as [Hle _]. lia. }
    now destruct (Hf (fallback_allocates m end_ w Hh) Hp) as (? & ? & _).
Qed.

(** C5, amended.  When the version-0 parse fails the cursor is put back
    at the start and the unversioned parse runs there; whether its
    allocations and its parse succeed does not depend on what the version-0
    attempt stored in the object, and the version-0 attempt stores no error.
    When the unversioned parse succeeds, the nonce, the ciphertext and its
    length, the tag and both policy sets are exactly what the unversioned
    layout holds at the start. *)
Theorem fallback_fields_from_legacy_parse (m : memory) (end_ : N) (w : world) :
  fst (versioned_parse_failed m end_ w) = true ->
  let w1 := fallback_state m end_ w in
  let p := buf_ptr w in
  legacy_entries (snd (Deserialize m end_ w)) = legacy_entries w ++ [p]
  /\ buf_ptr w1 = p
  /\ error_ (this w1) = error_ (this w)
  /\ (forall kb,
        let w0 := mkWorld kb p (heap w1) (trace w1) in
        fst (enter_unversioned w1) = fst (enter_unversioned w0)
        /\ fst (unversioned_parse_failed m end_ (snd (enter_unversioned w1)))
           = fst (unversioned_parse_failed m end_ (snd (enter_unversioned w0))))
  /\ (fst (enter_unversioned w1) = true ->
      fst (unversioned_parse_failed m end_ (snd (enter_unversioned w1))) = false ->
      let k := decode_u32 (read_bytes m (p + NONCE_LENGTH) 4) in
      let q := p + NONCE_LENGTH + 4 + k + TAG_LENGTH in
      let kb' := this (snd (Deserialize m end_ w)) in
      nonce_ kb' = Some (read_bytes m p NONCE_LENGTH)
      /\ key_material_length_ kb' = k
      /\ encrypted_key_material_ kb' = Some (read_bytes m (p + NONCE_LENGTH + 4) k)
      /\ tag_ kb' = Some (read_bytes m (p + NONCE_LENGTH + 4 + k) TAG_LENGTH)
      /\ exists n1 n2,
           AS_Deserialize (read_bytes m q (end_ - q)) = Some (enforced_ kb', n1)
           /\ AS_Deserialize (read_bytes m (q + n1) (end_ - (q + n1)))
              = Some (unenforced_ kb', n2)).
Proof.
  intros Hv. cbv zeta.
  split; [rewrite Deserialize_legacy_entries, Hv; reflexivity|].
  split; [reflexivity|].
  split; [apply (uniform_error (versioned_parse_failed m end_) w),
            uniform_versioned_parse_failed|].
  split.
  - intros kb.
    set (w1 := fallback_state m end_ w).
    change (buf_ptr w) with (buf_ptr w1).
    split.
    + symmetry. apply uniform_answer, uniform_enter_unversioned.
    + set (c := bind (@enter_unversioned AuthorizationSet)
                     (fun _ => unversioned_parse_failed m end_)).
      assert (U : uniform c).
      { apply uniform_bind; [apply uniform_enter_unversioned|].
        intros _. apply uniform_unversioned_parse_failed. }
      pose proof (uniform_answer c w1 kb U) as E.
      unfold c, bind in E.
      destruct (enter_unversioned w1) as [a1 x1].
      destruct (enter_unversioned (mkWorld kb (buf_ptr w1) (heap w1) (trace w1))) as [a0 x0].
      cbn [snd]. now symmetry.
  - intros Ha Hp.
    rewrite Deserialize_eq, Hv. cbv zeta.
    rewrite DeserializeUnversionedBlob_eq. cbv zeta. rewrite Ha, Hp.
    destruct (unversioned_parse_failed m end_
                (snd (enter_unversioned (fallback_state m end_ w)))) as [f w2] eqn:E.
    cbn [fst] in Hp. subst f. cbn [snd].
    destruct (unversioned_parse_ok_fields _ _ _ _ E)
      as (e & n1 & u & n2 & D1 & D2 & T & _ & _).
    rewrite enter_unversioned_ptr in D1, D2, T.
    change (buf_ptr (fallback_state m end_ w)) with (buf_ptr w) in D1, D2, T.
    rewrite !lift_eq. cbn [fst snd this buf_ptr heap trace].
    destruct (ExtractKeyCharacteristics_fields (this w2)) as (F1 & F2 & F3 & F4 & F5 & F6).
    destruct (ExtractKeyCharacteristics_fields (snd (ExtractKeyCharacteristics (this w2))))
      as (G1 & G2 & G3 & G4 & G5 & G6).
    cbv zeta in F1, F2, F3, F4, F5, F6, G1, G2, G3, G4, G5, G6.
    destruct (fst (ExtractKeyCharacteristics (this w2))); cbn [snd this];
      rewrite ?G1, ?G2, ?G3, ?G4, ?G5, ?G6, F1, F2, F3, F4, F5, F6, T;
      cbn [nonce_ encrypted_key_material_ key_material_length_ tag_ enforced_ unenforced_
           set_unenforced set_enforced set_tag set_encrypted_key_material
           set_key_material_length set_nonce];
      (repeat split; exists n1, n2; split; assumption).
Qed.

(** C6, amended.  A call of Deserialize, DeserializeUnversionedBlob or
    ExtractKeyCharacteristics that answers false has stored a failure reason
    over the error member, the same reason whatever the member held before;
    a call that answers true leaves the member as it found it, so at OK only
    if it was OK before the call. *)
Theorem error_member_sticky (m : memory) (end_ : N) (w : world) :
  leaves_reason (Deserialize m end_) w
  /\ leaves_reason (DeserializeUnversionedBlob m end_) w
  /\ leaves_reason (lift ExtractKeyCharacteristics) w.
Proof.
  unfold leaves_reason. repeat apply conj.
  - apply sticky_error; [apply error_blind_Deserialize | apply gives_reason_Deserialize].
  - apply sticky_error; [apply error_blind_Deserialize | apply gives_reason_Deserialize].
  - apply sticky_error;
      [apply error_blind_DeserializeUnversionedBlob
      | apply gives_reason_DeserializeUnversionedBlob].
  - apply sticky_error;
      [apply error_blind_DeserializeUnversionedBlob
      | apply gives_reason_DeserializeUnversionedBlob].
  - apply sticky_error; [apply error_blind_Extract | apply gives_reason_Extract].
  - apply sticky_error; [apply error_blind_Extract | apply gives_reason_Extract].
Qed.

(** C7. After either parse, Deserialize answers what
    ExtractKeyCharacteristics answers.  ExtractKeyCharacteristics takes
    ALGORITHM from the enforced set when it is there and from the unenforced
    set otherwise, and fails with the unsupported-algorithm error when
    neither has it, whether or not KEY_SIZE is there; only then does it look
    KEY_SIZE up in the same order, failing with the unsupported-key-size
    error. *)
Theorem ExtractKeyCharacteristics_order (kb : KeyBlob) :
  (forall a, AS_GetTagValue (enforced_ kb) TAG_ALGORITHM = Some a ->
     algorithm_ (snd (ExtractKeyCharacteristics kb)) = a)
  /\ (forall a, AS_GetTagValue (enforced_ kb) TAG_ALGORITHM = None ->
        AS_GetTagValue (unenforced_ kb) TAG_ALGORITHM = Some a ->
        algorithm_ (snd (ExtractKeyCharacteristics kb)) = a)
  /\ (AS_GetTagValue (enforced_ kb) TAG_ALGORITHM = None ->
      AS_GetTagValue (unenforced_ kb) TAG_ALGORITHM = None ->
      ExtractKeyCharacteristics kb
      = (false, set_error KM_ERROR_UNSUPPORTED_ALGORITHM kb))
  /\ (lookup_both kb TAG_ALGORITHM <> None ->
      (forall k, AS_GetTagValue (enforced_ kb) TAG_KEY_SIZE = Some k ->
         fst (ExtractKeyCharacteristics kb) = true
         /\ key_size_bits_ (snd (ExtractKeyCharacteristics kb)) = k)
      /\ (forall k, AS_GetTagValue (enforced_ kb) TAG_KEY_SIZE = None ->
            AS_GetTagValue (unenforced_ kb) TAG_KEY_SIZE = Some k ->
            fst (ExtractKeyCharacteristics kb) = true
            /\ key_size_bits_ (snd (ExtractKeyCharacteristics kb)) = k)
      /\ (AS_GetTagValue (enforced_ kb) TAG_KEY_SIZE = None ->
          AS_GetTagValue (unenforced_ kb) TAG_KEY_SIZE = None ->
          fst (ExtractKeyCharacteristics kb) = false
          /\ error_ (snd (ExtractKeyCharacteristics kb)) = KM_ERROR_UNSUPPORTED_KEY_SIZE))
  /\ (forall m end_ (w : world),
        (fst (versioned_parse_failed m end_ w) = false ->
         Deserialize m end_ w
         = lift ExtractKeyCharacteristics (snd (versioned_parse_failed m end_ w)))
        /\ (fst (enter_unversioned w) = true ->
            fst (unversioned_parse_failed m end_ (snd (enter_unversioned w))) = false ->
            DeserializeUnversionedBlob m end_ w
            = lift ExtractKeyCharacteristics
                   (snd (unversioned_parse_failed m end_ (snd (enter_unversioned w)))))).
Proof.
  rewrite ExtractKeyCharacteristics_eq. unfold lookup_both.
  split; [|split; [|split; [|split]]].
  - intros a ->. now destruct (AS_GetTagValue (enforced_ kb) TAG_KEY_SIZE);
      [|destruct (AS_GetTagValue (unenforced_ kb) TAG_KEY_SIZE)].
  - intros a -> ->. now destruct (AS_GetTagValue (enforced_ kb) TAG_KEY_SIZE);
      [|destruct (AS_GetTagValue (unenforced_ kb) TAG_KEY_SIZE)].
  - now intros -> ->.
  - intros Ha.
    destruct (match AS_GetTagValue (enforced_ kb) TAG_ALGORITHM with
              | Some v => Some v
              | None => AS_GetTagValue (unenforced_ kb) TAG_ALGORITHM
              end) as [a|]; [clear Ha | contradiction].
    split; [|split].
    + now intros k ->.
    + now intros k -> ->.
    + now intros -> ->.
  - intros m end_ w. split.
    + intros E. now rewrite Deserialize_eq, E.
    + intros E1 E2. rewrite DeserializeUnversionedBlob_eq. cbv zeta.
      now rewrite E1, E2.
Qed.

(** C8. When both allocations of DeserializeUnversionedBlob succeed and
    its parse then fails, which it does exactly when the input holds no
    unversioned blob (no room for nonce, length field, announced ciphertext
    and tag, or a policy set that does not deserialize) or the ciphertext
    allocation fails, it clears the ciphertext buffer, stores the
    invalid-blob error and answers false.  When the nonce allocation or the
    tag allocation fails it reads nothing, stores the allocation failure and
    answers false.  When the version-0 parse has failed, Deserialize answers
    false with the reason of the unversioned attempt, which runs on the
    state the version-0 attempt left, with the cursor back at the start:
    allocation failure when one of its two allocations fails, invalid blob
    when they succeed and its parse fails.  The version-0 attempt stores no
    reason of its own, and when it stops at the version byte it has
    allocated nothing, so that the two allocations of the unversioned
    attempt are the first two of the call. *)
Theorem legacy_failure_reason (m : memory) (end_ : N) (w : world) :
  (fst (unversioned_parse_failed m end_ (allocated w)) = true
   <-> ~ (unversioned_parses m end_ (buf_ptr w) /\ hd true (tl (tl (heap w))) = true))
  /\ (hd true (heap w) = true -> hd true (tl (heap w)) = true ->
      ~ unversioned_parses m end_ (buf_ptr w) \/ hd true (tl (tl (heap w))) = false ->
      let r := DeserializeUnversionedBlob m end_ w in
      fst r = false
      /\ error_ (this (snd r)) = KM_ERROR_INVALID_KEY_BLOB
      /\ encrypted_key_material_ (this (snd r)) = None)
  /\ (hd true (heap w) = false \/ hd true (tl (heap w)) = false ->
      let r := DeserializeUnversionedBlob m end_ w in
      fst r = false
      /\ error_ (this (snd r)) = KM_ERROR_MEMORY_ALLOCATION_FAILED
      /\ reads (snd r) = reads w
      /\ buf_ptr (snd r) = buf_ptr w)
  /\ (fst (versioned_parse_failed m end_ w) = true ->
      let w1 := rewound (buf_ptr w) (snd (versioned_parse_failed m end_ w)) in
      let r := Deserialize m end_ w in
      (hd true (heap w1) = false \/ hd true (tl (heap w1)) = false ->
       fst r = false /\ error_ (this (snd r)) = KM_ERROR_MEMORY_ALLOCATION_FAILED)
      /\ (hd true (heap w1) = true -> hd true (tl (heap w1)) = true ->
          ~ unversioned_parses m end_ (buf_ptr w)
          \/ hd true (tl (tl (heap w1))) = false ->
          fst r = false /\ error_ (this (snd r)) = KM_ERROR_INVALID_KEY_BLOB
          /\ encrypted_key_material_ (this (snd r)) = None))
  /\ (m (buf_ptr w) <> BLOB_VERSION ->
      fst (versioned_parse_failed m end_ w) = true
      /\ heap (rewound (buf_ptr w) (snd (versioned_parse_failed m end_ w))) = heap w)
  /\ error_ (this (snd (versioned_parse_failed m end_ w))) = error_ (this w).
Proof.
  split; [|split; [|split; [|split; [|split]]]].
  - pose proof (unversioned_parse_failed_iff m end_ (allocated w)) as I.
    cbn [allocated buf_ptr heap] in I.
    destruct (fst (unversioned_parse_failed m end_ (allocated w))).
    + split; [|reflexivity]. intros _ Hp. apply I in Hp. discriminate Hp.
    + split; [discriminate|]. intros Hn. exfalso. apply Hn. now apply I.
  - apply DeserializeUnversionedBlob_rejects.
  - apply DeserializeUnversionedBlob_allocation_failed.
  - intros Hv. cbv zeta.
    rewrite (Deserialize_fallback_eq m end_ w Hv), rewound_fallback_state.
    split.
    + intros Hf.
      now destruct (DeserializeUnversionedBlob_allocation_failed m end_ _ Hf) as (? & ? & _).
    + intros H1 H2 Hp.
      exact (DeserializeUnversionedBlob_rejects m end_ _ H1 H2 Hp).
  - intros Hb. rewrite (versioned_parse_wrong_version m end_ w Hb). now split.
  - apply uniform_error, uniform_versioned_parse_failed.
Qed.


(** C10, where the code departs from it: the byte at the cursor is read
    before [end_] is looked at, and only the later reads are below [end_].
    On an empty range Deserialize therefore reads the byte at [end_]; it
    does answer false.  KeyBlob(key_blob, 0) is such a call. *)
Theorem Deserialize_reads_at_end (m : memory) (end_ : N) (w : world) :
  (exists rs,
      reads (snd (Deserialize m end_ w)) = reads w ++ buf_ptr w :: rs
      /\ Forall (fun a => a < end_) rs)
  /\ (forall kb h tr,
        let empty := mkWorld kb end_ h tr in
        In end_ (reads (snd (Deserialize m end_ empty)))
        /\ fst (Deserialize m end_ empty) = false)
  /\ (forall key_blob h,
        In key_blob (reads (snd (KeyBlob_of_bytes m key_blob 0 h)))).
Proof.
  split; [|split].
  - pose proof (Deserialize_reads m end_ w) as (rs & R & F). now exists rs.
  - intros kb h tr. cbv zeta. split.
    + pose proof (Deserialize_reads m end_ (mkWorld kb end_ h tr)) as (rs & R & F).
      rewrite R. apply in_or_app. right. now left.
    + apply empty_range_fails. cbn [buf_ptr]. lia.
  - intros key_blob h. unfold KeyBlob_of_bytes.
    pose proof (Deserialize_reads m (key_blob + 0) (mkWorld blank key_blob h []))
      as (rs & R & F).
    rewrite R. now left.
Qed.

End Claims.

(** ** The simple policy set honours the contract *)

Module SimpleSetFacts.

Lemma length_entries (s : SimpleSet.t) :
  length (flat_map SimpleSet.entry_bytes s) = (8 * length s)%nat.
Proof.
  induction s as [|e s IH]; [reflexivity|].
  cbn [flat_map]. rewrite length_app, IH. cbn [length SimpleSet.entry_bytes app encode_u32].
  lia.
Qed.

Lemma length_bytes (s : SimpleSet.t) :
  length (SimpleSet.bytes s) = (4 + 8 * length s)%nat.
Proof.
  unfold SimpleSet.bytes. rewrite length_app, length_entries. reflexivity.
Qed.

Lemma exact (s : SimpleSet.t) : exact_size s.
Proof.
  unfold exact_size, len. cbn [AS_SerializedSize AS_bytes SimpleSet.ops].
  rewrite length_bytes. lia.
Qed.

Lemma parse_entries_bytes (s : SimpleSet.t) (rest : list byte) :
  Forall (fun e => fst e < UINT32_LIMIT /\ snd e < UINT32_LIMIT) s ->
  SimpleSet.parse_entries (length s) (flat_map SimpleSet.entry_bytes s ++ rest) = s.
Proof.
  induction 1 as [|[k v] s [Hk Hv] _ IH]; [reflexivity|].
  cbn [length SimpleSet.parse_entries flat_map].
  change (SimpleSet.entry_bytes (k, v)) with (encode_u32 k ++ encode_u32 v).
  rewrite <- !app_assoc.
  rewrite decode_u32_encode by assumption.
  change (skipn 4 (encode_u32 k ++ ?x)) with x.
  rewrite decode_u32_encode by assumption.
  change (skipn 8 (encode_u32 k ++ encode_u32 v ++ ?x)) with x.
  now rewrite IH.
Qed.

Lemma roundtrip (s : SimpleSet.t) : SimpleSet.fits s -> roundtrips s.
Proof.
  intros [Hc Hs] rest.
  cbn [AS_Deserialize AS_bytes SimpleSet.ops]. unfold SimpleSet.parse.
  assert (L : len (SimpleSet.bytes s ++ rest)
              = 4 + 8 * N.of_nat (length s) + len rest).
  { unfold len. rewrite length_app, length_bytes. lia. }
  assert (D : decode_u32 (SimpleSet.bytes s ++ rest) = N.of_nat (length s)).
  { unfold SimpleSet.bytes. rewrite <- app_assoc. now apply decode_u32_encode. }
  rewrite L, D.
  destruct (N.leb_spec 4 (4 + 8 * N.of_nat (length s) + len rest)); [|lia].
  destruct (N.leb_spec (4 + 8 * N.of_nat (length s))
                       (4 + 8 * N.of_nat (length s) + len rest)); [|lia].
  rewrite Nat2N.id. unfold SimpleSet.bytes at 1. rewrite <- app_assoc.
  change (skipn 4 (encode_u32 ?n ++ ?x)) with x.
  rewrite parse_entries_bytes by assumption.
  f_equal. f_equal. unfold len. rewrite length_bytes. lia.
Qed.

Lemma truncation (s : SimpleSet.t) : SimpleSet.fits s -> rejects_truncation s.
Proof.
  intros [Hc Hs] j Hj.
  cbn [AS_Deserialize AS_bytes SimpleSet.ops] in *. unfold SimpleSet.parse.
  rewrite length_bytes in Hj.
  assert (L : len (firstn j (SimpleSet.bytes s)) = N.of_nat j).
  { unfold len. rewrite length_firstn, length_bytes. lia. }
  rewrite L.
  destruct (N.leb_spec 4 (N.of_nat j)) as [H4|H4]; [|reflexivity].
  assert (D : decode_u32 (firstn j (SimpleSet.bytes s)) = N.of_nat (length s)).
  { unfold decode_u32. rewrite firstn_firstn.
    replace (Nat.min 4 j) with 4%nat by lia.
    unfold SimpleSet.bytes.
    change (firstn 4 (encode_u32 ?n ++ ?x)) with (encode_u32 n).
    now apply decode_le_encode_u32. }
  rewrite D.
  destruct (N.leb_spec (4 + 8 * N.of_nat (length s)) (N.of_nat j)); [lia | reflexivity].
Qed.

Lemma fits_aes128 : SimpleSet.fits Samples.aes128.
Proof.
  split; [reflexivity|].
  repeat constructor.
Qed.

Lemma fits_nil : SimpleSet.fits [].
Proof. split; [reflexivity | constructor]. Qed.

End SimpleSetFacts.

(** * The claims on sample blobs *)

(** C1 on the scenario, which is parsed as version 0, and on a blob in the
    unversioned layout, whose first byte is 1: it is handed to the
    unversioned path, which stores its fields and accepts it. *)
Lemma Deserialize_canonical_first_witness :
  legacy_entries (snd (Deserialize Samples.scenario_memory 181 (Samples.start 100))) = []
  /\ (let r := Deserialize Samples.legacy_memory 172 (Samples.start 100) in
      legacy_entries (snd r) = [100]
      /\ nonce_ (this (snd r)) = Some (repeat x01 12)
      /\ encrypted_key_material_ (this (snd r)) = Some (repeat xaa 16)
      /\ tag_ (this (snd r)) = Some (repeat x02 16)
      /\ enforced_ (this (snd r)) = Samples.aes128
      /\ fst r = true).
Proof.
  split.
  - destruct (Deserialize_canonical_first Samples.scenario_memory 181 (Samples.start 100))
      as (_ & _ & _ & Ha & _).
    refine (proj1 (Ha (repeat x00 12) (repeat xaa 16) (repeat x00 16)
                      (SimpleSet.bytes Samples.aes128 ++ SimpleSet.bytes [])
                      Samples.aes128 [] 20 4 _ _ _ _ _ _ _ _));
      vm_compute; first [reflexivity | discriminate].
  - cbv zeta.
    destruct (proj2 (proj2 (proj2 (proj2 (Deserialize_canonical_first
                                            Samples.legacy_memory 172
                                            (Samples.start 100))))))
      as (L & _ & F).
    { left. vm_compute. discriminate. }
    split; [exact L|].
    assert (G := F (repeat x01 12) (repeat xaa 16) (repeat x02 16)
                   (SimpleSet.bytes Samples.aes128 ++ SimpleSet.bytes [])
                   Samples.aes128 [] 20 4).
    cbv zeta in G.
    destruct G as (G1 & G2 & _ & G4 & G5 & _ & G7);
      [vm_compute; first [reflexivity | discriminate] ..|].
    split; [exact G1|]. split; [exact G2|]. split; [exact G4|]. split; [exact G5|].
    apply (proj2 G7). split; vm_compute; discriminate.
Defined.

(** C2 as stated fails: under two empty policy sets the serialized blob
    is parsed back, field for field, but Deserialize answers false. *)
Lemma roundtrip_without_characteristics :
  let written := Serialize Samples.bare Samples.fresh 100 165 in
  let r := Deserialize (omem (fst written)) (snd written) (Samples.start 100) in
  snd written = 165
  /\ fst r = false
  /\ error_ (this (snd r)) = KM_ERROR_UNSUPPORTED_ALGORITHM
  /\ nonce_ (this (snd r)) = nonce_ Samples.bare
  /\ encrypted_key_material_ (this (snd r)) = encrypted_key_material_ Samples.bare
  /\ tag_ (this (snd r)) = tag_ Samples.bare.
Proof. vm_compute. repeat split. Qed.

(** C2, amended, on the scenario. *)
Lemma Serialize_Deserialize_roundtrip_witness :
  let written :=
    Serialize (SetEncryptedKey (repeat xaa 16) (len (repeat xaa 16)) (repeat x00 12)
                               (repeat x00 16) (KeyBlob_of_sets Samples.aes128 []))
              Samples.fresh 100 181 in
  let r := Deserialize (omem (fst written)) (snd written) (Samples.start 100) in
  nonce_ (this (snd r)) = Some (repeat x00 12)
  /\ encrypted_key_material_ (this (snd r)) = Some (repeat xaa 16)
  /\ enforced_ (this (snd r)) = Samples.aes128.
Proof.
  cbv zeta.
  destruct (Serialize_Deserialize_roundtrip
              Samples.aes128 [] (repeat xaa 16) (repeat x00 12) (repeat x00 16)
              Samples.fresh 100 181 (Samples.start 100))
    as (R1 & R2 & _ & _ & R5 & _).
  - reflexivity.
  - reflexivity.
  - reflexivity.
  - apply SimpleSetFacts.exact.
  - apply SimpleSetFacts.exact.
  - apply SimpleSetFacts.roundtrip, SimpleSetFacts.fits_aes128.
  - apply SimpleSetFacts.roundtrip, SimpleSetFacts.fits_nil.
  - vm_compute. discriminate.
  - reflexivity.
  - reflexivity.
  - repeat split; assumption.
Defined.

(** C4 as stated fails: a blob with a zero nonce whose ciphertext holds,
    after 11 bytes, the bytes of two policy sets is serialized at addresses
    100 to 200; cut after its ciphertext, at 156, it is accepted by the
    unversioned parse, with a ciphertext of length 0 and no error. *)
Lemma truncated_blob_accepted :
  snd (Serialize Samples.nested Samples.fresh 100 200) = 200
  /\ fst (Deserialize Samples.nested_memory 200 (Samples.start 100)) = true
  /\ fst (Deserialize Samples.nested_memory 156 (Samples.start 100)) = true
  /\ error_ (this (snd (Deserialize Samples.nested_memory 156 (Samples.start 100))))
     = KM_ERROR_OK
  /\ key_material_length_
       (this (snd (Deserialize Samples.nested_memory 156 (Samples.start 100))))
     = 0
  /\ legacy_entries (snd (Deserialize Samples.nested_memory 156 (Samples.start 100)))
     = [100].
Proof. vm_compute. repeat split. Qed.

(** C4, amended, on the first 20 bytes of the scenario. *)
Lemma truncated_blob_not_version0_witness :
  fst (Deserialize Samples.scenario_memory 120 (Samples.start 100)) = false
  /\ error_ (this (snd (Deserialize Samples.scenario_memory 120 (Samples.start 100))))
     = KM_ERROR_INVALID_KEY_BLOB.
Proof.
  destruct (truncated_blob_not_version0
              Samples.aes128 [] (repeat xaa 16) (repeat x00 12) (repeat x00 16)
              Samples.scenario_memory 120 (Samples.start 100))
    as (_ & _ & _ & R).
  - reflexivity.
  - reflexivity.
  - reflexivity.
  - apply SimpleSetFacts.roundtrip, SimpleSetFacts.fits_aes128.
  - apply SimpleSetFacts.truncation, SimpleSetFacts.fits_aes128.
  - apply SimpleSetFacts.truncation, SimpleSetFacts.fits_nil.
  - split; [vm_compute; discriminate | vm_compute; reflexivity].
  - vm_compute. reflexivity.
  - apply R; vm_compute; reflexivity.
Defined.

(** C5 as stated fails: the scenario, with a nonce whose bytes 7 to 10
    read as the length 256, is cut one byte short.  The version-0 attempt
    stores the enforced set and then fails at the unenforced set; the
    unversioned attempt fails at its length field; the enforced set stays
    in the object, where DeserializeUnversionedBlob alone leaves the set the
    object was constructed with. *)
Lemma failed_attempt_leaves_fields :
  let w := Samples.start 100 in
  let both := snd (Deserialize Samples.offset_memory 180 w) in
  let alone := snd (DeserializeUnversionedBlob Samples.offset_memory 180 w) in
  fst (versioned_parse_failed Samples.offset_memory 180 w) = true
  /\ enforced_ (this w) = []
  /\ enforced_ (this (snd (versioned_parse_failed Samples.offset_memory 180 w)))
     = Samples.aes128
  /\ fst (Deserialize Samples.offset_memory 180 w) = false
  /\ enforced_ (this both) = Samples.aes128
  /\ enforced_ (this alone) = [].
Proof. vm_compute. repeat split. Qed.

(** C5, amended, on a blob in the unversioned layout. *)
Lemma fallback_fields_from_legacy_parse_witness :
  nonce_ (this (snd (Deserialize Samples.legacy_memory 172 (Samples.start 100))))
  = Some (read_bytes Samples.legacy_memory 100 NONCE_LENGTH).
Proof.
  destruct (fallback_fields_from_legacy_parse
              Samples.legacy_memory 172 (Samples.start 100))
    as (_ & _ & _ & _ & R).
  - vm_compute. reflexivity.
  - apply R; vm_compute; reflexivity.
Defined.

(** C6 as stated fails: an object whose error member holds the
    invalid-blob error deserializes the scenario with success, and the
    member still holds that error. *)
Lemma success_keeps_stale_error :
  let w := with_error KM_ERROR_INVALID_KEY_BLOB (Samples.start 100) in
  fst (Deserialize Samples.scenario_memory 181 w) = true
  /\ error_ (this (snd (Deserialize Samples.scenario_memory 181 w)))
     = KM_ERROR_INVALID_KEY_BLOB.
Proof. vm_compute. split; reflexivity. Qed.

(** C6, amended, on the scenario, whole and cut short. *)
Lemma error_member_sticky_witness :
  error_ (this (snd (Deserialize Samples.scenario_memory 181 (Samples.start 100))))
  = KM_ERROR_OK
  /\ error_ (this (snd (Deserialize Samples.scenario_memory 120 (Samples.start 100))))
     <> KM_ERROR_OK.
Proof.
  split.
  - apply (proj2 (proj1 (error_member_sticky
                           Samples.scenario_memory 181 (Samples.start 100)))).
    vm_compute. reflexivity.
  - apply (proj1 (proj1 (error_member_sticky
                           Samples.scenario_memory 120 (Samples.start 100)))).
    vm_compute. reflexivity.
Defined.

(** C7 on the scenario and on the blob with two empty policy sets. *)
Lemma ExtractKeyCharacteristics_order_witness :
  algorithm_ (snd (ExtractKeyCharacteristics Samples.scenario)) = 32
  /\ key_size_bits_ (snd (ExtractKeyCharacteristics Samples.scenario)) = 128
  /\ ExtractKeyCharacteristics Samples.bare
     = (false, set_error KM_ERROR_UNSUPPORTED_ALGORITHM Samples.bare).
Proof.
  destruct (ExtractKeyCharacteristics_order Samples.scenario) as (A & _ & _ & K & _).
  destruct (ExtractKeyCharacteristics_order Samples.bare) as (_ & _ & B & _).
  split; [apply A; reflexivity|].
  split; [|apply B; reflexivity].
  destruct K as (K & _); [vm_compute; discriminate|].
  apply (K 128). reflexivity.
Defined.

(** C8 on the blob that fails both parses, its length field announcing
    256 bytes where 64 are left, and on the blob in the unversioned layout
    when the tag allocation fails. *)
Lemma legacy_failure_reason_witness :
  (let r := Deserialize Samples.offset_memory 180 (Samples.start 100) in
   fst r = false
   /\ error_ (this (snd r)) = KM_ERROR_INVALID_KEY_BLOB
   /\ encrypted_key_material_ (this (snd r)) = None)
  /\ (let r := Deserialize Samples.legacy_memory 172 (mkWorld blank 100 [true; false] []) in
      fst r = false
      /\ error_ (this (snd r)) = KM_ERROR_MEMORY_ALLOCATION_FAILED).
Proof.
  split; cbv zeta.
  - destruct (legacy_failure_reason Samples.offset_memory 180 (Samples.start 100))
      as (_ & _ & _ & R & _).
    assert (R' := R ltac:(vm_compute; reflexivity)). cbv zeta in R'.
    apply (proj2 R'); [vm_compute; reflexivity ..|].
    left. intros [Hq _]. vm_compute in Hq. apply Hq. reflexivity.
  - destruct (legacy_failure_reason Samples.legacy_memory 172
                (mkWorld (@blank SimpleSet.t SimpleSet.ops) 100 [true; false] []))
      as (_ & _ & _ & R & _).
    assert (R' := R ltac:(vm_compute; reflexivity)). cbv zeta in R'.
    apply (proj1 R'). right. vm_compute. reflexivity.
Defined.



(** * Further properties of the codec *)

(** ** What Deserialize accepts *)

Section Accepted.

Context {AuthorizationSet : Type} `{AuthorizationSetOps AuthorizationSet}.

Local Abbreviation world := (world AuthorizationSet).
Local Abbreviation M := (M AuthorizationSet).
Local Abbreviation KeyBlob := (KeyBlob AuthorizationSet).

(** The members of an accepted object: what either parse stored, under a
    successful extraction. *)
Lemma Deserialize_accepted_members (m : memory) (end_ : N) (w : world) :
  fst (Deserialize m end_ w) = true ->
  exists n c t e u a s,
    this (snd (Deserialize m end_ w))
    = mkKeyBlob (error_ (this w)) (Some n) (Some c) (Some t) (len c) e u a s
    /\ len n = NONCE_LENGTH /\ len t = TAG_LENGTH /\ len c < UINT32_LIMIT
    /\ lookup_both (KeyBlob_of_sets e u) TAG_ALGORITHM = Some a
    /\ lookup_both (KeyBlob_of_sets e u) TAG_KEY_SIZE = Some s
    /\ buf_ptr w + NONCE_LENGTH + 4 + len c + TAG_LENGTH <= end_.
Proof.
  intros Hok.
  destruct (Deserialize_accepted m end_ w Hok) as (w1 & Hpath & Hx & ->).
  rewrite lift_eq. cbn [snd this].
  rewrite ExtractKeyCharacteristics_eq in Hx |- *.
  destruct (lookup_both (this w1) TAG_ALGORITHM) as [a|] eqn:Ea; [|discriminate Hx].
  destruct (lookup_both (this w1) TAG_KEY_SIZE) as [s|] eqn:Es; [|discriminate Hx].
  cbn [snd].
  destruct Hpath as [Hv | [Hv Hu]].
  - pose proof (versioned_parse_ok_fields m end_ w w1 Hv) as F. cbv zeta in F.
    destruct F as (_ & _ & _ & Hq & e & n1 & u & n2 & _ & _ & T & _).
    set (k := decode_u32 (read_bytes m (buf_ptr w + 1 + 4 + NONCE_LENGTH) 4)) in *.
    exists (read_bytes m (buf_ptr w + 1 + 4) NONCE_LENGTH),
      (read_bytes m (buf_ptr w + 1 + 4 + NONCE_LENGTH + 4) k),
      (read_bytes m (buf_ptr w + 1 + 4 + NONCE_LENGTH + 4 + k + 4) TAG_LENGTH),
      e, u, a, s.
    rewrite !len_read_bytes. rewrite T in Ea, Es |- *.
    split; [reflexivity|]. split; [reflexivity|]. split; [reflexivity|].
    split; [apply decode_u32_bound|].
    split; [exact Ea|]. split; [exact Es|]. lia.
  - pose proof (unversioned_parse_ok_fields m end_ _ w1 Hu) as F. cbv zeta in F.
    rewrite enter_unversioned_ptr in F.
    change (buf_ptr (fallback_state m end_ w)) with (buf_ptr w) in F.
    destruct F as (e & n1 & u & n2 & _ & _ & T & _ & Hq).
    set (k := decode_u32 (read_bytes m (buf_ptr w + NONCE_LENGTH) 4)) in *.
    exists (read_bytes m (buf_ptr w) NONCE_LENGTH),
      (read_bytes m (buf_ptr w + NONCE_LENGTH + 4) k),
      (read_bytes m (buf_ptr w + NONCE_LENGTH + 4 + k) TAG_LENGTH),
      e, u, a, s.
    rewrite !len_read_bytes. rewrite T in Ea, Es |- *.
    assert (Herr : error_ (this (snd (enter_unversioned (fallback_state m end_ w))))
                   = error_ (this w)).
    { rewrite enter_unversioned_eq. cbn [snd this set_tag set_nonce error_].
      rewrite fallback_state_eq. cbv zeta. cbn [this].
      apply (uniform_error (versioned_parse_failed m end_) w),
        uniform_versioned_parse_failed. }
    split; [rewrite <- Herr; reflexivity|].
    split; [reflexivity|]. split; [reflexivity|].
    split; [apply decode_u32_bound|].
    split; [exact Ea|]. split; [exact Es|]. lia.
Qed.

(** X1. The extraction that Deserialize runs in line 100 after
    DeserializeUnversionedBlob has answered true, which ended in an
    extraction of its own (line 120), answers true again and changes
    nothing: extracting twice is extracting once. *)
Theorem second_extraction_changes_nothing :
  (forall kb : KeyBlob,
     ExtractKeyCharacteristics (snd (ExtractKeyCharacteristics kb))
     = ExtractKeyCharacteristics kb)
  /\ (forall m end_ (w : world),
        fst (DeserializeUnversionedBlob m end_ w) = true ->
        lift ExtractKeyCharacteristics (snd (DeserializeUnversionedBlob m end_ w))
        = (true, snd (DeserializeUnversionedBlob m end_ w))).
Proof.
  split; [apply ExtractKeyCharacteristics_twice|].
  intros m end_ w. rewrite DeserializeUnversionedBlob_eq. cbv zeta.
  destruct (fst (enter_unversioned w)); [|discriminate].
  destruct (fst (unversioned_parse_failed m end_ _)); [discriminate|].
  rewrite !lift_eq. cbn [fst snd this buf_ptr heap trace].
  rewrite ExtractKeyCharacteristics_twice. now intros ->.
Qed.

(** X2. Both deserializing constructors leave OK in the error member
    exactly when their Deserialize call answered true, and the constructor
    from a key blob record is the constructor from its bytes and length. *)
Theorem constructors_error_reflects_verdict (m : memory) (h : list bool) :
  (forall key_blob key_blob_length,
     let r := KeyBlob_of_bytes m key_blob key_blob_length h in
     fst r = true <-> error_ (this (snd r)) = KM_ERROR_OK)
  /\ (forall key_blob : keymaster_key_blob_t,
        let r := KeyBlob_of_key_blob m key_blob h in
        (fst r = true <-> error_ (this (snd r)) = KM_ERROR_OK)
        /\ r = KeyBlob_of_bytes m (key_material key_blob) (key_material_size key_blob) h).
Proof.
  assert (G : forall end_ p,
             let r := Deserialize m end_ (mkWorld blank p h []) in
             fst r = true <-> error_ (this (snd r)) = KM_ERROR_OK).
  { intros end_ p. cbv zeta.
    destruct (sticky_error (Deserialize m end_) (mkWorld blank p h [])
                (error_blind_Deserialize m end_) (gives_reason_Deserialize m end_))
      as [Hf Ht].
    destruct (fst (Deserialize m end_ (mkWorld blank p h []))).
    - split; [intros _; now apply Ht | reflexivity].
    - split; [discriminate|]. intros E. now destruct (Hf eq_refl) as [Hne _]. }
  split.
  - intros key_blob key_blob_length. apply G.
  - intros key_blob. cbv zeta. split; [apply G | reflexivity].
Qed.

(** X3. An object Deserialize accepted owns a nonce of NONCE_LENGTH
    bytes, a tag of TAG_LENGTH bytes and a ciphertext of exactly
    key_material_length bytes, a length that fits a length field; and the
    input held at least the nonce, a length field, the ciphertext and the
    tag. *)
Theorem Deserialize_accepts_sized_buffers (m : memory) (end_ : N) (w : world) :
  fst (Deserialize m end_ w) = true ->
  let kb := this (snd (Deserialize m end_ w)) in
  buffers_sized kb
  /\ buf_ptr w + NONCE_LENGTH + 4 + key_material_length kb + TAG_LENGTH <= end_.
Proof.
  intros Hok. cbv zeta.
  destruct (Deserialize_accepted_members m end_ w Hok)
    as (n & c & t & e & u & a & s & -> & Hn & Ht & Hc & _ & _ & Hq).
  unfold buffers_sized, key_material_length.
  cbn [nonce_ encrypted_key_material_ tag_ key_material_length_].
  split; [|exact Hq].
  split; [now exists n|]. split; [now exists c|]. split; [now exists t|]. exact Hc.
Qed.

(** X4. In an object Deserialize accepted, the algorithm and the key size
    are the first values found for their tags, looking in the enforced set
    and then in the unenforced one. *)
Theorem Deserialize_accepts_characteristics (m : memory) (end_ : N) (w : world) :
  fst (Deserialize m end_ w) = true ->
  let kb := this (snd (Deserialize m end_ w)) in
  lookup_both kb TAG_ALGORITHM = Some (algorithm_ kb)
  /\ lookup_both kb TAG_KEY_SIZE = Some (key_size_bits_ kb).
Proof.
  intros Hok. cbv zeta.
  destruct (Deserialize_accepted_members m end_ w Hok)
    as (n & c & t & e & u & a & s & -> & _ & _ & _ & Ha & Hs & _).
  cbn [algorithm_ key_size_bits_]. split.
  - rewrite <- Ha. reflexivity.
  - rewrite <- Hs. reflexivity.
Qed.

(** X5. An input of fewer than NONCE_LENGTH + 4 + TAG_LENGTH bytes is
    rejected whatever it holds: by the unversioned parse with the
    invalid-blob error and a cleared ciphertext when the allocations succeed,
    and otherwise with one of that error and the allocation failure. *)
Theorem short_input_rejected (m : memory) (end_ : N) (w : world) :
  end_ < buf_ptr w + NONCE_LENGTH + 4 + TAG_LENGTH ->
  let r := Deserialize m end_ w in
  fst r = false
  /\ (error_ (this (snd r)) = KM_ERROR_INVALID_KEY_BLOB
      \/ error_ (this (snd r)) = KM_ERROR_MEMORY_ALLOCATION_FAILED)
  /\ (heap_ok (heap w) ->
      error_ (this (snd r)) = KM_ERROR_INVALID_KEY_BLOB
      /\ encrypted_key_material_ (this (snd r)) = None).
Proof.
  intros Hshort. cbv zeta.
  assert (Hv : fst (versioned_parse_failed m end_ w) = true).
  { destruct (versioned_parse_failed m end_ w) as [[|] w1] eqn:E; [reflexivity|].
    pose proof (versioned_parse_ok_fields m end_ w w1 E) as F. cbv zeta in F.
    destruct F as (_ & _ & _ & Hq & _). lia. }
  destruct (Deserialize_fallback_failure m end_ w Hv) as [Hm Hi]. cbv zeta in Hm, Hi.
  assert (Hp : fst (unversioned_parse_failed m end_
                      (snd (enter_unversioned (fallback_state m end_ w)))) = true).
  { apply unversioned_parse_short. rewrite enter_unversioned_ptr.
    change (buf_ptr (fallback_state m end_ w)) with (buf_ptr w). exact Hshort. }
  destruct (fst (enter_unversioned (fallback_state m end_ w))) eqn:Ea.
  - destruct (Hi eq_refl Hp) as (F1 & F2 & F3).
    split; [exact F1|]. split; [now left|]. intros _. now split.
  - destruct (Hm eq_refl) as (F1 & F2).
    split; [exact F1|]. split; [now right|]. intros Hh.
    rewrite (fallback_allocates m end_ w Hh) in Ea. discriminate Ea.
Qed.

End Accepted.

(** ** Old contents, old blobs and new blobs *)

Section Reuse.

Context {AuthorizationSet : Type} `{AuthorizationSetOps AuthorizationSet}.

Local Abbreviation world := (world AuthorizationSet).
Local Abbreviation M := (M AuthorizationSet).
Local Abbreviation KeyBlob := (KeyBlob AuthorizationSet).

(** Extraction on two objects that agree on the buffers, the length and
    the policy sets. *)
Lemma ExtractKeyCharacteristics_agree (kb1 kb2 : KeyBlob) :
  nonce_ kb1 = nonce_ kb2 ->
  encrypted_key_material_ kb1 = encrypted_key_material_ kb2 ->
  tag_ kb1 = tag_ kb2 ->
  key_material_length_ kb1 = key_material_length_ kb2 ->
  enforced_ kb1 = enforced_ kb2 -> unenforced_ kb1 = unenforced_ kb2 ->
  fst (ExtractKeyCharacteristics kb1) = fst (ExtractKeyCharacteristics kb2)
  /\ (fst (ExtractKeyCharacteristics kb1) = true ->
      snd (ExtractKeyCharacteristics kb1)
      = set_error (error_ kb1) (snd (ExtractKeyCharacteristics kb2))).
Proof.
  destruct kb1 as [e1 n1 c1 t1 l1 en1 un1 a1 s1], kb2 as [e2 n2 c2 t2 l2 en2 un2 a2 s2].
  cbn [nonce_ encrypted_key_material_ tag_ key_material_length_ enforced_ unenforced_].
  intros -> -> -> -> -> ->.
  rewrite !ExtractKeyCharacteristics_eq. unfold lookup_both.
  cbn [enforced_ unenforced_].
  destruct (match AS_GetTagValue en2 TAG_ALGORITHM with
            | Some v => Some v
            | None => AS_GetTagValue un2 TAG_ALGORITHM
            end); [|split; [reflexivity | discriminate]].
  destruct (match AS_GetTagValue en2 TAG_KEY_SIZE with
            | Some v => Some v
            | None => AS_GetTagValue un2 TAG_KEY_SIZE
            end); split; try reflexivity; try discriminate.
Qed.

Lemma commutes_error_ (f : KeyBlob -> KeyBlob) (kb : KeyBlob) :
  @commutes_with_error AuthorizationSet f -> error_ (f kb) = error_ kb.
Proof.
  intros C. rewrite <- (set_error_same kb) at 1. now rewrite C.
Qed.

(** X6. What Deserialize answers, what it reads, what it allocates and
    where it leaves the cursor do not depend on what the object held before
    the call; and when it answers true it has overwritten every member but
    the error member. *)
Theorem Deserialize_overwrites_object (m : memory) (end_ p : N) (h : list bool)
        (tr : list event) (kb kb' : KeyBlob) :
  let r := Deserialize m end_ (mkWorld kb p h tr) in
  let r' := Deserialize m end_ (mkWorld kb' p h tr) in
  fst r = fst r'
  /\ buf_ptr (snd r) = buf_ptr (snd r') /\ heap (snd r) = heap (snd r')
  /\ trace (snd r) = trace (snd r')
  /\ (fst r = true -> this (snd r) = set_error (error_ kb) (this (snd r'))).
Proof.
  cbv zeta.
  destruct (uniform_versioned_parse_failed m end_ p h tr)
    as (a & f & p1 & h1 & tr1 & Cf & Ev).
  destruct a.
  - rewrite !Deserialize_fallback_eq by (rewrite Ev; reflexivity).
    rewrite !fallback_state_eq. cbv zeta. rewrite !Ev.
    cbn [snd this buf_ptr heap trace].
    rewrite !DeserializeUnversionedBlob_eq. cbv zeta.
    destruct (@uniform_enter_unversioned AuthorizationSet p h1 tr1) as (b & g & p2 & h2 & tr2 & Cg & Ee).
    rewrite !Ee. cbn [fst snd this buf_ptr heap trace].
    destruct b; [|now repeat split].
    destruct (uniform_unversioned_parse_failed m end_ p2 h2 tr2)
      as (c & g' & p3 & h3 & tr3 & _ & Eu).
    pose proof (Eu (g (f kb))) as E1. pose proof (Eu (g (f kb'))) as E2.
    rewrite E1, E2. cbn [fst snd this buf_ptr heap trace].
    destruct c; [now repeat split|].
    apply unversioned_parse_ok_fields in E1, E2. cbv zeta in E1, E2.
    cbn [this buf_ptr] in E1, E2.
    destruct E1 as (e & n1 & u & n2 & D1 & D2 & T & _).
    destruct E2 as (e' & n1' & u' & n2' & D1' & D2' & T' & _).
    rewrite D1 in D1'. injection D1' as <- <-.
    rewrite D2 in D2'. injection D2' as <- <-.
    rewrite T, T'.
    assert (Herr : error_ (g (f kb)) = error_ kb)
      by (now rewrite (commutes_error_ g _ Cg), (commutes_error_ f _ Cf)).
    rewrite !lift_eq. cbn [fst snd this buf_ptr heap trace].
    match goal with
    | |- fst (ExtractKeyCharacteristics ?X) = fst (ExtractKeyCharacteristics ?Y) /\ _ =>
        destruct (ExtractKeyCharacteristics_agree X Y) as [A1 A2]; try reflexivity
    end.
    cbn [error_ set_unenforced set_enforced set_tag set_encrypted_key_material
         set_key_material_length set_nonce] in A2.
    rewrite Herr in A2. now repeat split.
  - pose proof (Ev kb) as E1. pose proof (Ev kb') as E2.
    rewrite !Deserialize_eq. rewrite E1, E2. cbn [fst snd].
    apply versioned_parse_ok_fields in E1, E2. cbv zeta in E1, E2.
    cbn [this buf_ptr] in E1, E2.
    destruct E1 as (_ & _ & _ & _ & e & n1 & u & n2 & D1 & D2 & T & _).
    destruct E2 as (_ & _ & _ & _ & e' & n1' & u' & n2' & D1' & D2' & T' & _).
    rewrite D1 in D1'. injection D1' as <- <-.
    rewrite D2 in D2'. injection D2' as <- <-.
    rewrite T, T'.
    rewrite !lift_eq. cbn [fst snd this buf_ptr heap trace].
    match goal with
    | |- fst (ExtractKeyCharacteristics ?X) = fst (ExtractKeyCharacteristics ?Y) /\ _ =>
        destruct (ExtractKeyCharacteristics_agree X Y) as [A1 A2]; try reflexivity
    end.
    cbn [error_ set_unenforced set_enforced set_tag set_encrypted_key_material
         set_key_material_length set_nonce] in A2.
    now repeat split.
Qed.

(** The canonical bytes of an object whose buffers have their declared
    lengths. *)
Lemma blob_bytes_members (err : keymaster_error_t) (n c t : list byte)
      (e u : AuthorizationSet) (a s : N) :
  len n = NONCE_LENGTH -> len t = TAG_LENGTH ->
  blob_bytes (mkKeyBlob err (Some n) (Some c) (Some t) (len c) e u a s)
  = header_bytes n c t ++ AS_bytes e ++ AS_bytes u.
Proof.
  intros _ _. reflexivity.
Qed.

(** X7. An object Deserialize accepted, from a blob of either layout,
    serializes to a version-0 blob that Deserialize accepts in turn without
    entering the unversioned path, giving every member back and stopping
    where Serialize stopped; Serialize reads past none of the object's
    buffers.  (The buffer has room for the blob, allocations succeed, and
    the object's policy sets report the size they write and deserialize to
    themselves.) *)
Theorem accepted_object_reserializes (m : memory) (end_ : N) (w : world)
        (o : out_buffer) (buf end2 : N) (w2 : world) :
  fst (Deserialize m end_ w) = true ->
  let kb := this (snd (Deserialize m end_ w)) in
  exact_size (enforced_ kb) -> exact_size (unenforced_ kb) ->
  roundtrips (enforced_ kb) -> roundtrips (unenforced_ kb) ->
  buf + len (blob_bytes kb) <= end2 ->
  buf_ptr w2 = buf -> heap_ok (heap w2) ->
  let written := Serialize kb o buf end2 in
  let r := Deserialize (omem (fst written)) (snd written) w2 in
  fst r = true
  /\ this (snd r) = set_error (error_ (this w2)) kb
  /\ buf_ptr (snd r) = snd written
  /\ snd written = buf + len (blob_bytes kb)
  /\ ofault (fst written) = ofault o
  /\ legacy_entries (snd r) = legacy_entries w2.
Proof.
  intros Hok. cbv zeta.
  destruct (Deserialize_accepted_members m end_ w Hok)
    as (n & c & t & e & u & a & s & -> & Hn & Ht & Hc & Ha & Hs & _).
  set (kb := mkKeyBlob _ _ _ _ _ _ _ _ _).
  change (enforced_ kb) with e. change (unenforced_ kb) with u.
  intros Se Su Re Ru Hfit Hp Hheap.
  assert (Hb : blob_bytes kb = header_bytes n c t ++ AS_bytes e ++ AS_bytes u)
    by (now apply blob_bytes_members).
  assert (Hsz : buffers_sized kb).
  { unfold buffers_sized, kb.
    split; [now exists n|]. split; [now exists c|]. split; [now exists t | exact Hc]. }
  assert (Hlen : len (blob_bytes kb) = unbounded_size kb) by now apply len_blob_bytes.
  rewrite Hlen in Hfit |- *.
  rewrite (Serialize_fits kb o buf end2 Se Su Hsz Hfit). cbn [fst snd put omem ofault].
  set (m2 := write_bytes (omem o) buf (blob_bytes kb)).
  set (stop := buf + unbounded_size kb).
  assert (Hmem : read_bytes m2 (buf_ptr w2) (stop - buf_ptr w2)
                 = header_bytes n c t ++ (AS_bytes e ++ AS_bytes u)).
  { rewrite Hp. unfold stop, m2.
    replace (buf + unbounded_size kb - buf) with (len (blob_bytes kb)) by lia.
    now rewrite read_write_same. }
  assert (Hu : AS_Deserialize (skipn (N.to_nat (len (AS_bytes e))) (AS_bytes e ++ AS_bytes u))
               = Some (u, len (AS_bytes u))).
  { unfold len at 1. rewrite Nat2N.id, skipn_app, skipn_all, Nat.sub_diag.
    cbn [skipn app]. rewrite <- (app_nil_r (AS_bytes u)) at 1. apply Ru. }
  destruct (versioned_parse_ok m2 stop w2 _ _ _ _ e u _ _ Hn Ht Hc
              ltac:(unfold stop; lia) Hmem (Re _) Hu Hheap) as (w1 & E & T & P & _).
  pose proof (Deserialize_legacy_entries m2 stop w2) as L.
  rewrite E in L. cbn [fst] in L. rewrite app_nil_r in L.
  revert L. rewrite Deserialize_eq, E. cbn [fst snd].
  rewrite lift_eq. cbn [fst snd this buf_ptr]. intros L.
  rewrite ExtractKeyCharacteristics_eq, T.
  replace (lookup_both (set_unenforced u (set_enforced e (parsed_fields n c t (this w2)))))
    with (lookup_both (KeyBlob_of_sets e u)) by reflexivity.
  rewrite Ha, Hs. cbn [fst snd].
  split; [reflexivity|]. split; [reflexivity|].
  split; [rewrite P, Hp; unfold stop; rewrite <- Hlen, Hb, !len_app; lia|].
  split; [reflexivity|]. split; [reflexivity | exact L].
Qed.

End Reuse.

(** ** The buffer around a serialized blob *)

Lemma append_to_buf_mem (o : out_buffer) (buf end_ a : N) (data : list byte) (n : N) :
  a < buf \/ end_ <= a ->
  omem (fst (append_to_buf o buf end_ data n)) a = omem o a.
Proof.
  intros Ha. unfold append_to_buf.
  destruct (N.leb_spec (buf + n) end_); [|reflexivity].
  destruct (fetch data n) as [bytes|] eqn:E; [|reflexivity].
  apply fetch_Some in E. destruct E as [E _].
  cbn [fst put omem]. apply write_bytes_outside. lia.
Qed.

Lemma append_size_and_data_to_buf_mem (o : out_buffer) (buf end_ a : N)
      (data : list byte) (n : N) :
  a < buf \/ end_ <= a ->
  omem (fst (append_size_and_data_to_buf o buf end_ data n)) a = omem o a.
Proof.
  intros Ha. unfold append_size_and_data_to_buf, append_uint32_to_buf.
  pose proof (append_to_buf_mem o buf end_ a (encode_u32 n) 4 Ha) as E1.
  pose proof (append_to_buf_pos o buf end_ (encode_u32 n) 4) as P1.
  destruct (append_to_buf o buf end_ (encode_u32 n) 4) as [o1 buf1].
  cbn [fst snd] in E1, P1.
  rewrite append_to_buf_mem by lia. exact E1.
Qed.

Section Frame.

Context {AuthorizationSet : Type} `{AuthorizationSetOps AuthorizationSet}.

Local Abbreviation KeyBlob := (KeyBlob AuthorizationSet).

(** All that Serialize does to an address below [buf + 1] or from [end_]
    on is to store the version byte. *)
Lemma Serialize_mem (kb : KeyBlob) (o : out_buffer) (buf end_ a : N) :
  a <= buf \/ end_ <= a ->
  omem (fst (Serialize kb o buf end_)) a = omem (put o buf [BLOB_VERSION]) a.
Proof.
  intros Ha. unfold Serialize, AS_Serialize.
  set (o0 := put o buf [BLOB_VERSION]).
  pose proof (append_size_and_data_to_buf_mem o0 (buf + 1) end_ a (nonce kb) NONCE_LENGTH
                ltac:(lia)) as E1.
  pose proof (append_size_and_data_to_buf_pos o0 (buf + 1) end_ (nonce kb) NONCE_LENGTH) as P1.
  destruct (append_size_and_data_to_buf o0 (buf + 1) end_ (nonce kb) NONCE_LENGTH)
    as [o1 b1]. cbn [fst snd] in E1, P1.
  pose proof (append_size_and_data_to_buf_mem o1 b1 end_ a (encrypted_key_material kb)
                (key_material_length kb) ltac:(lia)) as E2.
  pose proof (append_size_and_data_to_buf_pos o1 b1 end_ (encrypted_key_material kb)
                (key_material_length kb)) as P2.
  destruct (append_size_and_data_to_buf o1 b1 end_ (encrypted_key_material kb)
              (key_material_length kb)) as [o2 b2]. cbn [fst snd] in E2, P2.
  pose proof (append_size_and_data_to_buf_mem o2 b2 end_ a (tag kb) TAG_LENGTH
                ltac:(lia)) as E3.
  pose proof (append_size_and_data_to_buf_pos o2 b2 end_ (tag kb) TAG_LENGTH) as P3.
  destruct (append_size_and_data_to_buf o2 b2 end_ (tag kb) TAG_LENGTH) as [o3 b3].
  cbn [fst snd] in E3, P3.
  pose proof (append_to_buf_mem o3 b3 end_ a (AS_bytes (enforced_ kb))
                (len (AS_bytes (enforced_ kb))) ltac:(lia)) as E4.
  pose proof (append_to_buf_pos o3 b3 end_ (AS_bytes (enforced_ kb))
                (len (AS_bytes (enforced_ kb)))) as P4.
  destruct (append_to_buf o3 b3 end_ (AS_bytes (enforced_ kb))
              (len (AS_bytes (enforced_ kb)))) as [o4 b4]. cbn [fst snd] in E4, P4.
  pose proof (append_to_buf_mem o4 b4 end_ a (AS_bytes (unenforced_ kb))
                (len (AS_bytes (unenforced_ kb))) ltac:(lia)) as E5.
  destruct (append_to_buf o4 b4 end_ (AS_bytes (unenforced_ kb))
              (len (AS_bytes (unenforced_ kb)))) as [o5 b5]. cbn [fst snd] in E5.
  cbn [fst]. now rewrite E5, E4, E3, E2, E1.
Qed.

(** X8. Whatever the capacity of the buffer, Serialize leaves the version
    byte at [buf], and changes no byte below [buf] and no other byte from
    [end_] on. *)
Theorem Serialize_frame (kb : KeyBlob) (o : out_buffer) (buf end_ : N) :
  omem (fst (Serialize kb o buf end_)) buf = BLOB_VERSION
  /\ forall a, a < buf \/ (end_ <= a /\ a <> buf) ->
       omem (fst (Serialize kb o buf end_)) a = omem o a.
Proof.
  split.
  - rewrite Serialize_mem by lia. cbn [put omem write_bytes]. unfold store.
    now rewrite N.eqb_refl.
  - intros a Ha. rewrite Serialize_mem by lia. cbn [put omem write_bytes]. unfold store.
    destruct (N.eqb_spec a buf); [lia | reflexivity].
Qed.

End Frame.

(** ** Where the cursor goes and what is read *)

Lemma Forall_read_from (lo p n : N) :
  lo <= p -> Forall (read_from lo) (map EvRead (addresses p n)).
Proof.
  intros Hb. apply Forall_forall. intros e (a & <- & Ha)%in_map_iff.
  apply In_addresses in Ha. cbn [read_from]. lia.
Qed.

Section RangeFacts.

Context {AuthorizationSet : Type} `{AuthorizationSetOps AuthorizationSet}.

Local Abbreviation world := (world AuthorizationSet).
Local Abbreviation M := (M AuthorizationSet).
Local Abbreviation KeyBlob := (KeyBlob AuthorizationSet).
Local Abbreviation reads_from lo c := (@reads_from AuthorizationSet _ lo c).
Local Abbreviation stays_below hi c := (@stays_below AuthorizationSet _ hi c).

Lemma reads_from_ret {A} (lo : N) (a : A) : reads_from lo (ret a).
Proof.
  intros w a' w' Hlo [= <- <-]. split; [exact Hlo|].
  exists []. split; [now rewrite app_nil_r | constructor].
Qed.

Lemma reads_from_bind {A B} (lo : N) (c : M A) (k : A -> M B) :
  reads_from lo c -> (forall a, reads_from lo (k a)) -> reads_from lo (bind c k).
Proof.
  intros Hc Hk w b w' Hlo. unfold bind.
  destruct (c w) as [a w1] eqn:E1. intros E2.
  destruct (Hc _ _ _ Hlo E1) as (L1 & evs1 & T1 & F1).
  destruct (Hk a _ _ _ L1 E2) as (L2 & evs2 & T2 & F2).
  split; [exact L2|].
  exists (evs1 ++ evs2). split.
  - now rewrite T2, T1, app_assoc.
  - now apply Forall_app.
Qed.

Lemma reads_from_get_ptr (lo : N) : reads_from lo get_ptr.
Proof.
  intros w a w' Hlo [= <- <-]. split; [exact Hlo|].
  exists []. split; [now rewrite app_nil_r | constructor].
Qed.

Lemma reads_from_set_ptr (lo p : N) : lo <= p -> reads_from lo (set_ptr p).
Proof.
  intros Hp w a w' Hlo [= <- <-]. split; [exact Hp|].
  exists []. cbn [trace]. split; [now rewrite app_nil_r | constructor].
Qed.

Lemma reads_from_modify (lo : N) (f : KeyBlob -> KeyBlob) : reads_from lo (modify f).
Proof.
  intros w a w' Hlo [= <- <-]. split; [exact Hlo|].
  exists []. cbn [trace]. split; [now rewrite app_nil_r | constructor].
Qed.

Lemma reads_from_lift {A} (lo : N) (f : KeyBlob -> A * KeyBlob) : reads_from lo (lift f).
Proof.
  intros w a w' Hlo. rewrite lift_eq. intros [= <- <-]. split; [exact Hlo|].
  exists []. cbn [trace]. split; [now rewrite app_nil_r | constructor].
Qed.

Lemma reads_from_emit (lo : N) (evs : list event) :
  Forall (read_from lo) evs -> reads_from lo (emit evs).
Proof.
  intros F w a w' Hlo [= <- <-]. split; [exact Hlo|]. now exists evs.
Qed.

Lemma reads_from_new_array (lo n : N) : reads_from lo (new_array n).
Proof.
  intros w a w' Hlo. unfold new_array.
  destruct (hd true (heap w)); intros [= <- <-]; (split; [exact Hlo|]);
    exists []; cbn [trace]; (split; [now rewrite app_nil_r | constructor]).
Qed.

Lemma reads_from_if {A} (lo : N) (b : bool) (c1 c2 : M A) :
  reads_from lo c1 -> reads_from lo c2 -> reads_from lo (if b then c1 else c2).
Proof. now destruct b. Qed.

(** A computation that starts by looking at the cursor. *)
Lemma reads_from_at {A} (lo : N) (k : N -> M A) :
  (forall p, lo <= p -> reads_from lo (k p)) -> reads_from lo (bind get_ptr k).
Proof.
  intros Hk w a w' Hlo E. unfold bind, get_ptr in E.
  exact (Hk (buf_ptr w) Hlo w a w' Hlo E).
Qed.

Ltac reads_from_steps :=
  repeat first
    [ apply reads_from_ret
    | apply reads_from_modify
    | apply reads_from_lift
    | apply reads_from_new_array
    | apply reads_from_set_ptr; lia
    | apply reads_from_emit; first [ apply Forall_read_from; lia
                                   | repeat constructor; cbn [read_from]; lia ]
    | apply reads_from_at; intros ? ?
    | apply reads_from_bind; [|intros ?]
    | apply reads_from_if
    | match goal with
      | |- reads_from _ (match ?x with _ => _ end) => destruct x
      | |- reads_from _ (let _ := _ in _) => cbv zeta
      end ].

Lemma reads_from_read_u8 (lo : N) (m : memory) : reads_from lo (read_u8 m).
Proof. unfold read_u8. reads_from_steps. Qed.

Lemma reads_from_copy_from_buf (lo : N) (m : memory) (end_ size : N) :
  reads_from lo (copy_from_buf m end_ size).
Proof. unfold copy_from_buf. reads_from_steps. Qed.

Lemma reads_from_copy_size_and_data_from_buf (lo : N) (m : memory) (end_ : N) :
  reads_from lo (copy_size_and_data_from_buf m end_).
Proof. unfold copy_size_and_data_from_buf. reads_from_steps. Qed.

Lemma reads_from_AS_Deserialize_at (lo : N) (m : memory) (end_ : N)
      (store_set : AuthorizationSet -> KeyBlob -> KeyBlob) :
  reads_from lo (AS_Deserialize_at m end_ store_set).
Proof. unfold AS_Deserialize_at. reads_from_steps. Qed.

Ltac reads_from_parse :=
  repeat first
    [ apply reads_from_read_u8
    | apply reads_from_copy_from_buf
    | apply reads_from_copy_size_and_data_from_buf
    | apply reads_from_AS_Deserialize_at
    | apply reads_from_ret
    | apply reads_from_modify
    | apply reads_from_lift
    | apply reads_from_bind; [|intros ?]
    | apply reads_from_if
    | match goal with
      | |- reads_from _ (match ?x with _ => _ end) => destruct x
      end ].

Lemma reads_from_versioned_parse_failed (lo : N) (m : memory) (end_ : N) :
  reads_from lo (versioned_parse_failed m end_).
Proof. unfold versioned_parse_failed. reads_from_parse. Qed.

Lemma reads_from_unversioned_parse_failed (lo : N) (m : memory) (end_ : N) :
  reads_from lo (unversioned_parse_failed m end_).
Proof. unfold unversioned_parse_failed. reads_from_parse. Qed.

Lemma reads_from_enter_unversioned (lo : N) :
  reads_from lo (@enter_unversioned AuthorizationSet).
Proof. unfold enter_unversioned. reads_from_steps. Qed.

Lemma reads_from_DeserializeUnversionedBlob (lo : N) (m : memory) (end_ : N) :
  reads_from lo (DeserializeUnversionedBlob m end_).
Proof.
  unfold DeserializeUnversionedBlob.
  apply reads_from_bind; [apply reads_from_enter_unversioned|]. intros allocated.
  apply reads_from_if; [reads_from_steps|].
  apply reads_from_bind; [apply reads_from_unversioned_parse_failed|]. intros failed.
  reads_from_steps.
Qed.

(** Deserialize reads nothing below the address it starts at, and leaves
    the cursor at or above it. *)
Lemma Deserialize_from_start (m : memory) (end_ : N) (w : world) :
  buf_ptr w <= buf_ptr (snd (Deserialize m end_ w))
  /\ exists evs, trace (snd (Deserialize m end_ w)) = trace w ++ evs
                 /\ Forall (read_from (buf_ptr w)) evs.
Proof.
  assert (R : reads_from (buf_ptr w) (Deserialize m end_)).
  { unfold Deserialize. apply reads_from_at. intros p Hp.
    apply reads_from_bind; [apply reads_from_versioned_parse_failed|]. intros failed.
    destruct failed; [|apply reads_from_lift].
    apply reads_from_bind; [apply reads_from_set_ptr, Hp|]. intros _.
    apply reads_from_bind; [apply reads_from_set_ptr, Hp|]. intros _.
    apply reads_from_bind; [apply reads_from_DeserializeUnversionedBlob|]. intros ok.
    reads_from_steps. }
  destruct (Deserialize m end_ w) as [r w'] eqn:E.
  exact (R w r w' (N.le_refl _) E).
Qed.

Lemma reads_of_from (lo : N) (evs : list event) :
  Forall (read_from lo) evs -> Forall (fun a => lo <= a) (reads_of evs).
Proof.
  induction 1 as [|e evs He _ IH]; [constructor|].
  destruct e; cbn [reads_of flat_map app]; [constructor|]; assumption.
Qed.

(** *** The upper end *)

Lemma stays_below_ret {A} (hi : N) (a : A) : stays_below hi (ret a).
Proof. now intros w a' w' Hhi [= <- <-]. Qed.

Lemma stays_below_bind {A B} (hi : N) (c : M A) (k : A -> M B) :
  stays_below hi c -> (forall a, stays_below hi (k a)) -> stays_below hi (bind c k).
Proof.
  intros Hc Hk w b w' Hhi. unfold bind.
  destruct (c w) as [a w1] eqn:E1. intros E2.
  exact (Hk a _ _ _ (Hc _ _ _ Hhi E1) E2).
Qed.

Lemma stays_below_modify (hi : N) (f : KeyBlob -> KeyBlob) : stays_below hi (modify f).
Proof. now intros w a w' Hhi [= <- <-]. Qed.

Lemma stays_below_lift {A} (hi : N) (f : KeyBlob -> A * KeyBlob) : stays_below hi (lift f).
Proof. intros w a w' Hhi. rewrite lift_eq. now intros [= <- <-]. Qed.

Lemma stays_below_emit (hi : N) (evs : list event) : stays_below hi (emit evs).
Proof. now intros w a w' Hhi [= <- <-]. Qed.

Lemma stays_below_new_array (hi n : N) : stays_below hi (new_array n).
Proof.
  intros w a w' Hhi. unfold new_array.
  now destruct (hd true (heap w)); intros [= <- <-].
Qed.

Lemma stays_below_get_ptr (hi : N) : stays_below hi get_ptr.
Proof. now intros w a w' Hhi [= <- <-]. Qed.

Lemma stays_below_if {A} (hi : N) (b : bool) (c1 c2 : M A) :
  stays_below hi c1 -> stays_below hi c2 -> stays_below hi (if b then c1 else c2).
Proof. now destruct b. Qed.

Lemma stays_below_copy_from_buf (m : memory) (end_ size : N) :
  stays_below end_ (copy_from_buf m end_ size).
Proof.
  intros w r w' Hhi E. apply copy_from_buf_inv in E.
  destruct E as (_ & _ & E). destruct r; lia.
Qed.

Lemma stays_below_copy_size_and_data_from_buf (m : memory) (end_ : N) :
  stays_below end_ (copy_size_and_data_from_buf m end_).
Proof.
  intros w r w' Hhi E. apply copy_size_and_data_from_buf_inv in E.
  destruct E as (_ & E). destruct r as [[n d]|]; lia.
Qed.

Lemma stays_below_AS_Deserialize_at (m : memory) (end_ : N)
      (store_set : AuthorizationSet -> KeyBlob -> KeyBlob) :
  honours_bounds -> stays_below end_ (AS_Deserialize_at m end_ store_set).
Proof.
  intros Hb w r w' Hhi E. apply AS_Deserialize_at_inv in E. destruct E as (_ & E).
  destruct (AS_Deserialize _) as [[s n]|] eqn:D.
  - apply Hb in D. rewrite len_read_bytes in D. lia.
  - lia.
Qed.

Ltac stays_below_steps Hb :=
  repeat first
    [ apply stays_below_copy_from_buf
    | apply stays_below_copy_size_and_data_from_buf
    | apply stays_below_AS_Deserialize_at, Hb
    | apply stays_below_ret
    | apply stays_below_modify
    | apply stays_below_lift
    | apply stays_below_emit
    | apply stays_below_get_ptr
    | apply stays_below_new_array
    | apply stays_below_bind; [|intros ?]
    | apply stays_below_if
    | match goal with
      | |- stays_below _ (match ?x with _ => _ end) => destruct x
      end ].

Lemma stays_below_DeserializeUnversionedBlob (m : memory) (end_ : N) :
  honours_bounds -> stays_below end_ (DeserializeUnversionedBlob m end_).
Proof.
  intros Hb. unfold DeserializeUnversionedBlob, enter_unversioned, unversioned_parse_failed.
  stays_below_steps Hb.
Qed.

(** Where a successful version-0 parse leaves the cursor. *)
Lemma versioned_parse_ok_cursor (m : memory) (end_ : N) (w w' : world) :
  honours_bounds ->
  versioned_parse_failed m end_ w = (false, w') -> buf_ptr w' <= end_.
Proof.
  intros Hb E. pose proof (versioned_parse_ok_fields m end_ w w' E) as F. cbv zeta in F.
  destruct F as (_ & _ & _ & Hq & e & n1 & u & n2 & D1 & D2 & _ & ->).
  apply Hb in D1, D2. rewrite len_read_bytes in D1, D2. lia.
Qed.

(** X9. Every address KeyBlob reads during Deserialize is at or above
    the address the cursor started at; the first read is of that address,
    and every later one is also below [end_]. *)
Theorem Deserialize_reads_from_start (m : memory) (end_ : N) (w : world) :
  exists rs,
    reads (snd (Deserialize m end_ w)) = reads w ++ buf_ptr w :: rs
    /\ Forall (fun a => buf_ptr w <= a < end_) rs.
Proof.
  destruct (Deserialize_reads m end_ w) as (rs & R & F).
  destruct (Deserialize_from_start m end_ w) as (_ & evs & T & G).
  exists rs. split; [exact R|].
  apply reads_of_from in G.
  rewrite (reads_app _ _ _ T) in R. apply app_inv_head in R. rewrite R in G.
  apply Forall_inv_tail in G.
  rewrite Forall_forall in F, G |- *. intros a Ha.
  split; [now apply G | now apply F].
Qed.

(** X10. Given a range that is not reversed, and a policy-set
    collaborator that never reports more bytes consumed than it was handed,
    Deserialize leaves the cursor between the start and [end_], whatever it
    answers. *)
Theorem Deserialize_cursor_in_range (m : memory) (end_ : N) (w : world) :
  honours_bounds -> buf_ptr w <= end_ ->
  buf_ptr w <= buf_ptr (snd (Deserialize m end_ w)) <= end_.
Proof.
  intros Hb Hle. split; [apply Deserialize_from_start|].
  destruct (versioned_parse_failed m end_ w) as [failed w1] eqn:Ev.
  destruct failed.
  - rewrite Deserialize_fallback_eq by (now rewrite Ev).
    destruct (DeserializeUnversionedBlob m end_ (fallback_state m end_ w)) as [r w2] eqn:E.
    exact (stays_below_DeserializeUnversionedBlob m end_ Hb (fallback_state m end_ w) r w2
             Hle E).
  - rewrite Deserialize_eq, Ev. cbn [fst snd]. rewrite lift_eq. cbn [snd buf_ptr].
    exact (versioned_parse_ok_cursor m end_ w w1 Hb Ev).
Qed.

(** X11. With a collaborator that reports as consumed the serialized
    size of the set it read, an accepted version-0 blob has moved the cursor
    on by the SerializedSize of the resulting object, and an accepted
    unversioned blob by nine bytes fewer (the version byte and the length
    fields of the nonce and the tag, which that layout does not have); the
    distances are taken as size_t. *)
Theorem Deserialize_consumes_SerializedSize (m : memory) (end_ : N) (w : world) :
  consumed_is_size ->
  fst (Deserialize m end_ w) = true ->
  let r := Deserialize m end_ w in
  (fst (versioned_parse_failed m end_ w) = false ->
   (buf_ptr (snd r) - buf_ptr w) mod SIZE_LIMIT = SerializedSize (this (snd r)))
  /\ (fst (versioned_parse_failed m end_ w) = true ->
      (buf_ptr (snd r) + (1 + 4 + 4) - buf_ptr w) mod SIZE_LIMIT
      = SerializedSize (this (snd r))).
Proof.
  intros Hs Hok. cbv zeta.
  destruct (Deserialize_accepted m end_ w Hok) as (w1 & Hpath & Hx & E).
  rewrite E, lift_eq. cbn [snd this buf_ptr].
  destruct (ExtractKeyCharacteristics_fields (this w1)) as (_ & _ & F3 & _ & F5 & F6).
  cbv zeta in F3, F5, F6.
  unfold SerializedSize, key_material_length. rewrite F3, F5, F6.
  destruct Hpath as [Hv | [Hv Hu]].
  - rewrite Hv. split; [intros _ | discriminate].
    pose proof (versioned_parse_ok_fields m end_ w w1 Hv) as F. cbv zeta in F.
    destruct F as (_ & _ & _ & _ & e & n1 & u & n2 & D1 & D2 & T & ->).
    apply Hs in D1, D2. rewrite T.
    cbn [key_material_length_ enforced_ unenforced_ set_unenforced set_enforced set_tag
         set_encrypted_key_material set_key_material_length set_nonce].
    f_equal. lia.
  - rewrite Hv. split; [discriminate | intros _].
    pose proof (unversioned_parse_ok_fields m end_ _ w1 Hu) as F. cbv zeta in F.
    rewrite enter_unversioned_ptr in F.
    change (buf_ptr (fallback_state m end_ w)) with (buf_ptr w) in F.
    destruct F as (e & n1 & u & n2 & D1 & D2 & T & -> & _).
    apply Hs in D1, D2. rewrite T.
    cbn [key_material_length_ enforced_ unenforced_ set_unenforced set_enforced set_tag
         set_encrypted_key_material set_key_material_length set_nonce].
    f_equal. lia.
Qed.

End RangeFacts.

(** ** The ways to fail *)

Section Outcomes.

Context {AuthorizationSet : Type} `{AuthorizationSetOps AuthorizationSet}.

Local Abbreviation world := (world AuthorizationSet).
Local Abbreviation M := (M AuthorizationSet).
Local Abbreviation KeyBlob := (KeyBlob AuthorizationSet).

(** X12. DeserializeUnversionedBlob, unlike Deserialize, reads no byte
    outside its range: every address it reads lies between the cursor it was
    entered with and [end_]. *)
Theorem DeserializeUnversionedBlob_reads_in_range (m : memory) (end_ : N) (w : world) :
  exists rs,
    reads (snd (DeserializeUnversionedBlob m end_ w)) = reads w ++ rs
    /\ Forall (fun a => buf_ptr w <= a < end_) rs.
Proof.
  destruct (DeserializeUnversionedBlob_trace m end_ w) as (evs & T & F).
  destruct (DeserializeUnversionedBlob m end_ w) as [r w'] eqn:E.
  destruct (reads_from_DeserializeUnversionedBlob (buf_ptr w) m end_ w r w'
              (N.le_refl _) E) as (_ & evs' & T' & G).
  cbn [snd] in *. rewrite T in T'. apply app_inv_head in T'. subst evs'.
  apply Forall_inv_tail in G. apply reads_of_from in G.
  apply reads_of_below in F.
  exists (reads_of evs). split.
  - now rewrite (reads_app w w' (EvLegacy (buf_ptr w) :: evs) T).
  - rewrite Forall_forall in F, G |- *. intros a Ha.
    split; [now apply G | now apply F].
Qed.


End Outcomes.

(** ** The simple policy set keeps to its input *)

Module SimpleSetBounds.

Lemma length_parse_entries (c : nat) (l : list byte) :
  length (SimpleSet.parse_entries c l) = c.
Proof.
  revert l. induction c as [|c IH]; intros l; [reflexivity|].
  cbn [SimpleSet.parse_entries length]. now rewrite IH.
Qed.

Lemma honours : @honours_bounds SimpleSet.t SimpleSet.ops.
Proof.
  intros l s n. cbn [AS_Deserialize SimpleSet.ops]. unfold SimpleSet.parse.
  destruct (N.leb_spec 4 (len l)); [|discriminate].
  destruct (N.leb_spec (4 + 8 * decode_u32 l) (len l)); [|discriminate].
  intros [= _ <-]. assumption.
Qed.

Lemma consumed : @consumed_is_size SimpleSet.t SimpleSet.ops.
Proof.
  intros l s n. cbn [AS_Deserialize AS_SerializedSize SimpleSet.ops].
  unfold SimpleSet.parse.
  destruct (4 <=? len l); [|discriminate].
  destruct (4 + 8 * decode_u32 l <=? len l); [|discriminate].
  intros [= <- <-]. rewrite length_parse_entries, N2Nat.id. reflexivity.
Qed.

End SimpleSetBounds.

(** * The further properties on sample blobs *)

(** X1 on the blob in the unversioned layout. *)
Lemma second_extraction_changes_nothing_witness :
  lift ExtractKeyCharacteristics
       (snd (DeserializeUnversionedBlob Samples.legacy_memory 172 (Samples.start 100)))
  = (true, snd (DeserializeUnversionedBlob Samples.legacy_memory 172 (Samples.start 100))).
Proof.
  apply (proj2 (@second_extraction_changes_nothing SimpleSet.t SimpleSet.ops)).
  vm_compute. reflexivity.
Defined.

(** X2 on the scenario. *)
Lemma constructors_error_reflects_verdict_witness :
  error_ (this (snd (KeyBlob_of_bytes Samples.scenario_memory 100 81 []))) = KM_ERROR_OK.
Proof.
  apply (proj1 (@constructors_error_reflects_verdict SimpleSet.t SimpleSet.ops
                  Samples.scenario_memory [])).
  vm_compute. reflexivity.
Defined.

(** X3 on the scenario. *)
Lemma Deserialize_accepts_sized_buffers_witness :
  buffers_sized (this (snd (Deserialize Samples.scenario_memory 181 (Samples.start 100)))).
Proof.
  refine (proj1 (Deserialize_accepts_sized_buffers
                   Samples.scenario_memory 181 (Samples.start 100) _)).
  vm_compute. reflexivity.
Defined.

(** X4 on the scenario. *)
Lemma Deserialize_accepts_characteristics_witness :
  lookup_both (this (snd (Deserialize Samples.scenario_memory 181 (Samples.start 100))))
              TAG_ALGORITHM
  = Some (algorithm_
            (this (snd (Deserialize Samples.scenario_memory 181 (Samples.start 100))))).
Proof.
  refine (proj1 (Deserialize_accepts_characteristics
                   Samples.scenario_memory 181 (Samples.start 100) _)).
  vm_compute. reflexivity.
Defined.

(** X5 on the first 20 bytes of the scenario. *)
Lemma short_input_rejected_witness :
  fst (Deserialize Samples.scenario_memory 120 (Samples.start 100)) = false.
Proof.
  refine (proj1 (short_input_rejected Samples.scenario_memory 120 (Samples.start 100) _)).
  vm_compute. reflexivity.
Defined.

(** X6 on the scenario, deserialized by a fresh object and by one that
    already holds a key. *)
Lemma Deserialize_overwrites_object_witness :
  this (snd (Deserialize Samples.scenario_memory 181 (mkWorld Samples.nested 100 [] [])))
  = set_error (error_ Samples.nested)
      (this (snd (Deserialize Samples.scenario_memory 181 (mkWorld blank 100 [] [])))).
Proof.
  pose proof (Deserialize_overwrites_object Samples.scenario_memory 181 100 [] []
                Samples.nested blank) as R.
  cbv zeta in R. destruct R as (_ & _ & _ & _ & R).
  apply R. vm_compute. reflexivity.
Defined.

(** X7 on the blob in the unversioned layout: what it deserializes to is
    written back as 81 bytes that are parsed as version 0. *)
Lemma accepted_object_reserializes_witness :
  let kb := this (snd (Deserialize Samples.legacy_memory 172 (Samples.start 100))) in
  let written := Serialize kb Samples.fresh 200 281 in
  let r := Deserialize (omem (fst written)) (snd written) (Samples.start 200) in
  fst r = true /\ this (snd r) = kb /\ snd written = 281 /\ legacy_entries (snd r) = [].
Proof.
  cbv zeta.
  assert (Ee : enforced_ (this (snd (Deserialize Samples.legacy_memory 172
                                       (Samples.start 100)))) = Samples.aes128)
    by (vm_compute; reflexivity).
  assert (Eu : unenforced_ (this (snd (Deserialize Samples.legacy_memory 172
                                         (Samples.start 100)))) = [])
    by (vm_compute; reflexivity).
  pose proof (accepted_object_reserializes
                Samples.legacy_memory 172 (Samples.start 100)
                Samples.fresh 200 281 (Samples.start 200)) as R.
  cbv zeta in R.
  destruct R as (R1 & R2 & _ & R4 & _ & R6).
  - vm_compute. reflexivity.
  - apply SimpleSetFacts.exact.
  - apply SimpleSetFacts.exact.
  - rewrite Ee. apply SimpleSetFacts.roundtrip, SimpleSetFacts.fits_aes128.
  - rewrite Eu. apply SimpleSetFacts.roundtrip, SimpleSetFacts.fits_nil.
  - vm_compute. discriminate.
  - reflexivity.
  - reflexivity.
  - split; [exact R1|]. split; [|split; [|exact R6]].
    + rewrite R2. vm_compute. reflexivity.
    + rewrite R4. vm_compute. reflexivity.
Defined.

(** X8 on the scenario serialized into a buffer of 20 bytes: the byte
    after the buffer is left alone. *)
Lemma Serialize_frame_witness :
  omem (fst (Serialize Samples.scenario Samples.fresh 100 120)) 100 = BLOB_VERSION
  /\ omem (fst (Serialize Samples.scenario Samples.fresh 100 120)) 120
     = omem Samples.fresh 120.
Proof.
  destruct (Serialize_frame Samples.scenario Samples.fresh 100 120) as [V F].
  split; [exact V|]. apply F. right. split; [vm_compute | ]; discriminate.
Defined.

(** X10 on the scenario cut one byte short. *)
Lemma Deserialize_cursor_in_range_witness :
  100 <= buf_ptr (snd (Deserialize Samples.scenario_memory 180 (Samples.start 100))) <= 180.
Proof.
  refine (Deserialize_cursor_in_range Samples.scenario_memory 180 (Samples.start 100) _ _).
  - apply SimpleSetBounds.honours.
  - vm_compute. discriminate.
Defined.

(** X11 on the scenario (81 bytes) and on the blob in the unversioned
    layout (72 bytes). *)
Lemma Deserialize_consumes_SerializedSize_witness :
  (buf_ptr (snd (Deserialize Samples.scenario_memory 181 (Samples.start 100))) - 100)
    mod SIZE_LIMIT
  = SerializedSize
      (this (snd (Deserialize Samples.scenario_memory 181 (Samples.start 100))))
  /\ (buf_ptr (snd (Deserialize Samples.legacy_memory 172 (Samples.start 100)))
      + (1 + 4 + 4) - 100) mod SIZE_LIMIT
     = SerializedSize
         (this (snd (Deserialize Samples.legacy_memory 172 (Samples.start 100)))).
Proof.
  split.
  - pose proof (Deserialize_consumes_SerializedSize
                  Samples.scenario_memory 181 (Samples.start 100)
                  SimpleSetBounds.consumed) as R.
    cbv zeta in R. refine (proj1 (R _) _); vm_compute; reflexivity.
  - pose proof (Deserialize_consumes_SerializedSize
                  Samples.legacy_memory 172 (Samples.start 100)
                  SimpleSetBounds.consumed) as R.
    cbv zeta in R. refine (proj2 (R _) _); vm_compute; reflexivity.
Defined.


